(** * An indexed max-heap priority queue and its discrete-time driver

    Shallow embedding of [priorityqueue.py]: the [Task] record, the class
    [MaxHeapPriorityQueue] (an array-backed binary heap with a position map
    from task ids to slots) and the function [simulate_scheduler].

    - Python integers are [Z]; list indices, which the code only ever
      derives from [len], parents and children, are [nat].
    - [str] is [string], ordered lexicographically by character code, as
      Python's [<] on [str] is.
    - The instance attributes [_heap] and [_pos] form the state of a small
      state-and-exception monad; every method is a computation in it, and a
      raised exception carries the state at the moment of the raise. *)

From Stdlib Require Import ZArith String Ascii OrdersEx Sorted.
From stdpp Require Import gmap strings list fin_maps sorting.

Local Open Scope Z_scope.

(** ** Tasks *)

Record Task : Type := mkTask {
  task_id : string;
  priority : Z;
  arrival_time : Z;
  deadline : option Z;
  payload : string
}.

(** [self._heap[i].priority = new_priority] writes a field of the object in
    slot [i].  The heap store holds records, so the write is the slot
    taking the record with that one field replaced; no other slot can hold
    the same object, since ids of resident tasks are distinct. *)
Definition set_priority (t : Task) (p : Z) : Task :=
  {| task_id := task_id t; priority := p; arrival_time := arrival_time t;
     deadline := deadline t; payload := payload t |}.

(** ** The comparator *)

(** [MaxHeapPriorityQueue._higher_priority]. *)
Definition _higher_priority (a b : Task) : bool :=
  if negb (priority a =? priority b) then priority a >? priority b
  else if negb (arrival_time a =? arrival_time b)
       then arrival_time a <? arrival_time b
       else String.ltb (task_id a) (task_id b).

(** ** Exceptions and the state monad *)

Inductive exn : Type := ValueError | IndexError | KeyError.

Inductive result (A : Type) : Type :=
| Ok (a : A)
| Raise (e : exn).
Arguments Ok {A} a.
Arguments Raise {A} e.

(** The two instance attributes of [MaxHeapPriorityQueue]. *)
Record Queue : Type := mkQueue {
  _heap : list Task;
  _pos : gmap string nat
}.

Definition M (A : Type) : Type := Queue → result A * Queue.

Definition ret {A} (a : A) : M A := λ q, (Ok a, q).
Definition raise {A} (e : exn) : M A := λ q, (Raise e, q).
Definition bind {A B} (m : M A) (k : A → M B) : M B :=
  λ q, match m q with
       | (Ok a, q') => k a q'
       | (Raise e, q') => (Raise e, q')
       end.

Notation "x <- m ;; k" := (bind m (λ x, k))
  (at level 100, m at next level, right associativity).
Notation "m ;;; k" := (bind m (λ _, k))
  (at level 100, right associativity).

(** *** Primitive accesses to [self._heap] and [self._pos] *)

(** [len(self._heap)] *)
Definition heap_len : M nat := λ q, (Ok (length (_heap q)), q).

(** [self._heap[i]], an [IndexError] out of range. *)
Definition heap_get (i : nat) : M Task :=
  λ q, match _heap q !! i with
       | Some t => (Ok t, q)
       | None => (Raise IndexError, q)
       end.

(** [self._heap[i] = t], an [IndexError] out of range. *)
Definition heap_set (i : nat) (t : Task) : M unit :=
  λ q, if (i <? length (_heap q))%nat
       then (Ok tt, {| _heap := <[i:=t]> (_heap q); _pos := _pos q |})
       else (Raise IndexError, q).

(** [self._heap.append(t)] *)
Definition heap_append (t : Task) : M unit :=
  λ q, (Ok tt, {| _heap := _heap q ++ [t]; _pos := _pos q |}).

(** [self._heap.pop()], an [IndexError] on the empty list. *)
Definition heap_pop : M Task :=
  λ q, match last (_heap q) with
       | Some t => (Ok t, {| _heap := removelast (_heap q); _pos := _pos q |})
       | None => (Raise IndexError, q)
       end.

(** [k in self._pos] *)
Definition pos_mem (k : string) : M bool :=
  λ q, (Ok (bool_decide (is_Some (_pos q !! k))), q).

(** [self._pos[k]], a [KeyError] for an absent key. *)
Definition pos_get (k : string) : M nat :=
  λ q, match _pos q !! k with
       | Some i => (Ok i, q)
       | None => (Raise KeyError, q)
       end.

(** [self._pos[k] = i] *)
Definition pos_set (k : string) (i : nat) : M unit :=
  λ q, (Ok tt, {| _heap := _heap q; _pos := <[k:=i]> (_pos q) |}).

(** [del self._pos[k]], a [KeyError] for an absent key. *)
Definition pos_del (k : string) : M unit :=
  λ q, match _pos q !! k with
       | Some _ => (Ok tt, {| _heap := _heap q; _pos := delete k (_pos q) |})
       | None => (Raise KeyError, q)
       end.

(** ** The class [MaxHeapPriorityQueue] *)

(** [__init__] *)
Definition empty_queue : Queue := {| _heap := []; _pos := ∅ |}.

Definition is_empty : M bool :=
  n <- heap_len ;; ret (n =? 0)%nat.

(** [_swap]: the right-hand side of the tuple assignment is read first
    ([self._heap[j]], then [self._heap[i]]), the two slots are written, and
    the position of whatever task is then in each slot is recorded. *)
Definition _swap (i j : nat) : M unit :=
  hj <- heap_get j ;;
  hi <- heap_get i ;;
  heap_set i hj ;;;
  heap_set j hi ;;;
  ti <- heap_get i ;;
  pos_set (task_id ti) i ;;;
  tj <- heap_get j ;;
  pos_set (task_id tj) j.

(** The [while idx > 0] loop of [_sift_up].  [idx] strictly decreases, so
    [idx] rounds are enough: with [idx <= fuel] the loop condition is false
    whenever the fuel is spent (see [sift_up_eq]). *)
Fixpoint sift_up_loop (fuel idx : nat) : M unit :=
  match fuel with
  | O => ret tt
  | S fuel' =>
    if (0 <? idx)%nat then
      let parent := ((idx - 1) / 2)%nat in
      a <- heap_get idx ;;
      b <- heap_get parent ;;
      if _higher_priority a b
      then (_swap idx parent ;;; sift_up_loop fuel' parent)
      else ret tt
    else ret tt
  end.

Definition _sift_up (idx : nat) : M unit := sift_up_loop idx idx.

(** The [while True] loop of [_sift_down], with [n] read once before it.
    [idx] strictly increases and the loop returns once [2*idx+1 >= n], so
    [n - idx] rounds are enough (see [sift_down_eq]). *)
Fixpoint sift_down_loop (fuel n idx : nat) : M unit :=
  match fuel with
  | O => ret tt
  | S fuel' =>
    let left := (2 * idx + 1)%nat in
    if (n <=? left)%nat then ret tt
    else
      let right := (left + 1)%nat in
      best <- (if (right <? n)%nat
               then (r <- heap_get right ;;
                     l <- heap_get left ;;
                     ret (if _higher_priority r l then right else left))
               else ret left) ;;
      b <- heap_get best ;;
      c <- heap_get idx ;;
      if _higher_priority b c
      then (_swap idx best ;;; sift_down_loop fuel' n best)
      else ret tt
  end.

Definition _sift_down (idx : nat) : M unit :=
  n <- heap_len ;; sift_down_loop (n - idx) n idx.

Definition insert (task : Task) : M unit :=
  dup <- pos_mem (task_id task) ;;
  if dup then raise ValueError
  else
    heap_append task ;;;
    n <- heap_len ;;
    let idx := (n - 1)%nat in
    pos_set (task_id task) idx ;;;
    _sift_up idx.

Definition extract_max : M Task :=
  e <- is_empty ;;
  if e then raise IndexError
  else
    top <- heap_get 0 ;;
    last <- heap_pop ;;
    pos_del (task_id top) ;;;
    n <- heap_len ;;
    if (0 <? n)%nat
    then (heap_set 0 last ;;;
          pos_set (task_id last) 0 ;;;
          _sift_down 0 ;;;
          ret top)
    else ret top.

Definition peek_max : M Task :=
  e <- is_empty ;;
  if e then raise IndexError else heap_get 0.

Definition increase_key (id : string) (new_priority : Z) : M unit :=
  present <- pos_mem id ;;
  if negb present then raise KeyError
  else
    i <- pos_get id ;;
    t <- heap_get i ;;
    if new_priority <? priority t then raise ValueError
    else
      t' <- heap_get i ;;
      heap_set i (set_priority t' new_priority) ;;;
      _sift_up i.

Definition decrease_key (id : string) (new_priority : Z) : M unit :=
  present <- pos_mem id ;;
  if negb present then raise KeyError
  else
    i <- pos_get id ;;
    t <- heap_get i ;;
    if new_priority >? priority t then raise ValueError
    else
      t' <- heap_get i ;;
      heap_set i (set_priority t' new_priority) ;;;
      _sift_down i.

(** [__len__] *)
Definition len : M nat := heap_len.

(** ** The driver [simulate_scheduler] *)

(** [by_time.setdefault(task.arrival_time, []).append(task)] over the input
    list. *)
Definition by_time_add (m : gmap Z (list Task)) (task : Task)
  : gmap Z (list Task) :=
  <[arrival_time task := default [] (m !! arrival_time task) ++ [task]]> m.

Definition by_time_of (tasks : list Task) : gmap Z (list Task) :=
  foldl by_time_add ∅ tasks.

(** [for task in by_time.get(t, []): pq.insert(task)] *)
Fixpoint insert_each (l : list Task) : M unit :=
  match l with
  | [] => ret tt
  | task :: l' => insert task ;;; insert_each l'
  end.

(** One round of the loop over [t], threading the timeline. *)
Definition sim_step (by_time : gmap Z (list Task)) (t : Z)
    (timeline : list (Z * Task)) : M (list (Z * Task)) :=
  insert_each (default [] (by_time !! t)) ;;;
  e <- is_empty ;;
  if negb e
  then (executed <- extract_max ;; ret (timeline ++ [(t, executed)]))
  else ret timeline.

Fixpoint sim_loop (by_time : gmap Z (list Task)) (ts : list Z)
    (timeline : list (Z * Task)) : M (list (Z * Task)) :=
  match ts with
  | [] => ret timeline
  | t :: ts' =>
    timeline' <- sim_step by_time t timeline ;;
    sim_loop by_time ts' timeline'
  end.

(** The body of [simulate_scheduler] run on a fresh queue: the outcome
    together with the queue as the loop leaves it.  [range(max_time + 1)]
    is [seqZ 0 (max_time + 1)], empty when [max_time < 0]. *)
Definition simulate_run (tasks : list Task) (max_time : Z)
  : result (list (Z * Task)) * Queue :=
  sim_loop (by_time_of tasks) (seqZ 0 (max_time + 1)) [] empty_queue.

(** The queue is local to the call: only the timeline (or the exception)
    leaves it. *)
Definition simulate_scheduler (tasks : list Task) (max_time : Z)
  : result (list (Z * Task)) :=
  fst (simulate_run tasks max_time).

(** The demo of the [__main__] block. *)
Definition demo_tasks : list Task :=
  [ mkTask "A" 3 0 (Some 10) "";
    mkTask "B" 10 1 (Some 3) "";
    mkTask "C" 5 1 (Some 8) "";
    mkTask "D" 10 2 (Some 5) "";
    mkTask "E" 1 3 (Some 12) "" ].

(** ** A client loop: extract until empty *)

(** [while not pq.is_empty(): out.append(pq.extract_max())], with one round
    of fuel per resident task. *)
Fixpoint extract_loop (fuel : nat) (out : list Task) : M (list Task) :=
  match fuel with
  | O => ret out
  | S fuel' =>
    e <- is_empty ;;
    if negb e
    then (t <- extract_max ;; extract_loop fuel' (out ++ [t]))
    else ret out
  end.

Definition extract_all : M (list Task) :=
  n <- heap_len ;; extract_loop n [].

(** ** Specification vocabulary *)

(** *** Slots of the implicit tree *)

Definition parent (i : nat) : nat := ((i - 1) / 2)%nat.

Definition is_child (i c : nat) : Prop :=
  c = (2 * i + 1)%nat ∨ c = (2 * i + 2)%nat.

(** Depth of a slot: the number of parent steps to slot 0. *)
Fixpoint depth_aux (fuel i : nat) : nat :=
  match fuel with
  | O => O
  | S fuel' => if (0 <? i)%nat then S (depth_aux fuel' (parent i)) else O
  end.

Definition depth (i : nat) : nat := depth_aux i i.

(** *** The two invariants of the class *)

(** Heap-index consistency: [_pos] maps an id to slot [i] exactly when slot
    [i] holds the task of that id. *)
Definition pos_ok (q : Queue) : Prop :=
  ∀ id i, _pos q !! id = Some i ↔
          ∃ t, _heap q !! i = Some t ∧ task_id t = id.

(** Max-heap order on a list. *)
Definition heap_ordered (h : list Task) : Prop :=
  ∀ i c t u, is_child i c → h !! i = Some t → h !! c = Some u →
             _higher_priority t u = true.

(** The representation invariant. *)
Definition wf (q : Queue) : Prop := pos_ok q ∧ heap_ordered (_heap q).

(** Task [t] is resident under id [id]. *)
Definition resident (q : Queue) (id : string) (t : Task) : Prop :=
  t ∈ _heap q ∧ task_id t = id.

(** The states reachable from the empty queue by successful public calls. *)
Inductive reachable : Queue → Prop :=
| reach_init : reachable empty_queue
| reach_insert q task q' :
    reachable q → insert task q = (Ok tt, q') → reachable q'
| reach_extract_max q t q' :
    reachable q → extract_max q = (Ok t, q') → reachable q'
| reach_peek_max q t q' :
    reachable q → peek_max q = (Ok t, q') → reachable q'
| reach_increase_key q id p q' :
    reachable q → increase_key id p q = (Ok tt, q') → reachable q'
| reach_decrease_key q id p q' :
    reachable q → decrease_key id p q = (Ok tt, q') → reachable q'.

(** *** Heap order under repair *)

(** While [_sift_up] works on slot [idx], only the pair (parent of [idx],
    [idx]) may be out of order, and the parent of [idx] already dominates
    the children of [idx]. *)
Definition up_inv (h : list Task) (idx : nat) : Prop :=
  (∀ i c t u, is_child i c → c ≠ idx → h !! i = Some t → h !! c = Some u →
              _higher_priority t u = true) ∧
  (∀ c t u, (0 < idx)%nat → is_child idx c →
            h !! parent idx = Some t → h !! c = Some u →
            _higher_priority t u = true).

(** While [_sift_down] works on slot [idx], only the pairs ([idx], child of
    [idx]) may be out of order. *)
Definition down_inv (h : list Task) (idx : nat) : Prop :=
  (∀ i c t u, is_child i c → i ≠ idx → h !! i = Some t → h !! c = Some u →
              _higher_priority t u = true) ∧
  (∀ c t u, (0 < idx)%nat → is_child idx c →
            h !! parent idx = Some t → h !! c = Some u →
            _higher_priority t u = true).

(** What the first half of a [_sift_down] round selects: a child [best] of
    [idx], holding [tb], that is higher-priority than the other child. *)
Definition best_child (h : list Task) (idx best : nat) (tb : Task) : Prop :=
  is_child idx best ∧ h !! best = Some tb ∧
  ∀ c u, is_child idx c → c ≠ best → h !! c = Some u →
         _higher_priority tb u = true.

(** The heap store and the position map after [_swap i j], when slot [i]
    held [ti] and slot [j] held [tj]. *)
Definition swap_heap (h : list Task) (i j : nat) (ti tj : Task) : list Task :=
  <[j:=ti]> (<[i:=tj]> h).

Definition swap_pos (p : gmap string nat) (i j : nat) (ti tj : Task)
  : gmap string nat :=
  <[task_id ti:=j]> (<[task_id tj:=i]> p).

(** *** Sorting *)

(** The comparator as a relation. *)
Definition hp_rel : relation Task := λ a b, _higher_priority a b = true.

(** Sorting descending under the comparator, by insertion. *)
Fixpoint sort_insert (x : Task) (l : list Task) : list Task :=
  match l with
  | [] => [x]
  | y :: l' => if _higher_priority x y then x :: l else y :: sort_insert x l'
  end.

Definition sort_desc (l : list Task) : list Task :=
  foldr sort_insert [] l.

(** *** The driver's timeline *)

(** The tasks the driver has inserted before round [t]: those whose
    arrival time lies in [0..t-1], in input order. *)
Definition arrivals (tasks : list Task) (t : Z) : list Task :=
  filter (λ x, 0 ≤ arrival_time x < t) tasks.

(** The tasks of the input that fall inside the horizon [0..max_time]. *)
Definition in_horizon (tasks : list Task) (max_time : Z) : list Task :=
  filter (λ x, 0 ≤ arrival_time x ≤ max_time) tasks.

(** What holds of a timeline entry [(t, x)] recorded after the entries
    [pre]: earlier entries have earlier times, and [x] together with the
    still pending tasks [rest] and the tasks executed so far makes up the
    arrivals up to [t], with [x] higher-priority than all of [rest]. *)
Definition entry_ok (tasks : list Task) (pre : list (Z * Task))
    (t : Z) (x : Task) : Prop :=
  0 ≤ t ∧ Forall (λ e, e.1 < t) pre ∧
  ∃ rest, x :: rest ++ pre.*2 ≡ₚ arrivals tasks (t + 1) ∧
          Forall (hp_rel x) rest.

Definition timeline_ok (tasks : list Task) (tl : list (Z * Task)) : Prop :=
  ∀ pre t x post, tl = pre ++ (t, x) :: post → entry_ok tasks pre t x.

(** The loop invariant of [simulate_scheduler] at the start of round [t]:
    the queue and the timeline together hold the arrivals so far. *)
Definition sim_inv (tasks : list Task) (t : Z) (q : Queue)
    (tl : list (Z * Task)) : Prop :=
  wf q ∧ _heap q ++ tl.*2 ≡ₚ arrivals tasks t ∧
  Forall (λ e, e.1 < t) tl ∧ timeline_ok tasks tl.

(** *** A sample state *)

(** The queue holding the five demo tasks, inserted in list order. *)
Definition demo_queue : Queue := snd (insert_each demo_tasks empty_queue).

(** *** Idle rounds of the driver *)

(** Up to round [t], a round without a timeline entry is one at which no
    task was pending: every task that had arrived by then was executed
    before. *)
Definition work_ok (tasks : list Task) (tl : list (Z * Task)) (t : Z) : Prop :=
  ∀ t' x, 0 ≤ t' < t → t' ∉ tl.*1 → x ∈ arrivals tasks (t' + 1) →
          ∃ s, (s, x) ∈ tl ∧ s < t'.

(** ** The sorting routines of [heapsort.py]

    The routines work in place on a Python list of integers.  The list is
    the state of a state-and-exception monad, general in its state so that
    [comparision.py] can use it with two buffers; an index out of range
    raises [IndexError].  Indices are [nat]: every index the code computes
    comes from [len], [range] bounds that are not negative, and children of
    slots. *)

Definition SM (S A : Type) : Type := S → result A * S.

Definition sret {S A} (a : A) : SM S A := λ s, (Ok a, s).
Definition sbind {S A B} (m : SM S A) (k : A → SM S B) : SM S B :=
  λ s, match m s with
       | (Ok a, s') => k a s'
       | (Raise e, s') => (Raise e, s')
       end.

Notation "x <~ m ;; k" := (sbind m (λ x, k))
  (at level 100, m at next level, right associativity).
Notation "m ;;~ k" := (sbind m (λ _, k))
  (at level 100, right associativity).

(** [for x in xs: body(x)] *)
Fixpoint sfor {S A} (xs : list A) (body : A → SM S unit) : SM S unit :=
  match xs with
  | [] => sret tt
  | x :: xs' => body x ;;~ sfor xs' body
  end.

(** [len(a)], [a[i]] and [a[i] = v] on the list that is the state. *)
Definition a_len : SM (list Z) nat := λ a, (Ok (length a), a).

Definition a_get (i : nat) : SM (list Z) Z :=
  λ a, match a !! i with
       | Some v => (Ok v, a)
       | None => (Raise IndexError, a)
       end.

Definition a_set (i : nat) (v : Z) : SM (list Z) unit :=
  λ a, if (i <? length a)%nat then (Ok tt, <[i:=v]> a)
       else (Raise IndexError, a).

(** [a[i], a[j] = a[j], a[i]]: both reads, then the write of slot [i], then
    the write of slot [j]. *)
Definition a_swap (i j : nat) : SM (list Z) unit :=
  vj <~ a_get j ;;
  vi <~ a_get i ;;
  a_set i vj ;;~
  a_set j vi.

Module Heapsort.

(** The [while True] loop of [_sift_down(a, start, end)].  [root] strictly
    increases and the loop returns once [2*root+1 > end], so [end - root]
    rounds are enough. *)
Fixpoint sift_down_loop (fuel root end_ : nat) : SM (list Z) unit :=
  match fuel with
  | O => sret tt
  | S fuel' =>
    let left := (2 * root + 1)%nat in
    if (end_ <? left)%nat then sret tt
    else
      let right := (left + 1)%nat in
      child <~ (if (right <=? end_)%nat
                then (r <~ a_get right ;;
                      l <~ a_get left ;;
                      sret (if r >? l then right else left))
                else sret left) ;;
      c <~ a_get child ;;
      r <~ a_get root ;;
      if c >? r
      then (a_swap root child ;;~ sift_down_loop fuel' child end_)
      else sret tt
  end.

Definition _sift_down (start end_ : nat) : SM (list Z) unit :=
  sift_down_loop (end_ - start) start end_.

(** [range((n // 2) - 1, -1, -1)] is [n//2 - 1, ..., 0], empty when
    [n < 2]; the bound [n - 1] is only used when the range is not empty. *)
Definition _build_max_heap : SM (list Z) unit :=
  n <~ a_len ;;
  sfor (rev (seq 0 (n / 2))) (λ i, _sift_down i (n - 1)).

(** The body of [heapsort] on the copy [arr = list(a)];
    [range(n - 1, 0, -1)] is [n - 1, ..., 1]. *)
Definition heapsort_body : SM (list Z) unit :=
  n <~ a_len ;;
  if (n <=? 1)%nat then sret tt
  else
    _build_max_heap ;;~
    sfor (rev (seq 1 (n - 1)))
      (λ end_, a_swap 0 end_ ;;~ _sift_down 0 (end_ - 1)).

(** [heapsort(a)] returns the copy it worked on. *)
Definition heapsort (a : list Z) : result (list Z) :=
  match heapsort_body a with
  | (Ok _, arr) => Ok arr
  | (Raise e, _) => Raise e
  end.

End Heapsort.

(** *** Vocabulary for the integer heaps *)

(** Max-heap order among the slots [lo..hi]: every slot from [lo] on is at
    least each of its children up to [hi]. *)
Definition heap_between (a : list Z) (lo hi : nat) : Prop :=
  ∀ i c x y, (lo ≤ i)%nat → is_child i c → (c ≤ hi)%nat →
             a !! i = Some x → a !! c = Some y → y ≤ x.

(** Heap order among [lo..hi] with slot [root] under repair. *)
Definition sd_inv (a : list Z) (lo hi root : nat) : Prop :=
  (∀ i c x y, (lo ≤ i)%nat → i ≠ root → is_child i c → (c ≤ hi)%nat →
              a !! i = Some x → a !! c = Some y → y ≤ x) ∧
  (∀ c x y, (0 < root)%nat → (lo ≤ parent root)%nat →
            is_child root c → (c ≤ hi)%nat →
            a !! parent root = Some x → a !! c = Some y → y ≤ x).

(** The list after exchanging slots [i] and [j], which held [x] and [y]. *)
Definition list_swap {A} (l : list A) (i j : nat) (x y : A) : list A :=
  <[j:=x]> (<[i:=y]> l).

(** During the second phase of [heapsort], with [e] the last slot of the
    heap: the slots after [e] are in ascending order and hold nothing
    smaller than any slot up to [e]. *)
Definition suffix_ok (a : list Z) (e : nat) : Prop :=
  (∀ i j x y, (e < i)%nat → (i ≤ j)%nat →
              a !! i = Some x → a !! j = Some y → x ≤ y) ∧
  (∀ i j x y, (i ≤ e)%nat → (e < j)%nat →
              a !! i = Some x → a !! j = Some y → x ≤ y).

(** ** [mergesort] of [comparision.py]

    The bottom-up merge sort works on two buffers, [src] and [dst], which
    trade places after every pass. *)

Module Comparision.

Record Bufs : Type := mkBufs { src : list Z; dst : list Z }.

(** [src[i]] and [dst[k] = v], an [IndexError] out of range. *)
Definition src_get (i : nat) : SM Bufs Z :=
  λ s, match src s !! i with
       | Some v => (Ok v, s)
       | None => (Raise IndexError, s)
       end.

Definition dst_set (k : nat) (v : Z) : SM Bufs unit :=
  λ s, if (k <? length (dst s))%nat
       then (Ok tt, {| src := src s; dst := <[k:=v]> (dst s) |})
       else (Raise IndexError, s).

(** [src, dst = dst, src] *)
Definition swap_bufs : SM Bufs unit :=
  λ s, (Ok tt, {| src := dst s; dst := src s |}).

(** [while i < mid and j < right]: one element is written per round, so
    [(mid - i) + (right - j)] rounds are enough.  The loop hands back the
    locals [i], [j], [k]. *)
Fixpoint merge_loop (fuel i j k mid right : nat) : SM Bufs (nat * nat * nat) :=
  match fuel with
  | O => sret (i, j, k)
  | S fuel' =>
    if (i <? mid)%nat && (j <? right)%nat then
      x <~ src_get i ;;
      y <~ src_get j ;;
      if x <=? y
      then (v <~ src_get i ;;
            dst_set k v ;;~
            merge_loop fuel' (i + 1) j (k + 1) mid right)
      else (v <~ src_get j ;;
            dst_set k v ;;~
            merge_loop fuel' i (j + 1) (k + 1) mid right)
    else sret (i, j, k)
  end.

(** [while i < mid: dst[k] = src[i]; i += 1; k += 1], and the same loop on
    [j] and [right]; it hands back [k]. *)
Fixpoint copy_loop (fuel i k stop : nat) : SM Bufs nat :=
  match fuel with
  | O => sret k
  | S fuel' =>
    if (i <? stop)%nat then
      v <~ src_get i ;;
      dst_set k v ;;~
      copy_loop fuel' (i + 1) (k + 1) stop
    else sret k
  end.

(** The body of [for left in range(0, n, 2 * width)]. *)
Definition merge_block (n width left : nat) : SM Bufs unit :=
  let mid := Nat.min (left + width) n in
  let right := Nat.min (left + 2 * width) n in
  ijk <~ merge_loop (right - left) left mid left mid right ;;
  let '(i, j, k) := ijk in
  k' <~ copy_loop (mid - i) i k mid ;;
  copy_loop (right - j) j k' right ;;~
  sret tt.

(** [range(0, n, step)] for a positive [step]: the multiples of [step]
    below [n]. *)
Definition range_step (n step : nat) : list nat :=
  (λ b, b * step)%nat <$> seq 0 ((n + step - 1) / step).

(** [while width < n]: [width] doubles every round, so [n] rounds are
    enough. *)
Fixpoint pass_loop (fuel n width : nat) : SM Bufs unit :=
  match fuel with
  | O => sret tt
  | S fuel' =>
    if (width <? n)%nat then
      sfor (range_step n (2 * width)) (merge_block n width) ;;~
      swap_bufs ;;~
      pass_loop fuel' n (2 * width)
    else sret tt
  end.

Definition mergesort (a : list Z) : result (list Z) :=
  let n := length a in
  if (n <=? 1)%nat then Ok a
  else
    match pass_loop n n 1 {| src := a; dst := replicate n 0 |} with
    | (Ok _, s) => Ok (src s)
    | (Raise e, _) => Raise e
    end.

(** *** [quicksort]

    [random.randint(lo, hi)] may return any integer of [lo..hi].  The draws
    come from an arbitrary oracle [rnd], the [n]-th draw being [rnd n] folded
    into the interval; every run of the Python code is the run of the model
    under some oracle.  The indices [lo], [hi], [lt], [gt] reach [-1], so
    they are [Z], and a subscript follows Python: [a[i]] for [-len <= i < 0]
    is [a[len + i]]. *)

Record QS : Type := mkQS { arr : list Z; draws : nat }.

Definition py_index (n : nat) (i : Z) : option nat :=
  if 0 <=? i then (if i <? Z.of_nat n then Some (Z.to_nat i) else None)
  else if - Z.of_nat n <=? i then Some (Z.to_nat (Z.of_nat n + i))
  else None.

Definition q_get (i : Z) : SM QS Z :=
  λ s, match py_index (length (arr s)) i with
       | Some k => match arr s !! k with
                   | Some v => (Ok v, s)
                   | None => (Raise IndexError, s)
                   end
       | None => (Raise IndexError, s)
       end.

Definition q_set (i : Z) (v : Z) : SM QS unit :=
  λ s, match py_index (length (arr s)) i with
       | Some k => (Ok tt, {| arr := <[k:=v]> (arr s); draws := draws s |})
       | None => (Raise IndexError, s)
       end.

(** [a[x], a[y] = a[y], a[x]] *)
Definition q_swap (x y : Z) : SM QS unit :=
  vy <~ q_get y ;;
  vx <~ q_get x ;;
  q_set x vy ;;~
  q_set y vx.

(** [random.randint(lo, hi)], a [ValueError] on an empty interval. *)
Definition randint (rnd : nat → nat) (lo hi : Z) : SM QS Z :=
  λ s, if hi <? lo then (Raise ValueError, s)
       else (Ok (lo + Z.of_nat (rnd (draws s)) `mod` (hi - lo + 1)),
             {| arr := arr s; draws := S (draws s) |}).

(** [while i <= gt], the three-way partition around [pivot]; every round
    shrinks [gt - i], so [gt - i + 1] rounds are enough.  The loop hands
    back [lt] and [gt]. *)
Fixpoint part_loop (fuel : nat) (pivot lt i gt : Z) : SM QS (Z * Z) :=
  match fuel with
  | O => sret (lt, gt)
  | S fuel' =>
    if i <=? gt then
      x <~ q_get i ;;
      if x <? pivot
      then (q_swap lt i ;;~ part_loop fuel' pivot (lt + 1) (i + 1) gt)
      else
        y <~ q_get i ;;
        if y >? pivot
        then (q_swap i gt ;;~ part_loop fuel' pivot lt i (gt - 1))
        else part_loop fuel' pivot lt (i + 1) gt
    else sret (lt, gt)
  end.

(** [_quicksort_3way(a, lo, hi)]: the body of its [while lo < hi] loop.
    After the recursive call on one side the loop goes on with the other
    side as its new [lo..hi]; that continuation is the second call here.
    Both sides are shorter than [lo..hi], so [hi - lo + 1] levels are
    enough. *)
Fixpoint qs_loop (rnd : nat → nat) (fuel : nat) (lo hi : Z) : SM QS unit :=
  match fuel with
  | O => sret tt
  | S fuel' =>
    if lo <? hi then
      pivot_index <~ randint rnd lo hi ;;
      pivot <~ q_get pivot_index ;;
      ltgt <~ part_loop (Z.to_nat (hi - lo + 1)) pivot lo lo hi ;;
      let '(lt, gt) := ltgt in
      let left_size := lt - lo in
      let right_size := hi - gt in
      if left_size <? right_size
      then (qs_loop rnd fuel' lo (lt - 1) ;;~ qs_loop rnd fuel' (gt + 1) hi)
      else (qs_loop rnd fuel' (gt + 1) hi ;;~ qs_loop rnd fuel' lo (lt - 1))
    else sret tt
  end.

Definition _quicksort_3way (rnd : nat → nat) (lo hi : Z) : SM QS unit :=
  qs_loop rnd (Z.to_nat (hi - lo + 1)) lo hi.

Definition quicksort (rnd : nat → nat) (a : list Z) : result (list Z) :=
  match _quicksort_3way rnd 0 (Z.of_nat (length a) - 1)
          {| arr := a; draws := 0 |} with
  | (Ok _, s) => Ok (arr s)
  | (Raise e, _) => Raise e
  end.

(** *** [gen_data]

    The list comprehensions draw [n] times from the same oracle, each draw
    folded into its interval as in [randint]; [range(n)] is [seqZ 0 n] and
    [range(n, 0, -1)] is [n, ..., 1]. *)
Definition gen_data (rnd : nat → nat) (n : Z) (kind : string)
  : result (list Z) :=
  if String.eqb kind "random"
  then Ok ((λ k, 0 + Z.of_nat (rnd k) `mod` (n - 0 + 1)) <$>
           seq 0 (Z.to_nat n))
  else if String.eqb kind "sorted" then Ok (seqZ 0 n)
  else if String.eqb kind "reverse" then Ok (reverse (seqZ 1 n))
  else if String.eqb kind "few_unique"
  then Ok ((λ k, 0 + Z.of_nat (rnd k) `mod` (10 - 0 + 1)) <$>
           seq 0 (Z.to_nat n))
  else Raise ValueError.

End Comparision.

(** *** Vocabulary for the merge sort *)

(** The slice [l[a:b]]. *)
Definition slice {A} (l : list A) (a b : nat) : list A :=
  take (b - a) (drop a l).

(** Every aligned block of [w] slots of [l] is in ascending order. *)
Definition block_sorted (w : nat) (l : list Z) : Prop :=
  ∀ b, StronglySorted Z.le (slice l (b * w) ((b + 1) * w)).

(** The blocks [0..b-1] of [d] hold the merged runs of [s]. *)
Definition blocks_merged (n w : nat) (s d : list Z) (b : nat) : Prop :=
  ∀ c, (c < b)%nat →
    slice d (c * (2 * w)) ((c * (2 * w) + 2 * w) `min` n) =
    list_merge Z.le
      (slice s (c * (2 * w)) ((c * (2 * w) + w) `min` n))
      (slice s ((c * (2 * w) + w) `min` n) ((c * (2 * w) + 2 * w) `min` n)).

(** *** Vocabulary for the quicksort *)

(** [a[i]] for a subscript that is not negative. *)
Definition zget (a : list Z) (i : Z) : option Z :=
  if decide (0 ≤ i) then a !! Z.to_nat i else None.

(** The slots [lo..hi] of [a] are in ascending order. *)
Definition sorted_range (a : list Z) (lo hi : Z) : Prop :=
  ∀ i j x y, lo ≤ i → i ≤ j → j ≤ hi →
             zget a i = Some x → zget a j = Some y → x ≤ y.

(** The invariant of the partition loop on [lo..hi]: smaller than the pivot
    in [lo..lt-1], equal to it in [lt..i-1], larger in [gt+1..hi], and the
    pivot still occurs in [lt..gt]. *)
Definition part_inv (a0 a : list Z) (pivot lo hi lt i gt : Z) : Prop :=
  lo ≤ lt ∧ lt ≤ i ∧ i ≤ gt + 1 ∧ gt ≤ hi ∧
  length a = length a0 ∧ a ≡ₚ a0 ∧
  (∀ k, k < lo ∨ hi < k → zget a k = zget a0 k) ∧
  (∀ k v, lo ≤ k < lt → zget a k = Some v → v < pivot) ∧
  (∀ k v, lt ≤ k < i → zget a k = Some v → v = pivot) ∧
  (∀ k v, gt < k ≤ hi → zget a k = Some v → pivot < v) ∧
  (∃ p, lt ≤ p ≤ gt ∧ zget a p = Some pivot).

(** * Proofs *)

(** ** The order on ids *)

Section string_order.

Lemma compare_as_OT (a b : string) :
  String.compare a b = String_as_OT.compare a b.
Proof.
  revert b. induction a as [|x a IH]; intros [|y b]; simpl;
    rewrite ?IH; done.
Qed.

Lemma ltb_lt (a b : string) : String.ltb a b = true ↔ String_as_OT.lt a b.
Proof.
  unfold String.ltb, String_as_OT.lt. rewrite compare_as_OT.
  destruct (String_as_OT.compare a b); split; congruence.
Qed.

Lemma ltb_irrefl (a : string) : String.ltb a a = false.
Proof.
  apply not_true_is_false. rewrite ltb_lt.
  apply (StrictOrder_Irreflexive (R := String_as_OT.lt)).
Qed.

Lemma ltb_trans (a b c : string) :
  String.ltb a b = true → String.ltb b c = true → String.ltb a c = true.
Proof.
  rewrite !ltb_lt. apply (StrictOrder_Transitive (R := String_as_OT.lt)).
Qed.

Lemma ltb_total (a b : string) :
  a ≠ b → String.ltb a b = true ∨ String.ltb b a = true.
Proof.
  intros Hne. rewrite !ltb_lt.
  destruct (String_as_OT.compare_spec a b) as [Heq|Hlt|Hgt]; auto.
  by destruct Hne.
Qed.

End string_order.

(** ** The comparator is a strict total order *)

Section comparator.

Implicit Types a b c : Task.

Lemma hp_unfold a b :
  _higher_priority a b = true ↔
  priority b < priority a ∨
  (priority a = priority b ∧
   (arrival_time a < arrival_time b ∨
    (arrival_time a = arrival_time b ∧
     String.ltb (task_id a) (task_id b) = true))).
Proof.
  unfold _higher_priority.
  destruct (Z.eqb_spec (priority a) (priority b)) as [Hp|Hp]; simpl.
  - destruct (Z.eqb_spec (arrival_time a) (arrival_time b)) as [Ha|Ha]; simpl.
    + split; [intros; right; auto | intros [?|[_ [?|[_ ?]]]]; auto; lia].
    + rewrite Z.ltb_lt. split; [intros; right; auto | ].
      intros [?|[_ [?|[? _]]]]; auto; lia.
  - rewrite Z.gtb_gt. split; [intros; left; lia | ].
    intros [?|[? _]]; lia.
Qed.

Lemma hp_irrefl a : _higher_priority a a = false.
Proof.
  apply not_true_is_false. rewrite hp_unfold, ltb_irrefl.
  intros [?|[_ [?|[_ ?]]]]; try lia; done.
Qed.

Lemma hp_trans a b c :
  _higher_priority a b = true → _higher_priority b c = true →
  _higher_priority a c = true.
Proof.
  rewrite !hp_unfold.
  intros [?|[? [?|[? Hab]]]] [?|[? [?|[? Hbc]]]]; try (left; lia);
    try (right; split; [lia|left; lia]).
  right; split; [lia|]. right; split; [lia|]. eapply ltb_trans; eauto.
Qed.

Lemma hp_asym a b :
  _higher_priority a b = true → _higher_priority b a = false.
Proof.
  intros Hab. apply not_true_is_false. intros Hba.
  pose proof (hp_trans _ _ _ Hab Hba) as Haa.
  rewrite hp_irrefl in Haa. done.
Qed.

Lemma hp_total a b :
  task_id a ≠ task_id b →
  _higher_priority a b = true ∨ _higher_priority b a = true.
Proof.
  intros Hne. rewrite !hp_unfold.
  destruct (Z.lt_trichotomy (priority a) (priority b)) as [?|[?|?]];
    [right; left; lia| |left; left; lia].
  destruct (Z.lt_trichotomy (arrival_time a) (arrival_time b)) as [?|[?|?]];
    [left; right; split; [lia|left; lia]| |
     right; right; split; [lia|left; lia]].
  destruct (ltb_total _ _ Hne);
    [left|right]; right; (split; [lia|]); right; (split; [lia|]); done.
Qed.

Lemma hp_not a b :
  task_id a ≠ task_id b →
  _higher_priority a b = false → _higher_priority b a = true.
Proof. intros Hne Hab. destruct (hp_total a b Hne); congruence. Qed.

(** Raising the priority of [a] keeps it above what it was above;
    lowering it keeps it below what it was below. *)
Lemma hp_raise a b p :
  priority a ≤ p → _higher_priority a b = true →
  _higher_priority (set_priority a p) b = true.
Proof.
  rewrite !hp_unfold. simpl.
  intros Hp [?|[? [?|[? H]]]].
  - left; lia.
  - destruct (decide (p = priority b)); [right|left; lia].
    split; [done|]. left; done.
  - destruct (decide (p = priority b)); [right|left; lia].
    split; [done|]. right; done.
Qed.

Lemma hp_lower a b p :
  p ≤ priority a → _higher_priority b a = true →
  _higher_priority b (set_priority a p) = true.
Proof.
  rewrite !hp_unfold. simpl.
  intros Hp [?|[? [?|[? H]]]].
  - left; lia.
  - destruct (decide (p = priority b)); [right|left; lia].
    split; [done|]. left; done.
  - destruct (decide (p = priority b)); [right|left; lia].
    split; [done|]. right; done.
Qed.

End comparator.

(** C6. On tasks, [_higher_priority] (priority descending, then arrival time
    ascending, then id ascending) is irreflexive, transitive and asymmetric,
    and of any two tasks with different ids exactly one is higher-priority
    than the other. *)
Theorem higher_priority_strict_total_order :
  (∀ a, _higher_priority a a = false) ∧
  (∀ a b c, _higher_priority a b = true → _higher_priority b c = true →
            _higher_priority a c = true) ∧
  (∀ a b, _higher_priority a b = true → _higher_priority b a = false) ∧
  (∀ a b, task_id a ≠ task_id b →
          (_higher_priority a b = true ∧ _higher_priority b a = false) ∨
          (_higher_priority a b = false ∧ _higher_priority b a = true)).
Proof.
  split; [exact hp_irrefl|]. split; [exact hp_trans|].
  split; [exact hp_asym|].
  intros a b Hne. destruct (hp_total a b Hne) as [H|H].
  - left. split; [done|]. by apply hp_asym.
  - right. split; [by apply hp_asym|done].
Qed.

(** ** Slots: parents, children, depth *)

Section slots.

Local Open Scope nat_scope.

Lemma parent_spec (c i : nat) : 0 < c → (parent c = i ↔ is_child i c).
Proof.
  intros Hc. unfold parent, is_child.
  pose proof (Nat.div_mod_eq (c - 1) 2) as Hdm.
  pose proof (Nat.mod_upper_bound (c - 1) 2) as Hub.
  lia.
Qed.

Lemma is_child_parent (i c : nat) : is_child i c → parent c = i ∧ i < c.
Proof.
  intros H. assert (0 < c) as Hc by (unfold is_child in H; lia).
  split; [by apply parent_spec|]. unfold is_child in H; lia.
Qed.

Lemma parent_lt (c : nat) : 0 < c → parent c < c.
Proof.
  intros Hc. assert (is_child (parent c) c) as H by by apply parent_spec.
  by apply is_child_parent in H as [_ ?].
Qed.

Lemma depth_aux_fuel (fuel fuel' i : nat) :
  i ≤ fuel → i ≤ fuel' → depth_aux fuel i = depth_aux fuel' i.
Proof.
  revert fuel' i. induction fuel as [|fuel IH]; intros [|fuel'] i Hf Hf'; simpl.
  - done.
  - replace i with 0 by lia. done.
  - replace i with 0 by lia. done.
  - destruct (Nat.ltb_spec 0 i) as [Hi|Hi]; [|done].
    f_equal. apply IH; pose proof (parent_lt i Hi); lia.
Qed.

Lemma depth_0 : depth 0 = 0.
Proof. done. Qed.

Lemma depth_pos (i : nat) : 0 < i → depth i = S (depth (parent i)).
Proof.
  intros Hi. unfold depth. destruct i as [|i]; [lia|]. simpl.
  f_equal. apply depth_aux_fuel; [|done].
  pose proof (parent_lt (S i) Hi). lia.
Qed.

Lemma depth_child (i c : nat) : is_child i c → depth c = S (depth i).
Proof.
  intros H. destruct (is_child_parent _ _ H) as [Hp Hlt].
  rewrite depth_pos by lia. by rewrite Hp.
Qed.

End slots.

(** ** Running the primitives *)

Lemma bind_run {A B} (m : M A) (k : A → M B) (q q' : Queue) (a : A) :
  m q = (Ok a, q') → bind m k q = k a q'.
Proof. unfold bind. by intros ->. Qed.

Lemma bind_raise {A B} (m : M A) (k : A → M B) (q q' : Queue) (e : exn) :
  m q = (Raise e, q') → bind m k q = (Raise e, q').
Proof. unfold bind. by intros ->. Qed.

Lemma heap_get_run (h : list Task) (p : gmap string nat) (i : nat) (t : Task) :
  h !! i = Some t →
  heap_get i {| _heap := h; _pos := p |} = (Ok t, {| _heap := h; _pos := p |}).
Proof. unfold heap_get. cbn [_heap]. by intros ->. Qed.

Section swap.

Local Open Scope nat_scope.
Implicit Types (h : list Task) (p : gmap string nat).

Lemma swap_heap_lookup h i j ti tj k :
  h !! i = Some ti → h !! j = Some tj → i ≠ j →
  swap_heap h i j ti tj !! k =
    if decide (k = j) then Some ti
    else if decide (k = i) then Some tj else h !! k.
Proof.
  intros Hi Hj Hne. unfold swap_heap.
  apply lookup_lt_Some in Hi, Hj.
  destruct (decide (k = j)) as [->|Hkj].
  - rewrite list_lookup_insert_eq; [done|]. by rewrite length_insert.
  - rewrite list_lookup_insert_ne by done.
    destruct (decide (k = i)) as [->|Hki].
    + by rewrite list_lookup_insert_eq.
    + by rewrite list_lookup_insert_ne.
Qed.

Lemma swap_heap_length h i j ti tj :
  length (swap_heap h i j ti tj) = length h.
Proof. unfold swap_heap. by rewrite !length_insert. Qed.

Lemma swap_heap_perm h i j ti tj :
  h !! i = Some ti → h !! j = Some tj → i ≠ j →
  swap_heap h i j ti tj ≡ₚ h.
Proof.
  intros Hi Hj Hne.
  assert (i < length h) as Hil by by eapply lookup_lt_Some.
  assert (j < length h) as Hjl by by eapply lookup_lt_Some.
  set (f := λ k, if decide (k = j) then i else if decide (k = i) then j else k).
  assert (swap_heap h i j ti tj = (λ k, default ti (h !! f k)) <$> seq 0 (length h))
    as ->.
  { apply list_eq. intros k. rewrite swap_heap_lookup by done.
    rewrite list_lookup_fmap.
    destruct (decide (k < length h)) as [Hk|Hk].
    - rewrite lookup_seq_lt by done. simpl. unfold f.
      repeat case_decide; subst; rewrite ?Hi, ?Hj; try done.
      destruct (lookup_lt_is_Some_2 h k Hk) as [x ->]. done.
    - rewrite lookup_seq_ge by lia. simpl.
      repeat case_decide; subst; try lia.
      apply lookup_ge_None. lia. }
  assert ((λ k, default ti (h !! k)) <$> seq 0 (length h) = h) as Hh.
  { apply list_eq. intros k. rewrite list_lookup_fmap.
    destruct (decide (k < length h)) as [Hk|Hk].
    - rewrite lookup_seq_lt by done. simpl.
      destruct (lookup_lt_is_Some_2 h k Hk) as [x ->]. done.
    - rewrite lookup_seq_ge by lia. simpl. symmetry. apply lookup_ge_None. lia. }
  transitivity ((λ k, default ti (h !! k)) <$> seq 0 (length h));
    [|by rewrite Hh].
  change (λ k, default ti (h !! f k)) with ((λ k, default ti (h !! k)) ∘ f).
  rewrite list_fmap_compose. apply fmap_Permutation.
  apply NoDup_Permutation.
  - apply NoDup_fmap_2_strong; [|apply NoDup_seq].
    intros x y _ _. unfold f. repeat case_decide; subst; lia.
  - apply NoDup_seq.
  - intros x. rewrite list_elem_of_fmap. setoid_rewrite elem_of_seq.
    split.
    + intros (y & -> & Hy). unfold f. repeat case_decide; lia.
    + intros Hx. exists (f x). split; unfold f; repeat case_decide; subst; lia.
Qed.

Lemma swap_run h p i j ti tj :
  h !! i = Some ti → h !! j = Some tj → i ≠ j →
  _swap i j {| _heap := h; _pos := p |} =
    (Ok tt, {| _heap := swap_heap h i j ti tj;
               _pos := swap_pos p i j ti tj |}).
Proof.
  intros Hi Hj Hne.
  assert (i < length h) as Hil by by eapply lookup_lt_Some.
  assert (j < length h) as Hjl by by eapply lookup_lt_Some.
  unfold _swap, bind, heap_get, heap_set, pos_set. simpl.
  rewrite Hj. simpl. rewrite Hi. simpl.
  destruct (Nat.ltb_spec i (length h)); [simpl|lia].
  rewrite length_insert.
  destruct (Nat.ltb_spec j (length h)); [simpl|lia].
  fold (swap_heap h i j ti tj).
  rewrite swap_heap_lookup by done.
  rewrite decide_False by done. rewrite decide_True by done. simpl.
  rewrite swap_heap_lookup by done. rewrite decide_True by done.
  done.
Qed.

Lemma pos_ok_inj h p i j t u :
  pos_ok {| _heap := h; _pos := p |} →
  h !! i = Some t → h !! j = Some u → task_id t = task_id u → i = j.
Proof.
  intros Hok Hi Hj Hid.
  assert (p !! task_id t = Some i) as H1 by (apply Hok; eauto).
  assert (p !! task_id t = Some j) as H2 by (apply Hok; eauto).
  congruence.
Qed.

Lemma swap_pos_ok h p i j ti tj :
  pos_ok {| _heap := h; _pos := p |} →
  h !! i = Some ti → h !! j = Some tj → i ≠ j →
  pos_ok {| _heap := swap_heap h i j ti tj; _pos := swap_pos p i j ti tj |}.
Proof.
  intros Hok Hi Hj Hne id k. simpl.
  assert (task_id ti ≠ task_id tj) as Hids.
  { intros E. apply Hne. eapply pos_ok_inj; eauto. }
  rewrite swap_heap_lookup by done. unfold swap_pos.
  split.
  - intros Hlk.
    destruct (decide (task_id ti = id)) as [<-|Hn1].
    { rewrite lookup_insert_eq in Hlk. injection Hlk as <-.
      rewrite decide_True by done. eauto. }
    rewrite lookup_insert_ne in Hlk by done.
    destruct (decide (task_id tj = id)) as [<-|Hn2].
    { rewrite lookup_insert_eq in Hlk. injection Hlk as <-.
      rewrite decide_False by done. rewrite decide_True by done. eauto. }
    rewrite lookup_insert_ne in Hlk by done.
    apply Hok in Hlk as (t & Hk & Ht). simpl in Hk.
    rewrite decide_False by (intros ->; congruence).
    rewrite decide_False by (intros ->; congruence). eauto.
  - intros (t & Hk & Ht).
    destruct (decide (k = j)) as [->|Hkj].
    { injection Hk as <-. subst id. by rewrite lookup_insert_eq. }
    destruct (decide (k = i)) as [->|Hki].
    { injection Hk as <-. subst id.
      rewrite lookup_insert_ne by done. by rewrite lookup_insert_eq. }
    assert (task_id ti ≠ id) as Hn1.
    { intros E. apply Hki. subst id. eapply pos_ok_inj; eauto. }
    assert (task_id tj ≠ id) as Hn2.
    { intros E. apply Hkj. subst id. eapply pos_ok_inj; eauto. }
    rewrite !lookup_insert_ne by done. apply Hok. eauto.
Qed.

End swap.

(** ** [_sift_up] *)

Section sift_up.

Local Open Scope nat_scope.
Implicit Types (h : list Task) (p : gmap string nat).

Lemma sift_up_loop_fuel (fuel fuel' idx : nat) (q : Queue) :
  idx ≤ fuel → idx ≤ fuel' →
  sift_up_loop fuel idx q = sift_up_loop fuel' idx q.
Proof.
  revert fuel' idx q.
  induction fuel as [|fuel IH]; intros [|fuel'] idx q Hf Hf';
    cbn [sift_up_loop]; try done.
  - replace idx with 0 by lia. done.
  - replace idx with 0 by lia. done.
  - change ((idx - 1) / 2) with (parent idx).
    destruct (Nat.ltb_spec 0 idx) as [Hi|Hi]; [|done].
    pose proof (parent_lt idx Hi) as Hp.
    unfold bind. destruct (heap_get idx q) as [[a|e] q1]. 2:{ done. }
    destruct (heap_get (parent idx) q1) as [[b|e] q2]; [|done].
    destruct (_higher_priority a b); [|done].
    destruct (_swap idx (parent idx) q2) as [[[]|e] q3]; [|done].
    apply IH; lia.
Qed.

(** The loop equation of the source's [while idx > 0]. *)
Lemma sift_up_eq (idx : nat) (q : Queue) :
  _sift_up idx q =
    (if 0 <? idx then
       a <- heap_get idx ;;
       b <- heap_get (parent idx) ;;
       if _higher_priority a b
       then (_swap idx (parent idx) ;;; _sift_up (parent idx))
       else ret tt
     else ret tt) q.
Proof.
  unfold _sift_up. destruct idx as [|idx]; [done|].
  cbn [sift_up_loop]. change ((S idx - 1) / 2) with (parent (S idx)).
  replace (0 <? S idx) with true by done.
  assert (parent (S idx) < S idx) as Hp by (apply parent_lt; lia).
  unfold bind. destruct (heap_get (S idx) q) as [[a|e] q1]; [|done].
  destruct (heap_get (parent (S idx)) q1) as [[b|e] q2]; [|done].
  destruct (_higher_priority a b); [|done].
  destruct (_swap (S idx) (parent (S idx)) q2) as [[[]|e] q3]; [|done].
  apply sift_up_loop_fuel; lia.
Qed.

Lemma up_inv_root h : up_inv h 0 → heap_ordered h.
Proof.
  intros [Ha _] i c t u Hc. apply Ha; [done|].
  apply is_child_parent in Hc. lia.
Qed.

Lemma heap_ordered_up_inv h idx : heap_ordered h → up_inv h idx.
Proof.
  intros Ho. split.
  - intros i c t u Hc _. by apply Ho.
  - intros c t u Hidx Hc Ht Hu.
    assert (is_child (parent idx) idx) as Hpc by by apply parent_spec.
    destruct (lookup_lt_is_Some_2 h idx) as [x Hx].
    { apply lookup_lt_Some in Hu. apply is_child_parent in Hc. lia. }
    eapply hp_trans; [eapply (Ho _ _ _ _ Hpc)|eapply (Ho _ _ _ _ Hc)]; eauto.
Qed.

Lemma up_inv_done h p idx a b :
  pos_ok {| _heap := h; _pos := p |} →
  0 < idx → up_inv h idx →
  h !! idx = Some a → h !! parent idx = Some b →
  _higher_priority a b = false → heap_ordered h.
Proof.
  intros Hok Hidx [Ha _] Hi Hp Hab i c t u Hc Ht Hu.
  destruct (decide (c = idx)) as [->|Hne]; [|by eapply Ha].
  apply is_child_parent in Hc as [Hc Hlt]. subst i.
  assert (t = b) by congruence. assert (u = a) by congruence. subst.
  apply hp_not; [|done]. intros E.
  assert (idx = parent idx) by (eapply pos_ok_inj; eauto). lia.
Qed.

Lemma up_inv_swap h idx a b :
  0 < idx → up_inv h idx →
  h !! idx = Some a → h !! parent idx = Some b →
  _higher_priority a b = true →
  up_inv (swap_heap h idx (parent idx) a b) (parent idx).
Proof.
  intros Hidx [Ha Hb] Hi Hp Hab.
  pose proof (parent_lt idx Hidx) as Hlt.
  assert (is_child (parent idx) idx) as Hpc by by apply parent_spec.
  split.
  - intros i c t u Hc Hcp.
    rewrite !swap_heap_lookup by (done || lia).
    destruct (is_child_parent _ _ Hc) as [Hpi Hic].
    rewrite (decide_False (P := c = parent idx)) by done.
    destruct (decide (i = parent idx)) as [->|Hip].
    + intros [= <-]. destruct (decide (c = idx)) as [->|Hci].
      * intros [= <-]. done.
      * intros Hu. eapply hp_trans; [exact Hab|].
        eapply (Ha _ _ _ _ Hc); eauto.
    + destruct (decide (i = idx)) as [->|Hii].
      * intros [= <-]. rewrite decide_False by lia.
        intros Hu. eapply Hb; eauto.
      * rewrite decide_False by (intros ->; congruence).
        intros Ht Hu. eapply (Ha _ _ _ _ Hc); eauto. congruence.
  - intros c t u Hpar Hc.
    pose proof (parent_lt _ Hpar) as Hlt2.
    assert (is_child (parent (parent idx)) (parent idx)) as Hgc
      by by apply parent_spec.
    rewrite !swap_heap_lookup by (done || lia).
    destruct (is_child_parent _ _ Hc) as [Hpi Hic].
    rewrite (decide_False (P := parent (parent idx) = parent idx)) by lia.
    rewrite (decide_False (P := parent (parent idx) = idx)) by lia.
    rewrite (decide_False (P := c = parent idx)) by lia.
    intros Ht. destruct (decide (c = idx)) as [->|Hci].
    + intros [= <-]. eapply (Ha _ _ _ _ Hgc); eauto. lia.
    + intros Hu. eapply hp_trans.
      * eapply (Ha _ _ _ _ Hgc); eauto. lia.
      * eapply (Ha _ _ _ _ Hc); eauto.
Qed.

Lemma sift_up_loop_spec (fuel : nat) : ∀ idx h p t,
  idx ≤ fuel →
  pos_ok {| _heap := h; _pos := p |} → up_inv h idx → h !! idx = Some t →
  ∃ h' p' k,
    sift_up_loop fuel idx {| _heap := h; _pos := p |} =
      (Ok tt, {| _heap := h'; _pos := p' |}) ∧
    pos_ok {| _heap := h'; _pos := p' |} ∧ heap_ordered h' ∧ h' ≡ₚ h ∧
    h' !! k = Some t ∧ depth k ≤ depth idx.
Proof.
  induction fuel as [|fuel IH]; intros idx h p t Hf Hok Hinv Ht.
  { assert (idx = 0) as -> by lia. exists h, p, 0. simpl.
    split_and!; auto using up_inv_root. }
  cbn [sift_up_loop]. change ((idx - 1) / 2) with (parent idx).
  destruct (Nat.ltb_spec 0 idx) as [Hidx|Hidx].
  2:{ assert (idx = 0) as -> by lia. exists h, p, 0.
      split_and!; auto using up_inv_root. }
  pose proof (parent_lt idx Hidx) as Hlt.
  destruct (lookup_lt_is_Some_2 h (parent idx)) as [b Hb].
  { apply lookup_lt_Some in Ht. lia. }
  rewrite (bind_run _ _ _ _ _ (heap_get_run _ p _ _ Ht)).
  rewrite (bind_run _ _ _ _ _ (heap_get_run _ p _ _ Hb)).
  destruct (_higher_priority t b) eqn:Hab.
  - rewrite (bind_run _ _ _ _ _
               (swap_run h p idx (parent idx) t b Ht Hb ltac:(lia))).
    destruct (IH (parent idx) (swap_heap h idx (parent idx) t b)
                (swap_pos p idx (parent idx) t b) t)
      as (h' & p' & k & Hrun & Hok' & Hord & Hperm & Hk & Hd).
    + lia.
    + apply swap_pos_ok; (done || lia).
    + by apply up_inv_swap.
    + rewrite swap_heap_lookup by (done || lia). by rewrite decide_True.
    + exists h', p', k. split_and!; try done.
      * rewrite Hperm. apply swap_heap_perm; (done || lia).
      * rewrite (depth_pos idx) by done. lia.
  - exists h, p, idx. split_and!; try done.
    eapply up_inv_done; eauto.
Qed.

Lemma sift_up_spec idx h p t :
  pos_ok {| _heap := h; _pos := p |} → up_inv h idx → h !! idx = Some t →
  ∃ h' p' k,
    _sift_up idx {| _heap := h; _pos := p |} =
      (Ok tt, {| _heap := h'; _pos := p' |}) ∧
    pos_ok {| _heap := h'; _pos := p' |} ∧ heap_ordered h' ∧ h' ≡ₚ h ∧
    h' !! k = Some t ∧ depth k ≤ depth idx.
Proof. apply sift_up_loop_spec. done. Qed.

End sift_up.

(** ** [_sift_down] *)

Section sift_down.

Local Open Scope nat_scope.
Implicit Types (h : list Task) (p : gmap string nat).

Lemma sift_down_loop_fuel (fuel fuel' n idx : nat) (q : Queue) :
  n ≤ fuel + idx → n ≤ fuel' + idx →
  sift_down_loop fuel n idx q = sift_down_loop fuel' n idx q.
Proof.
  revert fuel' idx q.
  induction fuel as [|fuel IH]; intros [|fuel'] idx q Hf Hf';
    cbn [sift_down_loop]; try done.
  - destruct (Nat.leb_spec n (2 * idx + 1)); [done|lia].
  - destruct (Nat.leb_spec n (2 * idx + 1)); [done|lia].
  - destruct (Nat.leb_spec n (2 * idx + 1)) as [|Hn]; [done|].
    unfold bind.
    destruct (2 * idx + 1 + 1 <? n).
    + destruct (heap_get (2 * idx + 1 + 1) q) as [[r|e] q1]; [|done].
      destruct (heap_get (2 * idx + 1) q1) as [[l|e] q2]; [|done].
      unfold ret.
      destruct (_higher_priority r l).
      * destruct (heap_get (2 * idx + 1 + 1) q2) as [[b|e] q3]; [|done].
        destruct (heap_get idx q3) as [[c|e] q4]; [|done].
        destruct (_higher_priority b c); [|done].
        destruct (_swap idx (2 * idx + 1 + 1) q4) as [[[]|e] q5]; [|done].
        apply IH; lia.
      * destruct (heap_get (2 * idx + 1) q2) as [[b|e] q3]; [|done].
        destruct (heap_get idx q3) as [[c|e] q4]; [|done].
        destruct (_higher_priority b c); [|done].
        destruct (_swap idx (2 * idx + 1) q4) as [[[]|e] q5]; [|done].
        apply IH; lia.
    + unfold ret.
      destruct (heap_get (2 * idx + 1) q) as [[b|e] q3]; [|done].
      destruct (heap_get idx q3) as [[c|e] q4]; [|done].
      destruct (_higher_priority b c); [|done].
      destruct (_swap idx (2 * idx + 1) q4) as [[[]|e] q5]; [|done].
      apply IH; lia.
Qed.

(** The loop equation of the source's [while True], for the loop started
    with [n - idx] rounds. *)
Lemma sift_down_eq (n idx : nat) (q : Queue) :
  sift_down_loop (n - idx) n idx q =
    (let left := 2 * idx + 1 in
     if n <=? left then ret tt
     else
       let right := left + 1 in
       best <- (if right <? n
                then (r <- heap_get right ;;
                      l <- heap_get left ;;
                      ret (if _higher_priority r l then right else left))
                else ret left) ;;
       b <- heap_get best ;;
       c <- heap_get idx ;;
       if _higher_priority b c
       then (_swap idx best ;;; sift_down_loop (n - best) n best)
       else ret tt) q.
Proof.
  cbn zeta.
  destruct (Nat.leb_spec n (2 * idx + 1)) as [Hn|Hn].
  { destruct (n - idx); cbn [sift_down_loop]; [done|].
    destruct (Nat.leb_spec n (2 * idx + 1)); [done|lia]. }
  destruct (n - idx) as [|fuel] eqn:Hfuel; [lia|].
  cbn [sift_down_loop].
  destruct (Nat.leb_spec n (2 * idx + 1)) as [|_]; [lia|].
  unfold bind.
  destruct (2 * idx + 1 + 1 <? n).
  - destruct (heap_get (2 * idx + 1 + 1) q) as [[r|e] q1]; [|done].
    destruct (heap_get (2 * idx + 1) q1) as [[l|e] q2]; [|done].
    unfold ret.
    destruct (_higher_priority r l).
    + destruct (heap_get (2 * idx + 1 + 1) q2) as [[b|e] q3]; [|done].
      destruct (heap_get idx q3) as [[c|e] q4]; [|done].
      destruct (_higher_priority b c); [|done].
      destruct (_swap idx (2 * idx + 1 + 1) q4) as [[[]|e] q5]; [|done].
      apply sift_down_loop_fuel; lia.
    + destruct (heap_get (2 * idx + 1) q2) as [[b|e] q3]; [|done].
      destruct (heap_get idx q3) as [[c|e] q4]; [|done].
      destruct (_higher_priority b c); [|done].
      destruct (_swap idx (2 * idx + 1) q4) as [[[]|e] q5]; [|done].
      apply sift_down_loop_fuel; lia.
  - unfold ret.
    destruct (heap_get (2 * idx + 1) q) as [[b|e] q3]; [|done].
    destruct (heap_get idx q3) as [[c|e] q4]; [|done].
    destruct (_higher_priority b c); [|done].
    destruct (_swap idx (2 * idx + 1) q4) as [[[]|e] q5]; [|done].
    apply sift_down_loop_fuel; lia.
Qed.

Lemma heap_ordered_down_inv h idx : heap_ordered h → down_inv h idx.
Proof.
  intros Ho. split.
  - intros i c t u Hc _. by apply Ho.
  - intros c t u Hidx Hc Ht Hu.
    assert (is_child (parent idx) idx) as Hpc by by apply parent_spec.
    destruct (lookup_lt_is_Some_2 h idx) as [x Hx].
    { apply lookup_lt_Some in Hu. apply is_child_parent in Hc. lia. }
    eapply hp_trans; [eapply (Ho _ _ _ _ Hpc)|eapply (Ho _ _ _ _ Hc)]; eauto.
Qed.

Lemma down_inv_leaf h idx :
  length h ≤ 2 * idx + 1 → down_inv h idx → heap_ordered h.
Proof.
  intros Hn [Ha _] i c t u Hc Ht Hu.
  eapply (Ha _ _ _ _ Hc); eauto. intros ->.
  apply lookup_lt_Some in Hu. unfold is_child in Hc. lia.
Qed.

Lemma down_inv_done h p idx best tb cur :
  pos_ok {| _heap := h; _pos := p |} →
  down_inv h idx → best_child h idx best tb → h !! idx = Some cur →
  _higher_priority tb cur = false → heap_ordered h.
Proof.
  intros Hok [Ha _] (Hbc & Hb & Hbest) Hcur Hno i c t u Hc Ht Hu.
  destruct (decide (i = idx)) as [->|Hne]; [|by eapply Ha].
  assert (t = cur) by congruence. subst t.
  assert (_higher_priority cur tb = true) as Hcb.
  { apply hp_not; [|done]. intros E.
    assert (best = idx) by (eapply pos_ok_inj; eauto).
    apply is_child_parent in Hbc. lia. }
  destruct (decide (c = best)) as [->|Hcb'].
  - congruence.
  - eapply hp_trans; [exact Hcb|]. eapply Hbest; eauto.
Qed.

Lemma down_inv_swap h idx best tb cur :
  down_inv h idx → best_child h idx best tb → h !! idx = Some cur →
  _higher_priority tb cur = true →
  down_inv (swap_heap h idx best cur tb) best.
Proof.
  intros [Ha Hb] (Hbc & Hbt & Hbest) Hcur Hyes.
  destruct (is_child_parent _ _ Hbc) as [Hpb Hlt].
  split.
  - intros i c t u Hc Hib.
    rewrite !swap_heap_lookup by (done || lia).
    destruct (is_child_parent _ _ Hc) as [Hpi Hic].
    rewrite (decide_False (P := i = best)) by done.
    destruct (decide (i = idx)) as [->|Hii].
    + intros [= <-]. destruct (decide (c = best)) as [->|Hcb].
      * intros [= <-]. done.
      * rewrite decide_False by lia. intros Hu. eapply Hbest; eauto.
    + intros Ht. destruct (decide (c = best)) as [->|Hcb]; [lia|].
      destruct (decide (c = idx)) as [->|Hci].
      * intros [= <-]. eapply Hb; eauto; [lia|congruence].
      * intros Hu. eapply (Ha _ _ _ _ Hc); eauto.
  - intros c t u _ Hc.
    rewrite !swap_heap_lookup by (done || lia).
    destruct (is_child_parent _ _ Hc) as [Hpi Hic].
    rewrite Hpb.
    rewrite (decide_False (P := idx = best)) by lia.
    rewrite (decide_True (P := idx = idx)) by done.
    rewrite (decide_False (P := c = best)) by lia.
    rewrite (decide_False (P := c = idx)) by lia.
    intros [= <-] Hu. eapply (Ha _ _ _ _ Hc); eauto. lia.
Qed.

(** The child selection of one round. *)
Lemma select_best h p idx :
  pos_ok {| _heap := h; _pos := p |} →
  2 * idx + 1 < length h →
  ∃ best tb,
    (if 2 * idx + 1 + 1 <? length h
     then (r <- heap_get (2 * idx + 1 + 1) ;;
           l <- heap_get (2 * idx + 1) ;;
           ret (if _higher_priority r l then 2 * idx + 1 + 1
                else 2 * idx + 1))
     else ret (2 * idx + 1)) {| _heap := h; _pos := p |} =
      (Ok best, {| _heap := h; _pos := p |}) ∧
    best_child h idx best tb.
Proof.
  intros Hok Hn.
  destruct (lookup_lt_is_Some_2 h (2 * idx + 1) Hn) as [l Hl].
  destruct (Nat.ltb_spec (2 * idx + 1 + 1) (length h)) as [Hr|Hr].
  - destruct (lookup_lt_is_Some_2 h (2 * idx + 1 + 1) Hr) as [r Hrr].
    rewrite (bind_run _ _ _ _ _ (heap_get_run _ p _ _ Hrr)).
    rewrite (bind_run _ _ _ _ _ (heap_get_run _ p _ _ Hl)). unfold ret.
    destruct (_higher_priority r l) eqn:Hrl.
    + exists (2 * idx + 1 + 1), r. split; [done|].
      split; [right; lia|]. split; [done|].
      intros c u [->| ->] Hne Hu; [|lia]. congruence.
    + exists (2 * idx + 1), l. split; [done|].
      split; [left; lia|]. split; [done|].
      intros c u [->| ->] Hne Hu; [lia|].
      replace (2 * idx + 2) with (2 * idx + 1 + 1) in Hu by lia.
      assert (u = r) by congruence. subst u.
      apply hp_not; [|done]. intros E.
      assert (2 * idx + 1 + 1 = 2 * idx + 1)
        by (eapply pos_ok_inj; eauto). lia.
  - exists (2 * idx + 1), l. split; [done|].
    split; [left; lia|]. split; [done|].
    intros c u [->| ->] Hne Hu; [lia|].
    apply lookup_lt_Some in Hu. lia.
Qed.

Lemma sift_down_loop_spec (fuel : nat) : ∀ idx h p t,
  length h ≤ fuel + idx →
  pos_ok {| _heap := h; _pos := p |} → down_inv h idx → h !! idx = Some t →
  ∃ h' p' k,
    sift_down_loop fuel (length h) idx {| _heap := h; _pos := p |} =
      (Ok tt, {| _heap := h'; _pos := p' |}) ∧
    pos_ok {| _heap := h'; _pos := p' |} ∧ heap_ordered h' ∧ h' ≡ₚ h ∧
    h' !! k = Some t ∧ depth idx ≤ depth k.
Proof.
  induction fuel as [|fuel IH]; intros idx h p t Hf Hok Hinv Ht.
  { apply lookup_lt_Some in Ht. lia. }
  cbn [sift_down_loop]. cbn zeta.
  destruct (Nat.leb_spec (length h) (2 * idx + 1)) as [Hn|Hn].
  { exists h, p, idx. split_and!; try done. by eapply down_inv_leaf. }
  destruct (select_best h p idx Hok Hn) as (best & tb & Hsel & Hbest).
  rewrite (bind_run _ _ _ _ _ Hsel).
  destruct Hbest as (Hbc & Hbt & Hoth).
  rewrite (bind_run _ _ _ _ _ (heap_get_run _ p _ _ Hbt)).
  rewrite (bind_run _ _ _ _ _ (heap_get_run _ p _ _ Ht)).
  destruct (is_child_parent _ _ Hbc) as [Hpb Hlt].
  destruct (_higher_priority tb t) eqn:Hyes.
  - rewrite (bind_run _ _ _ _ _ (swap_run h p idx best t tb Ht Hbt ltac:(lia))).
    destruct (IH best (swap_heap h idx best t tb)
                (swap_pos p idx best t tb) t)
      as (h' & p' & k & Hrun & Hok' & Hord & Hperm & Hk & Hd).
    + rewrite swap_heap_length. lia.
    + apply swap_pos_ok; (done || lia).
    + apply down_inv_swap; try done; by split_and!.
    + rewrite swap_heap_lookup by (done || lia). by rewrite decide_True.
    + rewrite swap_heap_length in Hrun.
      exists h', p', k. split_and!; try done.
      * rewrite Hperm. apply swap_heap_perm; (done || lia).
      * rewrite (depth_child idx best) in Hd by done. lia.
  - exists h, p, idx. split_and!; try done.
    eapply down_inv_done; eauto; by split_and!.
Qed.

Lemma sift_down_spec idx h p t :
  pos_ok {| _heap := h; _pos := p |} → down_inv h idx → h !! idx = Some t →
  ∃ h' p' k,
    _sift_down idx {| _heap := h; _pos := p |} =
      (Ok tt, {| _heap := h'; _pos := p' |}) ∧
    pos_ok {| _heap := h'; _pos := p' |} ∧ heap_ordered h' ∧ h' ≡ₚ h ∧
    h' !! k = Some t ∧ depth idx ≤ depth k.
Proof.
  intros Hok Hinv Ht. unfold _sift_down, bind, heap_len. simpl.
  apply sift_down_loop_spec; try done.
  apply lookup_lt_Some in Ht. lia.
Qed.

End sift_down.

(** ** The public operations *)

Section operations.

Local Open Scope nat_scope.
Implicit Types (h : list Task) (p : gmap string nat) (q : Queue).

Lemma pos_ok_push h p t :
  pos_ok {| _heap := h; _pos := p |} → p !! task_id t = None →
  pos_ok {| _heap := h ++ [t]; _pos := <[task_id t:=length h]> p |}.
Proof.
  intros Hok Hnone id k. cbn [_heap _pos]. split.
  - intros Hlk. destruct (decide (task_id t = id)) as [<-|Hne].
    + rewrite lookup_insert_eq in Hlk. injection Hlk as <-.
      exists t. split; [|done]. by apply list_lookup_middle.
    + rewrite lookup_insert_ne in Hlk by done.
      apply Hok in Hlk as (u & Hu & Hid). cbn [_heap] in Hu.
      exists u. split; [|done]. by apply lookup_app_l_Some.
  - intros (u & Hu & Hid).
    destruct (decide (k < length h)) as [Hk|Hk].
    + rewrite lookup_app_l in Hu by done.
      assert (p !! id = Some k) as Hp by (apply Hok; eauto).
      rewrite lookup_insert_ne; [done|]. congruence.
    + pose proof (lookup_lt_Some _ _ _ Hu) as Hlt.
      rewrite length_app in Hlt. simpl in Hlt.
      assert (k = length h) as -> by lia.
      rewrite list_lookup_middle in Hu by done. injection Hu as <-.
      subst id. by rewrite lookup_insert_eq.
Qed.

Lemma pos_ok_pop h p t :
  pos_ok {| _heap := h ++ [t]; _pos := p |} →
  pos_ok {| _heap := h; _pos := delete (task_id t) p |}.
Proof.
  intros Hok id k. cbn [_heap _pos].
  assert ((h ++ [t]) !! length h = Some t) as Hlast
    by by apply list_lookup_middle.
  split.
  - intros Hlk. apply lookup_delete_Some in Hlk as [Hne Hlk].
    apply Hok in Hlk as (u & Hu & Hid). cbn [_heap] in Hu.
    destruct (decide (k < length h)) as [Hk|Hk].
    + rewrite lookup_app_l in Hu by done. eauto.
    + pose proof (lookup_lt_Some _ _ _ Hu) as Hlt.
      rewrite length_app in Hlt. simpl in Hlt.
      assert (k = length h) as -> by lia. congruence.
  - intros (u & Hu & Hid).
    pose proof (lookup_lt_Some _ _ _ Hu) as Hlt.
    assert ((h ++ [t]) !! k = Some u) as Hu' by by apply lookup_app_l_Some.
    apply lookup_delete_Some. split.
    + intros E. assert (k = length h); [|lia].
      eapply pos_ok_inj; eauto. congruence.
    + apply Hok. eauto.
Qed.

Lemma pos_ok_set_priority h p i t np :
  pos_ok {| _heap := h; _pos := p |} → h !! i = Some t →
  pos_ok {| _heap := <[i:=set_priority t np]> h; _pos := p |}.
Proof.
  intros Hok Hi id k. cbn [_heap _pos].
  pose proof (lookup_lt_Some _ _ _ Hi) as Hlt.
  rewrite (Hok id k). cbn [_heap].
  destruct (decide (k = i)) as [->|Hne].
  - rewrite list_lookup_insert_eq by done. split.
    + intros (u & Hu & Hid). exists (set_priority t np).
      split; [done|]. simpl. congruence.
    + intros (u & [= <-] & Hid). eauto.
  - by rewrite list_lookup_insert_ne.
Qed.

Lemma pos_ok_nil p : pos_ok {| _heap := []; _pos := p |} → p = ∅.
Proof.
  intros Hok. apply map_eq. intros id. rewrite lookup_empty.
  destruct (p !! id) as [k|] eqn:E; [|done].
  apply Hok in E as (t & Ht & _). done.
Qed.

Lemma pos_ok_NoDup q : pos_ok q → NoDup (task_id <$> _heap q).
Proof.
  destruct q as [h p]. intros Hok. cbn [_heap].
  apply NoDup_alt. intros i j id.
  rewrite !list_lookup_fmap.
  destruct (h !! i) as [t|] eqn:Hi; [|done].
  destruct (h !! j) as [u|] eqn:Hj; [|done].
  simpl. intros [= Ht] [= Hu]. eapply pos_ok_inj; eauto. congruence.
Qed.

Lemma pos_ok_dom q :
  pos_ok q → dom (_pos q) = list_to_set (task_id <$> _heap q).
Proof.
  intros Hok. apply set_eq. intros id.
  rewrite elem_of_dom, elem_of_list_to_set, list_elem_of_fmap. split.
  - intros [k Hk]. apply Hok in Hk as (t & Ht & Hid).
    exists t. split; [done|]. by eapply list_elem_of_lookup_2.
  - intros (t & -> & Hin). apply list_elem_of_lookup in Hin as [k Hk].
    exists k. apply Hok. eauto.
Qed.

Lemma pos_ok_resident q id :
  pos_ok q → (is_Some (_pos q !! id) ↔ ∃ t, resident q id t).
Proof.
  intros Hok. split.
  - intros [k Hk]. apply Hok in Hk as (t & Ht & Hid).
    exists t. split; [|done]. by eapply list_elem_of_lookup_2.
  - intros (t & Hin & Hid). apply list_elem_of_lookup in Hin as [k Hk].
    exists k. apply Hok. eauto.
Qed.

Lemma resident_unique q id t u :
  pos_ok q → resident q id t → resident q id u → t = u.
Proof.
  destruct q as [h p]. intros Hok [Ht Hidt] [Hu Hidu]. cbn [_heap] in *.
  apply list_elem_of_lookup in Ht as [i Hi].
  apply list_elem_of_lookup in Hu as [j Hj].
  assert (i = j) by (eapply pos_ok_inj; eauto; congruence). congruence.
Qed.

(** In an ordered heap the root dominates every other slot. *)
Lemma root_max h top :
  heap_ordered h → h !! 0 = Some top →
  ∀ i u, i ≠ 0 → h !! i = Some u → _higher_priority top u = true.
Proof.
  intros Ho Htop i. induction (lt_wf i) as [i _ IH]. intros u Hi Hu.
  assert (is_child (parent i) i) as Hc by (apply parent_spec; [lia|done]).
  destruct (is_child_parent _ _ Hc) as [_ Hlt].
  destruct (lookup_lt_is_Some_2 h (parent i)) as [v Hv].
  { apply lookup_lt_Some in Hu. lia. }
  pose proof (Ho _ _ _ _ Hc Hv Hu) as Hvu.
  destruct (decide (parent i = 0)) as [E|E].
  - rewrite E in Hv. congruence.
  - eapply hp_trans; [|exact Hvu]. eapply IH; eauto.
Qed.

Lemma wf_empty : wf empty_queue.
Proof.
  split.
  - intros id k. cbn. rewrite lookup_empty. split; [done|].
    by intros (t & Ht & _).
  - intros i c t u _ Ht. done.
Qed.

Lemma insert_raise q task :
  is_Some (_pos q !! task_id task) → insert task q = (Raise ValueError, q).
Proof.
  intros Hin. unfold insert, bind, pos_mem.
  by rewrite bool_decide_eq_true_2.
Qed.

Lemma insert_spec q task :
  wf q → _pos q !! task_id task = None →
  ∃ q', insert task q = (Ok tt, q') ∧ wf q' ∧
        _heap q' ≡ₚ task :: _heap q.
Proof.
  destruct q as [h p]. intros [Hok Hord] Hnone. cbn [_heap _pos] in *.
  unfold insert, bind at 1, pos_mem. cbn [_pos].
  rewrite bool_decide_eq_false_2 by (rewrite Hnone; by intros [? ?]).
  unfold bind at 1, heap_append. cbn [_heap _pos].
  unfold bind at 1, heap_len. cbn [_heap].
  unfold bind at 1, pos_set. cbn [_heap _pos].
  rewrite length_app. simpl length.
  replace (length h + 1 - 1) with (length h) by lia.
  destruct (sift_up_spec (length h) (h ++ [task])
              (<[task_id task:=length h]> p) task)
    as (h' & p' & k & Hrun & Hok' & Hord' & Hperm & _).
  - by apply pos_ok_push.
  - split.
    + intros i c t u Hc Hne Ht Hu.
      pose proof (lookup_lt_Some _ _ _ Hu) as Hlt.
      rewrite length_app in Hlt. simpl in Hlt.
      destruct (is_child_parent _ _ Hc) as [_ Hic].
      rewrite lookup_app_l in Ht, Hu by lia. eauto.
    + intros c t u _ Hc _ Hu.
      pose proof (lookup_lt_Some _ _ _ Hu) as Hlt.
      rewrite length_app in Hlt. simpl in Hlt.
      destruct (is_child_parent _ _ Hc) as [_ Hic]. lia.
  - by apply list_lookup_middle.
  - exists {| _heap := h'; _pos := p' |}. split; [done|].
    split; [by split|]. cbn [_heap]. rewrite Hperm.
    by rewrite Permutation_app_comm.
Qed.

Lemma extract_max_raise q :
  _heap q = [] → extract_max q = (Raise IndexError, q).
Proof.
  intros E. unfold extract_max, bind, is_empty, bind, heap_len, ret.
  by rewrite E.
Qed.

Lemma extract_max_spec q top rest :
  wf q → _heap q = top :: rest →
  ∃ q', extract_max q = (Ok top, q') ∧ wf q' ∧ _heap q' ≡ₚ rest ∧
        _pos q !! task_id top = Some 0 ∧
        (∀ i u, i ≠ 0 → _heap q !! i = Some u →
                _higher_priority top u = true).
Proof.
  destruct q as [h p]. intros [Hok Hord] E. cbn [_heap _pos] in *. subst h.
  assert (p !! task_id top = Some 0) as Hp0 by (apply Hok; eauto).
  assert (∀ i u, i ≠ 0 → (top :: rest) !! i = Some u →
                 _higher_priority top u = true) as Hmax
    by by apply root_max.
  unfold extract_max, bind at 1, is_empty, bind at 1, heap_len, ret.
  cbn [_heap length Nat.eqb].
  rewrite (bind_run _ _ _ _ _ (heap_get_run (top :: rest) p 0 top eq_refl)).
  destruct rest as [|lst rest' _] using rev_ind.
  - (* the queue held one task *)
    unfold bind at 1, heap_pop. cbn [_heap _pos last removelast].
    unfold bind at 1, pos_del. cbn [_heap _pos]. rewrite Hp0.
    unfold bind, heap_len, ret. cbn [_heap length Nat.ltb Nat.leb].
    eexists. split; [done|]. split_and!; try done.
    split; cbn [_heap _pos].
    + apply (pos_ok_pop [] p top) in Hok.
      apply pos_ok_nil in Hok as ->. exact (proj1 wf_empty).
    + intros i c t u _ Ht. done.
  - unfold bind at 1, heap_pop. cbn [_heap _pos].
    rewrite app_comm_cons, last_snoc, removelast_last.
    unfold bind at 1, pos_del. cbn [_heap _pos]. rewrite Hp0.
    unfold bind at 1, heap_len. cbn [_heap length Nat.ltb Nat.leb].
    unfold bind at 1, heap_set. cbn [_heap _pos length Nat.ltb Nat.leb].
    unfold bind at 1, pos_set. cbn [_heap _pos].
    change (<[0:=lst]> (top :: rest')) with (lst :: rest').
    assert ((top :: rest' ++ [lst]) !! (length (top :: rest')) = Some lst)
      as Hlast by (rewrite app_comm_cons; by apply list_lookup_middle).
    assert (0 ≠ length (top :: rest')) as Hne by (simpl; lia).
    assert (task_id top ≠ task_id lst) as Hids.
    { intros Hid. apply Hne. eapply pos_ok_inj; eauto. }
    assert (pos_ok {| _heap := lst :: rest';
                      _pos := <[task_id lst:=0]> (delete (task_id top) p) |})
      as Hok2.
    { pose proof (swap_pos_ok _ _ 0 (length (top :: rest')) top lst Hok
                    eq_refl Hlast Hne) as Hsw.
      unfold swap_heap, swap_pos in Hsw.
      replace (<[length (top :: rest'):=top]> (<[0:=lst]> (top :: rest' ++ [lst])))
        with ((lst :: rest') ++ [top]) in Hsw.
      2:{ simpl. f_equal.
          rewrite (insert_app_r_alt rest' [lst] (length rest')) by lia.
          by rewrite Nat.sub_diag. }
      apply pos_ok_pop in Hsw.
      rewrite delete_insert_eq in Hsw.
      rewrite delete_insert_ne in Hsw by done. done. }
    destruct (sift_down_spec 0 (lst :: rest')
                (<[task_id lst:=0]> (delete (task_id top) p)) lst)
      as (h' & p' & k & Hrun & Hok' & Hord' & Hperm & _); [done| |done|].
    + split; [|intros; lia].
      intros i c t u Hc Hi Ht Hu.
      destruct (is_child_parent _ _ Hc) as [_ Hic].
      destruct i as [|i]; [done|]. destruct c as [|c]; [lia|].
      cbn in Ht, Hu. apply (Hord (S i) (S c) t u Hc); cbn.
      * by apply lookup_app_l_Some.
      * by apply lookup_app_l_Some.
    + rewrite (bind_run _ _ _ _ _ Hrun). unfold ret.
      eexists. split; [done|]. split; [by split|]. cbn [_heap].
      split_and!; try done. rewrite Hperm.
      by rewrite Permutation_cons_append.
Qed.

Lemma peek_max_raise q :
  _heap q = [] → peek_max q = (Raise IndexError, q).
Proof.
  intros E. unfold peek_max, bind, is_empty, bind, heap_len, ret.
  by rewrite E.
Qed.

Lemma peek_max_spec q top rest :
  _heap q = top :: rest → peek_max q = (Ok top, q).
Proof.
  intros E. unfold peek_max, bind, is_empty, bind, heap_len, ret, heap_get.
  rewrite E. simpl. by rewrite E.
Qed.

End operations.

(** ** [increase_key] and [decrease_key] *)

Section key_mutation.

Local Open Scope nat_scope.
Implicit Types (h : list Task) (p : gmap string nat) (q : Queue).

Lemma increase_key_absent q id np :
  _pos q !! id = None → increase_key id np q = (Raise KeyError, q).
Proof.
  intros Hnone. unfold increase_key, bind, pos_mem.
  rewrite bool_decide_eq_false_2; [done|]. rewrite Hnone. by intros [? ?].
Qed.

Lemma decrease_key_absent q id np :
  _pos q !! id = None → decrease_key id np q = (Raise KeyError, q).
Proof.
  intros Hnone. unfold decrease_key, bind, pos_mem.
  rewrite bool_decide_eq_false_2; [done|]. rewrite Hnone. by intros [? ?].
Qed.

(** The common prefix of both methods: the id is present at slot [i],
    which holds [t]. *)
Local Ltac key_prefix Hp Hi :=
  unfold bind at 1, pos_mem; cbn [_pos];
  rewrite bool_decide_eq_true_2 by (rewrite Hp; eauto); cbn [negb];
  unfold bind at 1, pos_get; cbn [_pos]; rewrite Hp;
  rewrite (bind_run _ _ _ _ _ (heap_get_run _ _ _ _ Hi)).

Lemma increase_key_invalid q id np i t :
  _pos q !! id = Some i → _heap q !! i = Some t →
  (np < priority t)%Z → increase_key id np q = (Raise ValueError, q).
Proof.
  destruct q as [h p]. cbn [_heap _pos]. intros Hp Hi Hlt.
  unfold increase_key. key_prefix Hp Hi.
  by destruct (Z.ltb_spec np (priority t)); [|lia].
Qed.

Lemma decrease_key_invalid q id np i t :
  _pos q !! id = Some i → _heap q !! i = Some t →
  (priority t < np)%Z → decrease_key id np q = (Raise ValueError, q).
Proof.
  destruct q as [h p]. cbn [_heap _pos]. intros Hp Hi Hlt.
  unfold decrease_key. key_prefix Hp Hi.
  destruct (Z.gtb_spec np (priority t)); [done|lia].
Qed.

Lemma increase_key_spec q id np i t :
  wf q → _pos q !! id = Some i → _heap q !! i = Some t →
  (priority t ≤ np)%Z →
  ∃ q' k, increase_key id np q = (Ok tt, q') ∧ wf q' ∧
          _heap q' ≡ₚ <[i:=set_priority t np]> (_heap q) ∧
          _pos q' !! id = Some k ∧ depth k ≤ depth i.
Proof.
  destruct q as [h p]. cbn [_heap _pos]. intros [Hok Hord] Hp Hi Hle.
  cbn [_heap _pos] in *.
  pose proof (lookup_lt_Some _ _ _ Hi) as Hlt.
  assert (task_id t = id) as Hid.
  { apply Hok in Hp as (u & Hu & Hid). cbn [_heap] in Hu. congruence. }
  unfold increase_key. key_prefix Hp Hi.
  destruct (Z.ltb_spec np (priority t)); [lia|].
  rewrite (bind_run _ _ _ _ _ (heap_get_run h p i t Hi)).
  unfold bind at 1, heap_set. cbn [_heap _pos].
  destruct (Nat.ltb_spec i (length h)); [|lia].
  destruct (sift_up_spec i (<[i:=set_priority t np]> h) p
              (set_priority t np))
    as (h' & p' & k & Hrun & Hok' & Hord' & Hperm & Hk & Hd).
  - by apply pos_ok_set_priority.
  - pose proof (heap_ordered_up_inv h i Hord) as [_ Hb]. split.
    + intros j c u v Hc Hne.
      destruct (is_child_parent _ _ Hc) as [_ Hjc].
      rewrite (list_lookup_insert_ne h i c) by done.
      destruct (decide (j = i)) as [->|Hji].
      * rewrite list_lookup_insert_eq by done. intros [= <-] Hv.
        apply hp_raise; [done|]. eapply (Hord _ _ _ _ Hc); eauto.
      * rewrite list_lookup_insert_ne by done. eapply Hord; eauto.
    + intros c u v Hi0 Hc.
      destruct (is_child_parent _ _ Hc) as [_ Hjc].
      pose proof (parent_lt i Hi0).
      rewrite !list_lookup_insert_ne by lia. eapply Hb; eauto.
  - by apply list_lookup_insert_eq.
  - exists {| _heap := h'; _pos := p' |}, k.
    split; [done|]. split; [by split|]. cbn [_heap _pos].
    split_and!; try done. apply Hok'. eauto.
Qed.

Lemma decrease_key_spec q id np i t :
  wf q → _pos q !! id = Some i → _heap q !! i = Some t →
  (np ≤ priority t)%Z →
  ∃ q' k, decrease_key id np q = (Ok tt, q') ∧ wf q' ∧
          _heap q' ≡ₚ <[i:=set_priority t np]> (_heap q) ∧
          _pos q' !! id = Some k ∧ depth i ≤ depth k.
Proof.
  destruct q as [h p]. cbn [_heap _pos]. intros [Hok Hord] Hp Hi Hle.
  cbn [_heap _pos] in *.
  pose proof (lookup_lt_Some _ _ _ Hi) as Hlt.
  assert (task_id t = id) as Hid.
  { apply Hok in Hp as (u & Hu & Hid). cbn [_heap] in Hu. congruence. }
  unfold decrease_key. key_prefix Hp Hi.
  destruct (Z.gtb_spec np (priority t)); [lia|].
  rewrite (bind_run _ _ _ _ _ (heap_get_run h p i t Hi)).
  unfold bind at 1, heap_set. cbn [_heap _pos].
  destruct (Nat.ltb_spec i (length h)); [|lia].
  destruct (sift_down_spec i (<[i:=set_priority t np]> h) p
              (set_priority t np))
    as (h' & p' & k & Hrun & Hok' & Hord' & Hperm & Hk & Hd).
  - by apply pos_ok_set_priority.
  - pose proof (heap_ordered_down_inv h i Hord) as [_ Hb]. split.
    + intros j c u v Hc Hne.
      destruct (is_child_parent _ _ Hc) as [_ Hjc].
      rewrite (list_lookup_insert_ne h i j) by done.
      destruct (decide (c = i)) as [->|Hci].
      * rewrite list_lookup_insert_eq by done. intros Hu [= <-].
        apply hp_lower; [done|]. eapply (Hord _ _ _ _ Hc); eauto.
      * rewrite list_lookup_insert_ne by done. eapply Hord; eauto.
    + intros c u v Hi0 Hc.
      destruct (is_child_parent _ _ Hc) as [_ Hjc].
      pose proof (parent_lt i Hi0).
      rewrite !list_lookup_insert_ne by lia. eapply Hb; eauto.
  - by apply list_lookup_insert_eq.
  - exists {| _heap := h'; _pos := p' |}, k.
    split; [done|]. split; [by split|]. cbn [_heap _pos].
    split_and!; try done. apply Hok'. eauto.
Qed.

(** Every reachable state satisfies the representation invariant. *)
Lemma reachable_wf q : reachable q → wf q.
Proof.
  induction 1 as [|q task q' _ IH Hrun|q t q' _ IH Hrun|q t q' _ IH Hrun
                  |q id np q' _ IH Hrun|q id np q' _ IH Hrun].
  - apply wf_empty.
  - destruct (_pos q !! task_id task) as [k|] eqn:E.
    + rewrite insert_raise in Hrun by eauto. done.
    + destruct (insert_spec q task IH E) as (q2 & Hrun2 & Hwf & _).
      congruence.
  - destruct (_heap q) as [|top rest] eqn:E.
    + rewrite extract_max_raise in Hrun by done. done.
    + destruct (extract_max_spec q top rest IH E) as (q2 & Hrun2 & Hwf & _).
      congruence.
  - destruct (_heap q) as [|top rest] eqn:E.
    + rewrite peek_max_raise in Hrun by done. done.
    + rewrite (peek_max_spec q top rest E) in Hrun. congruence.
  - destruct (_pos q !! id) as [i|] eqn:E.
    2:{ rewrite increase_key_absent in Hrun by done. done. }
    destruct (proj1 (proj1 IH id i) E) as (t & Ht & Hid).
    destruct (Z.lt_ge_cases np (priority t)) as [Hlt|Hge].
    + rewrite (increase_key_invalid q id np i t) in Hrun by done. done.
    + destruct (increase_key_spec q id np i t IH E Ht Hge)
        as (q2 & k & Hrun2 & Hwf & _). congruence.
  - destruct (_pos q !! id) as [i|] eqn:E.
    2:{ rewrite decrease_key_absent in Hrun by done. done. }
    destruct (proj1 (proj1 IH id i) E) as (t & Ht & Hid).
    destruct (Z.lt_ge_cases (priority t) np) as [Hlt|Hge].
    + rewrite (decrease_key_invalid q id np i t) in Hrun by done. done.
    + destruct (decrease_key_spec q id np i t IH E Ht Hge)
        as (q2 & k & Hrun2 & Hwf & _). congruence.
Qed.

End key_mutation.

(** ** The queue's contract *)

Lemma reachable_insert_each (l : list Task) : ∀ q q',
  reachable q → insert_each l q = (Ok tt, q') → reachable q'.
Proof.
  induction l as [|task l IH]; intros q q' Hq Hrun; cbn [insert_each] in Hrun.
  - unfold ret in Hrun. congruence.
  - unfold bind in Hrun.
    destruct (insert task q) as [[[]|e] q1] eqn:E; [|done].
    eapply IH; [|exact Hrun]. eapply reach_insert; eauto.
Qed.

Lemma demo_queue_reachable : reachable demo_queue.
Proof.
  apply (reachable_insert_each demo_tasks empty_queue); [constructor|].
  vm_compute. reflexivity.
Qed.

(** C1. On a reachable, non-empty queue [extract_max] succeeds and returns
    the task of slot 0; that task is higher-priority than the task of every
    other slot; the heap store loses exactly that task, the position index
    loses exactly its id, and the size drops by one. *)
Theorem extract_max_returns_maximum (q : Queue) :
  reachable q → _heap q ≠ [] →
  ∃ top q',
    extract_max q = (Ok top, q') ∧
    _heap q !! 0%nat = Some top ∧
    (∀ i u, i ≠ 0%nat → _heap q !! i = Some u →
            _higher_priority top u = true) ∧
    _heap q ≡ₚ top :: _heap q' ∧
    dom (_pos q') = dom (_pos q) ∖ {[task_id top]} ∧
    S (length (_heap q')) = length (_heap q) ∧
    len q' = (Ok (length (_heap q) - 1)%nat, q').
Proof.
  intros Hq Hne. pose proof (reachable_wf q Hq) as Hwf.
  destruct (_heap q) as [|top rest] eqn:E; [done|].
  destruct (extract_max_spec q top rest Hwf E)
    as (q' & Hrun & Hwf' & Hperm & Hp0 & Hmax).
  exists top, q'. rewrite E in Hmax.
  assert (S (length (_heap q')) = length (top :: rest)) as Hlen
    by (by rewrite Hperm).
  split_and!; try done.
  - by rewrite Hperm.
  - rewrite (pos_ok_dom q) by apply Hwf.
    rewrite (pos_ok_dom q') by apply Hwf'.
    pose proof (pos_ok_NoDup q (proj1 Hwf)) as Hnd.
    rewrite E in Hnd |- *. rewrite fmap_cons in Hnd |- *.
    apply NoDup_cons in Hnd as [Hnin _].
    apply set_eq. intros x.
    rewrite elem_of_difference, !elem_of_list_to_set, elem_of_singleton,
      elem_of_cons, Hperm.
    split; [|tauto]. intros Hx. split; [tauto|]. congruence.
  - unfold len, heap_len. do 2 f_equal. simpl in Hlen. simpl. lia.
Qed.

Lemma extract_max_returns_maximum_witness :
  ∃ top q',
    extract_max demo_queue = (Ok top, q') ∧
    _heap demo_queue !! 0%nat = Some top ∧
    (∀ i u, i ≠ 0%nat → _heap demo_queue !! i = Some u →
            _higher_priority top u = true) ∧
    _heap demo_queue ≡ₚ top :: _heap q' ∧
    dom (_pos q') = dom (_pos demo_queue) ∖ {[task_id top]} ∧
    S (length (_heap q')) = length (_heap demo_queue) ∧
    len q' = (Ok (length (_heap demo_queue) - 1)%nat, q').
Proof.
  apply (extract_max_returns_maximum demo_queue).
  - exact demo_queue_reachable.
  - vm_compute. discriminate.
Defined.

(** C2. In every reachable state the position index mirrors the heap store:
    the id of the task in slot [i] is mapped to [i], every id of the index
    is mapped to a slot that holds the task of that id, and the keys of the
    index are exactly the resident ids. *)
Theorem heap_index_consistency (q : Queue) :
  reachable q →
  (∀ i t, _heap q !! i = Some t → _pos q !! task_id t = Some i) ∧
  (∀ id i, _pos q !! id = Some i →
           ∃ t, _heap q !! i = Some t ∧ task_id t = id) ∧
  dom (_pos q) = list_to_set (task_id <$> _heap q).
Proof.
  intros Hq. destruct (reachable_wf q Hq) as [Hok _]. split_and!.
  - intros i t Ht. apply Hok. eauto.
  - intros id i Hi. by apply Hok.
  - by apply pos_ok_dom.
Qed.

Lemma heap_index_consistency_witness :
  (∀ i t, _heap demo_queue !! i = Some t →
          _pos demo_queue !! task_id t = Some i) ∧
  (∀ id i, _pos demo_queue !! id = Some i →
           ∃ t, _heap demo_queue !! i = Some t ∧ task_id t = id) ∧
  dom (_pos demo_queue) = list_to_set (task_id <$> _heap demo_queue).
Proof.
  apply (heap_index_consistency demo_queue). exact demo_queue_reachable.
Defined.

(** C3. In every reachable state each parent is higher-priority than each
    of its children (slots [2i+1] and [2i+2]), so no child is
    higher-priority than its parent. *)
Theorem max_heap_order (q : Queue) :
  reachable q →
  ∀ i c t u, is_child i c → _heap q !! i = Some t → _heap q !! c = Some u →
             _higher_priority t u = true ∧ _higher_priority u t = false.
Proof.
  intros Hq i c t u Hc Ht Hu. destruct (reachable_wf q Hq) as [_ Hord].
  assert (_higher_priority t u = true) as H by (eapply Hord; eauto).
  split; [done|]. by apply hp_asym.
Qed.

Lemma max_heap_order_witness :
  _higher_priority (mkTask "B" 10 1 (Some 3) "") (mkTask "D" 10 2 (Some 5) "")
    = true ∧
  _higher_priority (mkTask "D" 10 2 (Some 5) "") (mkTask "B" 10 1 (Some 3) "")
    = false.
Proof.
  apply (max_heap_order demo_queue demo_queue_reachable 0%nat 1%nat).
  - left. reflexivity.
  - vm_compute. reflexivity.
  - vm_compute. reflexivity.
Defined.

(** C5. On a reachable queue each method fails exactly in its error case,
    with the exception the source raises ([ValueError] for a duplicate id
    and for an invalid new priority, [IndexError] for an empty queue,
    [KeyError] for an absent id), succeeds in every other case, and a failing
    call returns the state it was given. *)
Theorem failures_exact_and_atomic (q : Queue) :
  reachable q →
  (∀ task, (∃ u, resident q (task_id task) u) →
           insert task q = (Raise ValueError, q)) ∧
  (∀ task, (¬ ∃ u, resident q (task_id task) u) →
           ∃ q', insert task q = (Ok tt, q')) ∧
  (_heap q = [] →
   extract_max q = (Raise IndexError, q) ∧
   peek_max q = (Raise IndexError, q)) ∧
  (_heap q ≠ [] →
   ∃ t q', extract_max q = (Ok t, q') ∧ peek_max q = (Ok t, q)) ∧
  (∀ id np, (¬ ∃ u, resident q id u) →
            increase_key id np q = (Raise KeyError, q) ∧
            decrease_key id np q = (Raise KeyError, q)) ∧
  (∀ id np u, resident q id u →
     (np < priority u → increase_key id np q = (Raise ValueError, q)) ∧
     (priority u ≤ np → ∃ q', increase_key id np q = (Ok tt, q')) ∧
     (priority u < np → decrease_key id np q = (Raise ValueError, q)) ∧
     (np ≤ priority u → ∃ q', decrease_key id np q = (Ok tt, q'))).
Proof.
  intros Hq. pose proof (reachable_wf q Hq) as Hwf.
  pose proof (proj1 Hwf) as Hok.
  assert (∀ id, (¬ ∃ u, resident q id u) → _pos q !! id = None) as Habs.
  { intros id Hno. destruct (_pos q !! id) as [i|] eqn:E; [|done].
    destruct Hno. apply pos_ok_resident; eauto. }
  split_and!.
  - intros task Hres. apply insert_raise. by apply pos_ok_resident.
  - intros task Hno.
    destruct (insert_spec q task Hwf (Habs _ Hno))
      as (q' & Hrun & _). eauto.
  - intros E. split; [by apply extract_max_raise|by apply peek_max_raise].
  - intros Hne. destruct (_heap q) as [|top rest] eqn:E; [done|].
    destruct (extract_max_spec q top rest Hwf E)
      as (q' & Hrun & _).
    exists top, q'. split; [done|]. by eapply peek_max_spec.
  - intros id np Hno. split.
    + apply increase_key_absent. by apply Habs.
    + apply decrease_key_absent. by apply Habs.
  - intros id np u [Hin Hid].
    apply list_elem_of_lookup in Hin as [i Hi].
    assert (_pos q !! id = Some i) as Hp by (apply Hok; eauto).
    split_and!.
    + intros Hlt. by eapply increase_key_invalid.
    + intros Hle.
      destruct (increase_key_spec q id np i u Hwf Hp Hi Hle)
        as (q' & k & Hrun & _). eauto.
    + intros Hlt. by eapply decrease_key_invalid.
    + intros Hle.
      destruct (decrease_key_spec q id np i u Hwf Hp Hi Hle)
        as (q' & k & Hrun & _). eauto.
Qed.

(** C9. On a reachable queue with [id] at slot [i], every successful
    [increase_key] leaves [id] at a slot no deeper than [i], and every
    successful [decrease_key] at a slot no shallower than [i]; the calls do
    succeed when the new priority is not below, respectively not above, the
    current one. *)
Theorem key_mutation_monotonicity (q : Queue) (id : string) (np : Z)
    (i : nat) :
  reachable q → _pos q !! id = Some i →
  (∀ q', increase_key id np q = (Ok tt, q') →
         ∃ k, _pos q' !! id = Some k ∧ (depth k ≤ depth i)%nat) ∧
  (∀ q', decrease_key id np q = (Ok tt, q') →
         ∃ k, _pos q' !! id = Some k ∧ (depth i ≤ depth k)%nat) ∧
  (∃ t, resident q id t ∧
        (priority t ≤ np → ∃ q', increase_key id np q = (Ok tt, q')) ∧
        (np ≤ priority t → ∃ q', decrease_key id np q = (Ok tt, q'))).
Proof.
  intros Hq Hp. pose proof (reachable_wf q Hq) as Hwf.
  destruct (proj1 (proj1 Hwf id i) Hp) as (t & Hi & Hid).
  split_and!.
  - intros q' Hrun.
    destruct (Z.lt_ge_cases np (priority t)) as [Hlt|Hge].
    { rewrite (increase_key_invalid q id np i t) in Hrun by done. done. }
    destruct (increase_key_spec q id np i t Hwf Hp Hi Hge)
      as (q2 & k & Hrun2 & _ & _ & Hk & Hd).
    assert (q2 = q') as -> by congruence. eauto.
  - intros q' Hrun.
    destruct (Z.lt_ge_cases (priority t) np) as [Hlt|Hge].
    { rewrite (decrease_key_invalid q id np i t) in Hrun by done. done. }
    destruct (decrease_key_spec q id np i t Hwf Hp Hi Hge)
      as (q2 & k & Hrun2 & _ & _ & Hk & Hd).
    assert (q2 = q') as -> by congruence. eauto.
  - exists t. split; [split; [by eapply list_elem_of_lookup_2|done]|]. split.
    + intros Hle.
      destruct (increase_key_spec q id np i t Hwf Hp Hi Hle)
        as (q' & k & Hrun & _). eauto.
    + intros Hle.
      destruct (decrease_key_spec q id np i t Hwf Hp Hi Hle)
        as (q' & k & Hrun & _). eauto.
Qed.

Lemma demo_queue_heap :
  _heap demo_queue =
  [ mkTask "B" 10 1 (Some 3) ""; mkTask "D" 10 2 (Some 5) "";
    mkTask "C" 5 1 (Some 8) ""; mkTask "A" 3 0 (Some 10) "";
    mkTask "E" 1 3 (Some 12) "" ].
Proof. vm_compute. reflexivity. Qed.

Lemma failures_exact_and_atomic_witness :
  insert (mkTask "A" 7 9 None "") demo_queue = (Raise ValueError, demo_queue) ∧
  increase_key "F" 3 demo_queue = (Raise KeyError, demo_queue) ∧
  increase_key "B" 2 demo_queue = (Raise ValueError, demo_queue) ∧
  decrease_key "B" 11 demo_queue = (Raise ValueError, demo_queue).
Proof.
  destruct (failures_exact_and_atomic demo_queue demo_queue_reachable)
    as (Hins & _ & _ & _ & Habs & Hinv).
  assert (resident demo_queue "B" (mkTask "B" 10 1 (Some 3) "")) as HB.
  { split; [|reflexivity]. rewrite demo_queue_heap. apply list_elem_of_here. }
  split_and!.
  - apply Hins. exists (mkTask "A" 3 0 (Some 10) "").
    split; [|reflexivity]. rewrite demo_queue_heap.
    do 3 apply list_elem_of_further. apply list_elem_of_here.
  - apply Habs. intros (u & Hin & Hid). rewrite demo_queue_heap in Hin.
    repeat (apply elem_of_cons in Hin as [->|Hin]; [discriminate Hid|]).
    by apply elem_of_nil in Hin.
  - apply (Hinv "B" 2 _ HB). simpl. lia.
  - apply (Hinv "B" 11 _ HB). simpl. lia.
Defined.

Lemma key_mutation_monotonicity_witness :
  ∃ k, _pos (snd (increase_key "E" 20 demo_queue)) !! "E" = Some k ∧
       (depth k ≤ depth 4)%nat.
Proof.
  destruct (key_mutation_monotonicity demo_queue "E" 20 4
              demo_queue_reachable) as (Hup & _ & _).
  - vm_compute. reflexivity.
  - apply Hup. vm_compute. reflexivity.
Defined.

Example increase_key_moves_up :
  _pos (snd (increase_key "E" 20 demo_queue)) !! "E" = Some 0%nat ∧
  _pos (snd (decrease_key "B" 0 demo_queue)) !! "B" = Some 3%nat.
Proof. vm_compute. split; reflexivity. Qed.

(** ** Insert everything, extract everything *)

#[global] Instance hp_rel_antisymm : AntiSymm (=) hp_rel.
Proof.
  intros a b Hab Hba. unfold hp_rel in *.
  apply hp_asym in Hab. congruence.
Qed.

Section round_trip.

Implicit Types (l out : list Task) (q : Queue).

Lemma wf_fresh q task :
  wf q → task_id task ∉ task_id <$> _heap q →
  _pos q !! task_id task = None.
Proof.
  intros [Hok _] Hnin.
  destruct (_pos q !! task_id task) as [i|] eqn:E; [|done].
  destruct Hnin. apply Hok in E as (t & Ht & Hid).
  apply list_elem_of_fmap. exists t. split; [done|].
  by eapply list_elem_of_lookup_2.
Qed.

Lemma insert_each_spec l : ∀ q,
  wf q → NoDup (task_id <$> (l ++ _heap q)) →
  ∃ q', insert_each l q = (Ok tt, q') ∧ wf q' ∧ _heap q' ≡ₚ l ++ _heap q.
Proof.
  induction l as [|task l IH]; intros q Hwf Hnd; cbn [insert_each].
  - exists q. by split_and!.
  - rewrite <- app_comm_cons, fmap_cons in Hnd.
    apply NoDup_cons in Hnd as [Hnin Hnd].
    destruct (insert_spec q task Hwf) as (q1 & Hrun1 & Hwf1 & Hperm1).
    { apply wf_fresh; [done|]. intros Hin. apply Hnin.
      rewrite fmap_app. apply elem_of_app. by right. }
    destruct (IH q1 Hwf1) as (q' & Hrun & Hwf' & Hperm).
    { rewrite Hperm1. rewrite <- Permutation_middle. rewrite fmap_cons.
      by apply NoDup_cons. }
    exists q'. rewrite (bind_run _ _ _ _ _ Hrun1).
    split_and!; try done.
    rewrite Hperm, Hperm1. by rewrite <- Permutation_middle.
Qed.

Lemma wf_nil q : wf q → _heap q = [] → q = empty_queue.
Proof.
  destruct q as [h p]. intros [Hok _] E. cbn [_heap] in E. subst h.
  apply pos_ok_nil in Hok as ->. done.
Qed.

Lemma is_empty_run q : is_empty q = (Ok (bool_decide (_heap q = [])), q).
Proof.
  unfold is_empty, bind, heap_len, ret. by destruct (_heap q).
Qed.

Lemma extract_loop_spec (fuel : nat) : ∀ q acc,
  wf q → (length (_heap q) ≤ fuel)%nat →
  ∃ out, extract_loop fuel acc q = (Ok (acc ++ out), empty_queue) ∧
         out ≡ₚ _heap q ∧ StronglySorted hp_rel out.
Proof.
  induction fuel as [|fuel IH]; intros q acc Hwf Hlen; cbn [extract_loop].
  - assert (_heap q = []) as E by (destruct (_heap q); [done|simpl in *; lia]).
    exists []. rewrite (wf_nil q Hwf E), app_nil_r.
    split_and!; [done|done|constructor].
  - rewrite (bind_run _ _ _ _ _ (is_empty_run q)).
    destruct (_heap q) as [|top rest] eqn:E.
    + rewrite bool_decide_eq_true_2 by done. cbn [negb].
      exists []. rewrite (wf_nil q Hwf E), app_nil_r.
      split_and!; [done|done|constructor].
    + rewrite bool_decide_eq_false_2 by done. cbn [negb].
      destruct (extract_max_spec q top rest Hwf E)
        as (q' & Hrun & Hwf' & Hperm & _ & Hmax).
      rewrite (bind_run _ _ _ _ _ Hrun).
      destruct (IH q' (acc ++ [top]) Hwf') as (out & Hloop & Hout & Hsorted).
      { rewrite Hperm. simpl in Hlen. lia. }
      exists (top :: out). rewrite Hloop, <- app_assoc.
      split_and!; [done|by rewrite Hout, Hperm|].
      constructor; [done|]. apply Forall_forall. intros u Hu.
      rewrite Hout, Hperm in Hu.
      apply list_elem_of_lookup in Hu as [i Hi].
      apply (Hmax (S i) u); [lia|]. by rewrite E.
Qed.

Lemma extract_all_spec q :
  wf q →
  ∃ out, extract_all q = (Ok out, empty_queue) ∧
         out ≡ₚ _heap q ∧ StronglySorted hp_rel out.
Proof.
  intros Hwf. unfold extract_all, bind at 1, heap_len.
  by apply (extract_loop_spec (length (_heap q)) q []).
Qed.

Lemma sort_insert_perm x l : sort_insert x l ≡ₚ x :: l.
Proof.
  induction l as [|y l IH]; cbn [sort_insert]; [done|].
  destruct (_higher_priority x y); [done|].
  rewrite IH. apply Permutation_swap.
Qed.

Lemma sort_desc_perm l : sort_desc l ≡ₚ l.
Proof.
  induction l as [|x l IH]; cbn; [done|].
  fold (sort_desc l). by rewrite sort_insert_perm, IH.
Qed.

Lemma sort_insert_sorted x l :
  StronglySorted hp_rel l → task_id x ∉ task_id <$> l →
  StronglySorted hp_rel (sort_insert x l).
Proof.
  induction 1 as [|y l Hs IH Hall]; intros Hnin; cbn [sort_insert].
  - repeat constructor.
  - rewrite fmap_cons in Hnin. apply not_elem_of_cons in Hnin as [Hne Hnin].
    destruct (_higher_priority x y) eqn:Hxy.
    + constructor; [by constructor|].
      constructor; [done|]. eapply Forall_impl; [exact Hall|].
      intros z Hz. eapply hp_trans; eauto.
    + constructor; [by apply IH|].
      rewrite sort_insert_perm. constructor; [|done].
      by apply hp_not.
Qed.

Lemma sort_desc_sorted l :
  NoDup (task_id <$> l) → StronglySorted hp_rel (sort_desc l).
Proof.
  induction l as [|x l IH]; cbn; [constructor|].
  fold (sort_desc l). intros Hnd. apply NoDup_cons in Hnd as [Hnin Hnd].
  apply sort_insert_sorted; [by apply IH|].
  by rewrite sort_desc_perm.
Qed.

Lemma round_trip l :
  NoDup (task_id <$> l) →
  ∃ q, insert_each l empty_queue = (Ok tt, q) ∧
       extract_all q = (Ok (sort_desc l), empty_queue).
Proof.
  intros Hnd.
  destruct (insert_each_spec l empty_queue wf_empty)
    as (q & Hins & Hwf & Hperm).
  { cbn [_heap empty_queue]. by rewrite app_nil_r. }
  cbn [_heap empty_queue] in Hperm. rewrite app_nil_r in Hperm.
  destruct (extract_all_spec q Hwf) as (out & Hrun & Hout & Hsorted).
  exists q. split; [done|]. rewrite Hrun. do 2 f_equal.
  apply (StronglySorted_unique hp_rel); [done|by apply sort_desc_sorted|].
  by rewrite Hout, Hperm, sort_desc_perm.
Qed.

End round_trip.

(** C4. Inserting tasks with pairwise distinct ids into an empty queue, in
    any order, and extracting until the queue is empty yields the tasks
    sorted descending under the comparator: the output is a permutation of
    the input, each task is higher-priority than all later ones, and every
    insertion order gives the same output. *)
Theorem round_trip_sorting (l : list Task) :
  NoDup (task_id <$> l) →
  ∃ q, insert_each l empty_queue = (Ok tt, q) ∧
       extract_all q = (Ok (sort_desc l), empty_queue) ∧
       sort_desc l ≡ₚ l ∧
       StronglySorted hp_rel (sort_desc l) ∧
       ∀ l', l' ≡ₚ l →
             ∃ q', insert_each l' empty_queue = (Ok tt, q') ∧
                   extract_all q' = (Ok (sort_desc l), empty_queue).
Proof.
  intros Hnd. destruct (round_trip l Hnd) as (q & Hins & Hrun).
  exists q. split_and!; try done.
  - apply sort_desc_perm.
  - by apply sort_desc_sorted.
  - intros l' Hperm.
    assert (NoDup (task_id <$> l')) as Hnd' by by rewrite Hperm.
    destruct (round_trip l' Hnd') as (q' & Hins' & Hrun').
    exists q'. split; [done|]. rewrite Hrun'. do 2 f_equal.
    apply (StronglySorted_unique hp_rel).
    + by apply sort_desc_sorted.
    + by apply sort_desc_sorted.
    + by rewrite !sort_desc_perm.
Qed.

Lemma round_trip_sorting_witness :
  ∃ q, insert_each demo_tasks empty_queue = (Ok tt, q) ∧
       extract_all q = (Ok (sort_desc demo_tasks), empty_queue) ∧
       sort_desc demo_tasks ≡ₚ demo_tasks ∧
       StronglySorted hp_rel (sort_desc demo_tasks) ∧
       ∀ l', l' ≡ₚ demo_tasks →
             ∃ q', insert_each l' empty_queue = (Ok tt, q') ∧
                   extract_all q' = (Ok (sort_desc demo_tasks), empty_queue).
Proof.
  apply (round_trip_sorting demo_tasks). compute_done.
Defined.

Example demo_round_trip :
  fst (extract_all demo_queue) =
  Ok [ mkTask "B" 10 1 (Some 3) ""; mkTask "D" 10 2 (Some 5) "";
       mkTask "C" 5 1 (Some 8) ""; mkTask "A" 3 0 (Some 10) "";
       mkTask "E" 1 3 (Some 12) "" ].
Proof. vm_compute. reflexivity. Qed.

(** ** The driver *)

Section driver.

Variable tasks : list Task.

Implicit Types (q : Queue) (tl pre : list (Z * Task)) (t : Z).

Lemma by_time_fold (l : list Task) : ∀ (m : gmap Z (list Task)) t,
  default [] (foldl by_time_add m l !! t) =
  default [] (m !! t) ++ filter (λ x, arrival_time x = t) l.
Proof.
  induction l as [|x l IH]; intros m t; cbn [foldl].
  - by rewrite filter_nil, app_nil_r.
  - rewrite IH. unfold by_time_add. rewrite filter_cons.
    destruct (decide (arrival_time x = t)) as [->|Hne].
    + rewrite lookup_insert_eq. simpl. by rewrite <- app_assoc.
    + by rewrite lookup_insert_ne.
Qed.

Lemma by_time_lookup (l : list Task) t :
  default [] (by_time_of l !! t) = filter (λ x, arrival_time x = t) l.
Proof. unfold by_time_of. by rewrite by_time_fold, lookup_empty. Qed.

Lemma arrivals_0 : arrivals tasks 0 = [].
Proof.
  unfold arrivals. induction tasks as [|x l IH]; [done|].
  rewrite filter_cons_False by lia. done.
Qed.

Lemma arrivals_step t :
  0 ≤ t →
  arrivals tasks (t + 1) ≡ₚ
    filter (λ x, arrival_time x = t) tasks ++ arrivals tasks t.
Proof.
  intros Ht. unfold arrivals. induction tasks as [|x l IH]; [done|].
  rewrite !filter_cons.
  destruct (decide (arrival_time x = t)) as [E|E].
  - rewrite decide_True by lia. rewrite decide_False by lia.
    cbn [app]. by rewrite IH.
  - destruct (decide (0 ≤ arrival_time x < t)) as [Hx|Hx].
    + rewrite decide_True by lia. rewrite IH.
      by rewrite Permutation_middle.
    + rewrite decide_False by lia. done.
Qed.

Lemma arrivals_elem t x :
  x ∈ arrivals tasks t ↔ x ∈ tasks ∧ 0 ≤ arrival_time x < t.
Proof. unfold arrivals. rewrite list_elem_of_filter. tauto. Qed.

Lemma arrivals_ids_NoDup t :
  NoDup (task_id <$> tasks) → NoDup (task_id <$> arrivals tasks t).
Proof.
  intros Hnd. eapply sublist_NoDup; [exact Hnd|].
  apply fmap_sublist. unfold arrivals. apply sublist_filter.
Qed.

Lemma arrivals_NoDup t :
  NoDup (task_id <$> tasks) → NoDup (arrivals tasks t).
Proof. intros Hnd. eapply NoDup_fmap_1, arrivals_ids_NoDup, Hnd. Qed.

Lemma insert_each_cases (l : list Task) : ∀ q r q',
  wf q → insert_each l q = (r, q') →
  (r = Ok tt ∧ wf q' ∧ _heap q' ≡ₚ l ++ _heap q) ∨
  (r = Raise ValueError ∧ ¬ NoDup (task_id <$> (l ++ _heap q))).
Proof.
  induction l as [|task l IH]; intros q r q' Hwf Hrun;
    cbn [insert_each] in Hrun.
  - left. unfold ret in Hrun. injection Hrun as <- <-. by split_and!.
  - destruct (_pos q !! task_id task) as [i|] eqn:E.
    + rewrite (bind_raise _ _ _ _ _ (insert_raise q task (mk_is_Some _ _ E)))
        in Hrun.
      injection Hrun as <- <-. right. split; [done|].
      rewrite <- app_comm_cons, fmap_cons. intros Hnd.
      apply NoDup_cons in Hnd as [Hnin _]. apply Hnin.
      rewrite fmap_app. apply elem_of_app. right.
      apply (proj1 Hwf) in E as (u & Hu & Hid).
      apply list_elem_of_fmap. exists u. split; [done|].
      by eapply list_elem_of_lookup_2.
    + destruct (insert_spec q task Hwf E) as (q1 & Hrun1 & Hwf1 & Hperm1).
      rewrite (bind_run _ _ _ _ _ Hrun1) in Hrun.
      destruct (IH q1 r q' Hwf1 Hrun) as [(-> & Hwf' & Hperm)|(-> & Hdup)].
      * left. split_and!; try done.
        rewrite Hperm, Hperm1. by rewrite <- Permutation_middle.
      * right. split; [done|]. intros Hnd. apply Hdup.
        rewrite Hperm1, <- Permutation_middle. done.
Qed.

Lemma timeline_ok_nil : timeline_ok tasks [].
Proof. intros pre t x post E. by destruct pre. Qed.

Lemma timeline_ok_snoc tl t x :
  timeline_ok tasks tl → entry_ok tasks tl t x →
  timeline_ok tasks (tl ++ [(t, x)]).
Proof.
  intros Hok Hentry pre t' x' post E.
  destruct post as [|e post _] using rev_ind.
  - apply app_inj_tail in E as [-> [= -> ->]]. done.
  - rewrite app_comm_cons, app_assoc in E.
    apply app_inj_tail in E as [-> _]. by eapply Hok.
Qed.

Lemma sim_step_spec t q tl r q' :
  0 ≤ t → sim_inv tasks t q tl →
  sim_step (by_time_of tasks) t tl q = (r, q') →
  (∃ tl', r = Ok tl' ∧ sim_inv tasks (t + 1) q' tl' ∧
          (length tl' ≤ S (length tl))%nat) ∨
  (r = Raise ValueError ∧ ¬ NoDup (task_id <$> tasks)).
Proof.
  intros Ht (Hwf & Hcont & Htimes & Hok) Hrun. unfold sim_step in Hrun.
  rewrite by_time_lookup in Hrun.
  set (b := filter (λ x, arrival_time x = t) tasks) in *.
  destruct (insert_each b q) as [r1 q1] eqn:Hins.
  destruct (insert_each_cases b q r1 q1 Hwf Hins)
    as [(-> & Hwf1 & Hperm1)|(-> & Hdup)].
  2:{ right. rewrite (bind_raise _ _ _ _ _ Hins) in Hrun.
      injection Hrun as <- <-. split; [done|]. intros Hnd. apply Hdup.
      pose proof (arrivals_ids_NoDup (t + 1) Hnd) as Hnd1.
      rewrite (arrivals_step t Ht), <- Hcont in Hnd1.
      rewrite app_assoc, fmap_app in Hnd1.
      by apply NoDup_app in Hnd1 as [? _]. }
  rewrite (bind_run _ _ _ _ _ Hins) in Hrun.
  rewrite (bind_run _ _ _ _ _ (is_empty_run q1)) in Hrun.
  assert (_heap q1 ++ tl.*2 ≡ₚ arrivals tasks (t + 1)) as Hcont1.
  { rewrite Hperm1, (arrivals_step t Ht), <- Hcont. by rewrite app_assoc. }
  assert (Forall (λ e, e.1 < t + 1) tl) as Htimes1.
  { eapply Forall_impl; [exact Htimes|]. intros e He. simpl in He. lia. }
  destruct (_heap q1) as [|top rest] eqn:E.
  - rewrite bool_decide_eq_true_2 in Hrun by done. cbn [negb] in Hrun.
    unfold ret in Hrun. injection Hrun as <- <-.
    left. exists tl. split; [done|]. split; [|lia].
    split_and!; try done. by rewrite E.
  - rewrite bool_decide_eq_false_2 in Hrun by done. cbn [negb] in Hrun.
    destruct (extract_max_spec q1 top rest Hwf1 E)
      as (q2 & Hex & Hwf2 & Hperm2 & _ & Hmax).
    rewrite (bind_run _ _ _ _ _ Hex) in Hrun.
    unfold ret in Hrun. injection Hrun as <- <-.
    left. exists (tl ++ [(t, top)]). split; [done|].
    split; [|rewrite length_app; simpl; lia].
    split_and!.
    + done.
    + rewrite fmap_app. simpl. rewrite Hperm2, <- Hcont1.
      rewrite app_assoc, <- Permutation_cons_append. done.
    + apply Forall_app. split; [done|].
      constructor; [simpl; lia|constructor].
    + apply timeline_ok_snoc; [done|]. split; [done|]. split; [done|].
      exists rest. split; [done|].
      apply Forall_forall. intros u Hu.
      apply list_elem_of_lookup in Hu as [i Hi].
      apply (Hmax (S i) u); [lia|]. by rewrite E.
Qed.

Lemma sim_loop_spec (n : nat) : ∀ t q tl r q',
  0 ≤ t → sim_inv tasks t q tl →
  sim_loop (by_time_of tasks) (seqZ t (Z.of_nat n)) tl q = (r, q') →
  (∃ tl', r = Ok tl' ∧ sim_inv tasks (t + Z.of_nat n) q' tl' ∧
          (length tl' ≤ length tl + n)%nat) ∨
  (r = Raise ValueError ∧ ¬ NoDup (task_id <$> tasks)).
Proof.
  induction n as [|n IH]; intros t q tl r q' Ht Hinv Hrun.
  - rewrite seqZ_nil in Hrun by lia. cbn [sim_loop] in Hrun.
    unfold ret in Hrun. injection Hrun as <- <-.
    left. exists tl. rewrite Z.add_0_r. split_and!; [done|done|lia].
  - rewrite seqZ_cons in Hrun by lia. cbn [sim_loop] in Hrun.
    replace (Z.pred (Z.of_nat (S n))) with (Z.of_nat n) in Hrun by lia.
    destruct (sim_step (by_time_of tasks) t tl q) as [r1 q1] eqn:Hstep.
    destruct (sim_step_spec t q tl r1 q1 Ht Hinv Hstep)
      as [(tl1 & -> & Hinv1 & Hlen1)|(-> & Hdup)].
    + rewrite (bind_run _ _ _ _ _ Hstep) in Hrun.
      destruct (IH (Z.succ t) q1 tl1 r q')
        as [(tl' & -> & Hinv' & Hlen')|(-> & Hdup)]; [lia| |done| |].
      * by replace (Z.succ t) with (t + 1) by lia.
      * left. exists tl'. split; [done|]. split; [|lia].
        by replace (t + Z.of_nat (S n)) with (Z.succ t + Z.of_nat n) by lia.
      * by right.
    + right. rewrite (bind_raise _ _ _ _ _ Hstep) in Hrun.
      by injection Hrun as <- <-.
Qed.

Lemma arrivals_nonpos t : t ≤ 0 → arrivals tasks t = [].
Proof.
  intros Ht. unfold arrivals. induction tasks as [|x l IH]; [done|].
  rewrite filter_cons_False by lia. done.
Qed.

Lemma arrivals_in_horizon (max_time : Z) :
  arrivals tasks (max_time + 1) = in_horizon tasks max_time.
Proof. apply list_filter_iff. intros x. lia. Qed.

Lemma simulate_cases (max_time : Z) :
  (∃ tl q', simulate_run tasks max_time = (Ok tl, q') ∧ wf q' ∧
            _heap q' ++ tl.*2 ≡ₚ in_horizon tasks max_time ∧
            timeline_ok tasks tl ∧ Forall (λ e, e.1 ≤ max_time) tl ∧
            (length tl ≤ Z.to_nat (max_time + 1))%nat) ∨
  (∃ q', simulate_run tasks max_time = (Raise ValueError, q') ∧
         ¬ NoDup (task_id <$> tasks)).
Proof.
  unfold simulate_run. rewrite <- arrivals_in_horizon.
  destruct (decide (0 ≤ max_time + 1)) as [Hm|Hm].
  2:{ left. exists [], empty_queue. rewrite seqZ_nil by lia.
      rewrite arrivals_nonpos by lia.
      split_and!; [done|apply wf_empty|done|apply timeline_ok_nil
                  |constructor|simpl; lia]. }
  destruct (sim_loop (by_time_of tasks) (seqZ 0 (max_time + 1)) []
              empty_queue) as [r q'] eqn:Hrun.
  rewrite <- (Z2Nat.id (max_time + 1)) in Hrun by done.
  destruct (sim_loop_spec (Z.to_nat (max_time + 1)) 0 empty_queue [] r q')
    as [(tl & -> & (Hwf & Hcont & Htimes & Hok) & Hlen)|(-> & Hdup)];
    [done| |done| |].
  - split_and!; [apply wf_empty| |constructor|apply timeline_ok_nil].
    by rewrite arrivals_0.
  - left. exists tl, q'. rewrite Z2Nat.id, Z.add_0_l in Hcont by done.
    split_and!; try done.
    eapply Forall_impl; [exact Htimes|]. intros e He. simpl in He. lia.
  - right. by exists q'.
Qed.

Lemma timeline_ok_prefix tl e : timeline_ok tasks (tl ++ [e]) →
  timeline_ok tasks tl.
Proof.
  intros Hok pre t x post ->. eapply (Hok pre t x (post ++ [e])).
  by rewrite <- app_assoc.
Qed.

Lemma timeline_ok_sorted tl :
  timeline_ok tasks tl → StronglySorted Z.lt tl.*1.
Proof.
  induction tl as [|[t x] tl IH] using rev_ind; intros Hok; [constructor|].
  rewrite fmap_app. apply StronglySorted_app_2.
  - intros t1 t2 Ht1 Ht2. apply list_elem_of_singleton in Ht2 as ->.
    destruct (Hok tl t x [] eq_refl) as (_ & Hpre & _).
    apply list_elem_of_fmap in Ht1 as (e & -> & He).
    rewrite Forall_forall in Hpre. by apply Hpre.
  - eapply IH, timeline_ok_prefix, Hok.
  - repeat constructor.
Qed.

End driver.

(** ** The driver does not idle

    A round that finds the queue non-empty after the arrivals records an
    entry, so a time without an entry is one where nothing was pending. *)

Section driver_work.

Variable tasks : list Task.

Implicit Types (q : Queue) (tl : list (Z * Task)) (t : Z).

(** A round either records nothing and leaves the queue empty, or appends
    one entry for the current time. *)
Lemma sim_step_shape (bt : gmap Z (list Task)) t tl q tl' q' :
  wf q → sim_step bt t tl q = (Ok tl', q') →
  (tl' = tl ∧ _heap q' = []) ∨ ∃ x, tl' = tl ++ [(t, x)].
Proof.
  intros Hwf Hrun. unfold sim_step in Hrun.
  destruct (insert_each (default [] (bt !! t)) q) as [r1 q1] eqn:Hins.
  destruct (insert_each_cases _ q r1 q1 Hwf Hins)
    as [(-> & Hwf1 & _)|(-> & _)].
  2:{ rewrite (bind_raise _ _ _ _ _ Hins) in Hrun. done. }
  rewrite (bind_run _ _ _ _ _ Hins) in Hrun.
  rewrite (bind_run _ _ _ _ _ (is_empty_run q1)) in Hrun.
  destruct (_heap q1) as [|top rest] eqn:E.
  - rewrite bool_decide_eq_true_2 in Hrun by done. cbn [negb] in Hrun.
    unfold ret in Hrun. injection Hrun as <- <-. by left.
  - rewrite bool_decide_eq_false_2 in Hrun by done. cbn [negb] in Hrun.
    destruct (extract_max_spec q1 top rest Hwf1 E) as (q2 & Hex & _).
    rewrite (bind_run _ _ _ _ _ Hex) in Hrun.
    unfold ret in Hrun. injection Hrun as <- <-. right. by exists top.
Qed.

Lemma sim_step_work t q tl tl' q' :
  0 ≤ t → sim_inv tasks t q tl → work_ok tasks tl t →
  sim_step (by_time_of tasks) t tl q = (Ok tl', q') →
  work_ok tasks tl' (t + 1).
Proof.
  intros Ht Hinv Hwork Hrun.
  destruct (sim_step_spec tasks t q tl (Ok tl') q' Ht Hinv Hrun)
    as [(tl1 & [= <-] & (_ & Hcont & _) & _)|(? & _)]; [|done].
  destruct Hinv as (Hwf & _ & Htimes & _).
  destruct (sim_step_shape _ t tl q tl' q' Hwf Hrun) as [[-> Hnil]|[x0 ->]].
  - intros t' x Ht' Hnin Hx.
    destruct (decide (t' = t)) as [->|Hne]; [|apply Hwork; [lia|done|done]].
    rewrite <- Hcont, Hnil in Hx. cbn [app] in Hx.
    apply list_elem_of_fmap in Hx as ([s y] & -> & Hin).
    exists s. split; [done|].
    rewrite Forall_forall in Htimes. apply (Htimes _ Hin).
  - intros t' x Ht' Hnin Hx. rewrite fmap_app in Hnin.
    apply not_elem_of_app in Hnin as [Hnin Hnt].
    assert (t' ≠ t) as Hne.
    { intros ->. apply Hnt. apply list_elem_of_here. }
    destruct (Hwork t' x) as (s & Hin & Hs); [lia|done|done|].
    exists s. split; [|done]. apply elem_of_app. by left.
Qed.

Lemma sim_loop_work (n : nat) : ∀ t q tl tl' q',
  0 ≤ t → sim_inv tasks t q tl → work_ok tasks tl t →
  sim_loop (by_time_of tasks) (seqZ t (Z.of_nat n)) tl q = (Ok tl', q') →
  work_ok tasks tl' (t + Z.of_nat n).
Proof.
  induction n as [|n IH]; intros t q tl tl' q' Ht Hinv Hwork Hrun.
  - rewrite seqZ_nil in Hrun by lia. cbn [sim_loop] in Hrun.
    unfold ret in Hrun. injection Hrun as <- <-. by rewrite Z.add_0_r.
  - rewrite seqZ_cons in Hrun by lia. cbn [sim_loop] in Hrun.
    replace (Z.pred (Z.of_nat (S n))) with (Z.of_nat n) in Hrun by lia.
    destruct (sim_step (by_time_of tasks) t tl q) as [r1 q1] eqn:Hstep.
    destruct (sim_step_spec tasks t q tl r1 q1 Ht Hinv Hstep)
      as [(tl1 & -> & Hinv1 & _)|(-> & _)].
    2:{ rewrite (bind_raise _ _ _ _ _ Hstep) in Hrun. done. }
    rewrite (bind_run _ _ _ _ _ Hstep) in Hrun.
    replace (t + Z.of_nat (S n)) with (Z.succ t + Z.of_nat n) by lia.
    apply (IH (Z.succ t) q1 tl1 tl' q'); [lia| | |done].
    + by replace (Z.succ t) with (t + 1) by lia.
    + replace (Z.succ t) with (t + 1) by lia.
      by eapply sim_step_work.
Qed.

Lemma simulate_work (max_time : Z) tl q' :
  simulate_run tasks max_time = (Ok tl, q') →
  work_ok tasks tl (max_time + 1).
Proof.
  unfold simulate_run. intros Hrun.
  destruct (decide (0 ≤ max_time + 1)) as [Hm|Hm].
  2:{ intros t' x Ht'. lia. }
  pose proof (sim_loop_work (Z.to_nat (max_time + 1)) 0 empty_queue [] tl q')
    as H.
  rewrite Z2Nat.id, Z.add_0_l in H by done. apply H; [done| | |done].
  - split_and!; [apply wf_empty| |constructor|apply timeline_ok_nil].
    by rewrite arrivals_0.
  - intros t' x Ht'. lia.
Qed.

End driver_work.

(** ** The driver's contract *)

Lemma sim_loop_ext (bt1 bt2 : gmap Z (list Task)) (ts : list Z) :
  (∀ t, t ∈ ts → default [] (bt1 !! t) = default [] (bt2 !! t)) →
  ∀ tl q, sim_loop bt1 ts tl q = sim_loop bt2 ts tl q.
Proof.
  induction ts as [|t ts IH]; intros Hext tl q; cbn [sim_loop]; [done|].
  unfold bind.
  assert (sim_step bt1 t tl q = sim_step bt2 t tl q) as ->.
  { unfold sim_step. rewrite Hext; [done|]. apply list_elem_of_here. }
  destruct (sim_step bt2 t tl q) as [[tl'|e] q1]; [|done].
  apply IH. intros t' Ht'. apply Hext. by apply list_elem_of_further.
Qed.

Lemma simulate_in_horizon (tasks : list Task) (max_time : Z) :
  simulate_run tasks max_time =
  simulate_run (in_horizon tasks max_time) max_time.
Proof.
  unfold simulate_run. apply sim_loop_ext.
  intros t Ht. apply elem_of_seqZ in Ht.
  rewrite !by_time_lookup. unfold in_horizon. symmetry.
  apply list_filter_filter_l. intros x. lia.
Qed.

(** C7. For tasks with pairwise distinct ids and non-negative arrival times,
    and a non-negative horizon, [simulate_scheduler] returns a timeline
    whose times are strictly increasing and lie in [0..max_time]; every
    entry [(t, x)] is a task of the input that has arrived by [t] and was
    not executed before, and it is higher-priority than every other input
    task that has arrived by [t] and was not executed before.  No step
    with a pending task is skipped: when some input task has arrived by a
    time [t] of the horizon and has no entry before [t], the timeline has
    an entry at [t], which by the above is the maximum of the pending
    tasks. *)
Theorem simulate_timeline_correct (tasks : list Task) (max_time : Z) :
  NoDup (task_id <$> tasks) →
  Forall (λ x, 0 ≤ arrival_time x) tasks →
  0 ≤ max_time →
  ∃ tl,
    simulate_scheduler tasks max_time = Ok tl ∧
    StronglySorted Z.lt tl.*1 ∧
    Forall (λ e, 0 ≤ e.1 ≤ max_time) tl ∧
    (∀ pre t x post, tl = pre ++ (t, x) :: post →
      x ∈ tasks ∧ arrival_time x ≤ t ∧ (x ∉ pre.*2) ∧
      ∀ u, u ∈ tasks → arrival_time u ≤ t → u ∉ pre.*2 → u ≠ x →
           _higher_priority x u = true) ∧
    (∀ t u, 0 ≤ t ≤ max_time → u ∈ tasks → arrival_time u ≤ t →
      (∀ s, s < t → (s, u) ∉ tl) → ∃ x, (t, x) ∈ tl).
Proof.
  intros Hnd Hnonneg _.
  destruct (simulate_cases tasks max_time)
    as [(tl & q' & Hrun & _ & _ & Hok & Htimes & _)|(_ & _ & Hdup)]; [|done].
  exists tl. split; [unfold simulate_scheduler; by rewrite Hrun|].
  split; [by eapply timeline_ok_sorted|].
  split; [|split].
  3:{ intros t u Ht Hu Hau Hpend.
      destruct (decide (t ∈ tl.*1)) as [Hin|Hnin].
      - apply list_elem_of_fmap in Hin as ([t' x] & -> & Hin). by exists x.
      - destruct (simulate_work tasks max_time tl q' Hrun t u)
          as (s & Hin & Hs); [lia|done| |by destruct (Hpend s Hs)].
        apply arrivals_elem. split; [done|].
        rewrite Forall_forall in Hnonneg. specialize (Hnonneg u Hu). lia. }
  - apply Forall_forall. intros [t x] Hin.
    apply list_elem_of_split in Hin as (pre & post & ->).
    destruct (Hok pre t x post eq_refl) as (Ht & _).
    rewrite Forall_forall in Htimes.
    assert ((t, x).1 ≤ max_time) as Hle.
    { apply Htimes, elem_of_app. right. apply list_elem_of_here. }
    simpl in *. lia.
  - intros pre t x post ->.
    destruct (Hok pre t x post eq_refl) as (Ht & _ & rest & Hperm & Hmax).
    pose proof (arrivals_NoDup tasks (t + 1) Hnd) as Hnd1.
    rewrite <- Hperm in Hnd1. apply NoDup_cons in Hnd1 as [Hnin _].
    assert (x ∈ arrivals tasks (t + 1)) as Hx
      by (rewrite <- Hperm; apply list_elem_of_here).
    apply arrivals_elem in Hx as [Hx Hat].
    split_and!; [done|lia| |].
    + intros Hin. apply Hnin, elem_of_app. by right.
    + intros u Hu Hau Hnpre Hne.
      assert (u ∈ arrivals tasks (t + 1)) as Hu'.
      { apply arrivals_elem. split; [done|].
        rewrite Forall_forall in Hnonneg. specialize (Hnonneg u Hu). lia. }
      rewrite <- Hperm in Hu'.
      apply elem_of_cons in Hu' as [->|Hu']; [done|].
      apply elem_of_app in Hu' as [Hu'|Hu']; [|done].
      rewrite Forall_forall in Hmax. by apply Hmax.
Qed.

Lemma simulate_timeline_correct_witness :
  ∃ tl,
    simulate_scheduler demo_tasks 6 = Ok tl ∧
    StronglySorted Z.lt tl.*1 ∧
    Forall (λ e, 0 ≤ e.1 ≤ 6) tl ∧
    (∀ pre t x post, tl = pre ++ (t, x) :: post →
      x ∈ demo_tasks ∧ arrival_time x ≤ t ∧ (x ∉ pre.*2) ∧
      ∀ u, u ∈ demo_tasks → arrival_time u ≤ t → u ∉ pre.*2 → u ≠ x →
           _higher_priority x u = true) ∧
    (∀ t u, 0 ≤ t ≤ 6 → u ∈ demo_tasks → arrival_time u ≤ t →
      (∀ s, s < t → (s, u) ∉ tl) → ∃ x, (t, x) ∈ tl).
Proof.
  apply (simulate_timeline_correct demo_tasks 6).
  - compute_done.
  - repeat constructor; simpl; lia.
  - lia.
Defined.

(** The run of the [__main__] block. *)
Example demo_run :
  simulate_scheduler demo_tasks 6 =
  Ok [ (0, mkTask "A" 3 0 (Some 10) ""); (1, mkTask "B" 10 1 (Some 3) "");
       (2, mkTask "D" 10 2 (Some 5) ""); (3, mkTask "C" 5 1 (Some 8) "");
       (4, mkTask "E" 1 3 (Some 12) "") ].
Proof. vm_compute. reflexivity. Qed.

(** C8. With horizon 6, the five tasks A (priority 3, arrival 0), B (10, 1),
    C (5, 1), D (10, 2) and E (1, 3), whatever their deadlines and payloads,
    give the timeline (0,A), (1,B), (2,D), (3,C), (4,E): nothing is recorded
    for times 5 and 6. *)
Theorem simulate_demo_scenario
    (dA dB dC dD dE : option Z) (pA pB pC pD pE : string) :
  simulate_scheduler
    [ mkTask "A" 3 0 dA pA; mkTask "B" 10 1 dB pB; mkTask "C" 5 1 dC pC;
      mkTask "D" 10 2 dD pD; mkTask "E" 1 3 dE pE ] 6 =
  Ok [ (0, mkTask "A" 3 0 dA pA); (1, mkTask "B" 10 1 dB pB);
       (2, mkTask "D" 10 2 dD pD); (3, mkTask "C" 5 1 dC pC);
       (4, mkTask "E" 1 3 dE pE) ].
Proof. vm_compute. reflexivity. Qed.

(** C10. Tasks that arrive before time 0 or after [max_time] are never
    inserted: the run (its result, be it a timeline or an error, and the
    queue it leaves) is that of the input without them, so they raise
    nothing, whatever their ids.  When the run returns, the tasks of the
    timeline and the tasks left in the queue are together exactly the
    in-horizon tasks; the timeline has at most one entry per round, each with
    [0 <= arrival_time <= t <= max_time], and the tasks left in the queue are
    not reported. *)
Theorem simulate_horizon (tasks : list Task) (max_time : Z) :
  simulate_run tasks max_time =
    simulate_run (in_horizon tasks max_time) max_time ∧
  (NoDup (task_id <$> in_horizon tasks max_time) →
   ∃ tl, simulate_scheduler tasks max_time = Ok tl) ∧
  (∀ tl q', simulate_run tasks max_time = (Ok tl, q') →
            _heap q' ++ tl.*2 ≡ₚ in_horizon tasks max_time ∧
            (length tl ≤ Z.to_nat (max_time + 1))%nat ∧
            ∀ t x, (t, x) ∈ tl →
                   x ∈ in_horizon tasks max_time ∧
                   0 ≤ arrival_time x ≤ t ∧ t ≤ max_time).
Proof.
  split; [apply simulate_in_horizon|]. split.
  - intros Hnd. unfold simulate_scheduler. rewrite simulate_in_horizon.
    destruct (simulate_cases (in_horizon tasks max_time) max_time)
      as [(tl & q' & Hrun & _)|(_ & _ & Hdup)]; [|done].
    exists tl. by rewrite Hrun.
  - intros tl q' Hrun.
    destruct (simulate_cases tasks max_time)
      as [(tl' & q'' & Hrun' & _ & Hcont & Hok & Htimes & Hlen)
         |(q'' & Hrun' & _)]; [|congruence].
    assert (tl' = tl) as -> by congruence.
    assert (q'' = q') as -> by congruence.
    split; [done|]. split; [done|]. intros t x Hin.
    rewrite Forall_forall in Htimes. pose proof (Htimes _ Hin) as Hle.
    apply list_elem_of_split in Hin as (pre & post & ->).
    destruct (Hok pre t x post eq_refl) as (Ht & _ & rest & Hperm & _).
    assert (x ∈ arrivals tasks (t + 1)) as Hx
      by (rewrite <- Hperm; apply list_elem_of_here).
    apply arrivals_elem in Hx as [Hx Hat]. simpl in Hle.
    split_and!; [|lia|lia|lia].
    unfold in_horizon. apply list_elem_of_filter. split; [lia|done].
Qed.

(** With horizon 0 only one of two tasks arriving at time 0 is executed;
    the other, and tasks outside the horizon (even with a clashing id), are
    dropped without a trace. *)
Example simulate_drops_silently :
  simulate_scheduler
    [ mkTask "A" 1 0 None ""; mkTask "B" 2 0 None "";
      mkTask "B" 9 (-1) None ""; mkTask "B" 9 5 None "" ] 0 =
  Ok [ (0, mkTask "B" 2 0 None "") ].
Proof. vm_compute. reflexivity. Qed.

(** Two tasks with one id that are resident together make the driver
    raise. *)
Example simulate_duplicate_raises :
  simulate_scheduler
    [ mkTask "A" 1 0 None ""; mkTask "A" 2 0 None "" ] 3 = Raise ValueError.
Proof. vm_compute. reflexivity. Qed.

(** * Further properties of the queue *)

Section queue_extras.

Local Open Scope nat_scope.
Implicit Types (h : list Task) (p : gmap string nat) (q : Queue).

(** A resident task that dominates every other resident task sits in
    slot 0. *)
Lemma root_unique q x :
  wf q → x ∈ _heap q →
  (∀ u, u ∈ _heap q → u ≠ x → _higher_priority x u = true) →
  _heap q !! 0 = Some x.
Proof.
  intros [Hok Hord] Hin Hdom.
  destruct (_heap q) as [|top rest] eqn:E; [by apply elem_of_nil in Hin|].
  destruct (decide (task_id top = task_id x)) as [Hid|Hid].
  - apply list_elem_of_lookup in Hin as [j Hj].
    assert (0 = j) as <-.
    { destruct q as [h p]. cbn [_heap] in E. subst h.
      eapply pos_ok_inj; eauto. }
    done.
  - assert (top ≠ x) as Hne by congruence.
    assert (_higher_priority x top = true) as Hxt
      by (apply Hdom; [apply list_elem_of_here|done]).
    apply list_elem_of_lookup in Hin as [j Hj].
    destruct j as [|j]; [simpl in Hj; congruence|].
    pose proof (root_max (top :: rest) top Hord eq_refl (S j) x
                  ltac:(lia) Hj) as Htx.
    apply hp_asym in Htx. congruence.
Qed.

Lemma peek_max_root q x :
  _heap q !! 0 = Some x → peek_max q = (Ok x, q).
Proof.
  intros Hx. destruct (_heap q) as [|top rest] eqn:E; [done|].
  injection Hx as ->. by eapply peek_max_spec.
Qed.

Lemma lookup_split_insert {A} (l : list A) (i : nat) (x : A) :
  l !! i = Some x →
  ∃ rest, l ≡ₚ x :: rest ∧ ∀ v, <[i:=v]> l ≡ₚ v :: rest.
Proof.
  intros Hi. exists (take i l ++ drop (S i) l). split.
  - rewrite <- (take_drop_middle l i x Hi) at 1.
    by rewrite Permutation_middle.
  - intros v. rewrite insert_take_drop by by eapply lookup_lt_Some.
    by rewrite Permutation_middle.
Qed.

Lemma set_priority_same (t : Task) : set_priority t (priority t) = t.
Proof. by destruct t. Qed.

(** On a well-formed queue [_sift_up] and [_sift_down] find nothing to
    do. *)
Lemma sift_up_noop h p i :
  wf {| _heap := h; _pos := p |} → i < length h →
  _sift_up i {| _heap := h; _pos := p |} =
    (Ok tt, {| _heap := h; _pos := p |}).
Proof.
  intros [Hok Hord] Hi. cbn [_heap] in Hord. rewrite sift_up_eq.
  destruct (Nat.ltb_spec 0 i) as [Hpos|Hpos]; [|done].
  pose proof (parent_lt i Hpos) as Hlt.
  destruct (lookup_lt_is_Some_2 h i Hi) as [a Ha].
  destruct (lookup_lt_is_Some_2 h (parent i)) as [b Hb]; [lia|].
  rewrite (bind_run _ _ _ _ _ (heap_get_run h p i a Ha)).
  rewrite (bind_run _ _ _ _ _ (heap_get_run h p (parent i) b Hb)).
  assert (is_child (parent i) i) as Hc by by apply parent_spec.
  rewrite (hp_asym b a); [done|]. eapply Hord; eauto.
Qed.

Lemma sift_down_noop h p i :
  wf {| _heap := h; _pos := p |} → i < length h →
  _sift_down i {| _heap := h; _pos := p |} =
    (Ok tt, {| _heap := h; _pos := p |}).
Proof.
  intros [Hok Hord] Hi. cbn [_heap] in Hord.
  unfold _sift_down, bind at 1, heap_len. cbn [_heap].
  rewrite sift_down_eq. cbn zeta.
  destruct (Nat.leb_spec (length h) (2 * i + 1)) as [Hn|Hn]; [done|].
  destruct (select_best h p i Hok Hn) as (best & tb & Hsel & Hbc & Hbt & _).
  rewrite (bind_run _ _ _ _ _ Hsel).
  destruct (lookup_lt_is_Some_2 h i Hi) as [c Hc].
  rewrite (bind_run _ _ _ _ _ (heap_get_run h p best tb Hbt)).
  rewrite (bind_run _ _ _ _ _ (heap_get_run h p i c Hc)).
  rewrite (hp_asym c tb); [done|]. eapply Hord; eauto.
Qed.

Lemma resident_slot q id t :
  pos_ok q → resident q id t →
  ∃ i, _pos q !! id = Some i ∧ _heap q !! i = Some t.
Proof.
  intros Hok [Hin Hid]. apply list_elem_of_lookup in Hin as [i Hi].
  exists i. split; [|done]. apply Hok. eauto.
Qed.

Lemma pos_ok_size q : pos_ok q → size (_pos q) = length (_heap q).
Proof.
  intros Hok. rewrite <- size_dom, (pos_ok_dom q Hok).
  rewrite size_list_to_set by by apply pos_ok_NoDup.
  by rewrite length_fmap.
Qed.

End queue_extras.

(** X1. A successful [insert] adds exactly the given task: on a reachable
    queue where the id is not resident, the call succeeds, the heap store
    gains that task and nothing else, the index gains that id, and the
    size grows by one. *)
Theorem insert_adds_task (q : Queue) (task : Task) :
  reachable q → (¬ ∃ u, resident q (task_id task) u) →
  ∃ q', insert task q = (Ok tt, q') ∧
        _heap q' ≡ₚ task :: _heap q ∧
        dom (_pos q') = {[task_id task]} ∪ dom (_pos q) ∧
        len q' = (Ok (S (length (_heap q))), q').
Proof.
  intros Hq Hno. pose proof (reachable_wf q Hq) as Hwf.
  assert (_pos q !! task_id task = None) as Hnone.
  { destruct (_pos q !! task_id task) as [i|] eqn:E; [|done].
    destruct Hno. apply pos_ok_resident; [apply Hwf|eauto]. }
  destruct (insert_spec q task Hwf Hnone) as (q' & Hrun & Hwf' & Hperm).
  exists q'. split_and!; try done.
  - rewrite (pos_ok_dom q') by apply Hwf'.
    rewrite (pos_ok_dom q) by apply Hwf.
    apply set_eq. intros x.
    rewrite elem_of_union, elem_of_singleton, !elem_of_list_to_set, Hperm.
    rewrite fmap_cons, elem_of_cons. done.
  - unfold len, heap_len. by rewrite Hperm.
Qed.

Lemma insert_adds_task_witness :
  ∃ q', insert (mkTask "F" 7 4 None "") demo_queue = (Ok tt, q') ∧
        _heap q' ≡ₚ mkTask "F" 7 4 None "" :: _heap demo_queue ∧
        dom (_pos q') = {[ "F" ]} ∪ dom (_pos demo_queue) ∧
        len q' = (Ok (S (length (_heap demo_queue))), q').
Proof.
  apply (insert_adds_task demo_queue (mkTask "F" 7 4 None "")
           demo_queue_reachable).
  intros (u & Hin & Hid). rewrite demo_queue_heap in Hin.
  repeat (apply elem_of_cons in Hin as [->|Hin]; [discriminate Hid|]).
  by apply elem_of_nil in Hin.
Defined.

(** X2. After a successful [insert] into a reachable queue, [peek_max]
    returns the new task if the queue was empty, and otherwise whichever of
    the new task and the previous maximum is higher-priority. *)
Theorem peek_max_after_insert (q q' : Queue) (task : Task) :
  reachable q → insert task q = (Ok tt, q') →
  (_heap q = [] → peek_max q' = (Ok task, q')) ∧
  (∀ old, peek_max q = (Ok old, q) →
          peek_max q' =
            (Ok (if _higher_priority task old then task else old), q')).
Proof.
  intros Hq Hrun. pose proof (reachable_wf q Hq) as Hwf.
  destruct (_pos q !! task_id task) as [i|] eqn:E.
  { rewrite insert_raise in Hrun by eauto. done. }
  destruct (insert_spec q task Hwf E) as (q2 & Hrun2 & Hwf' & Hperm).
  assert (q2 = q') as -> by congruence.
  assert (∀ u, u ∈ _heap q → task_id u ≠ task_id task) as Hfresh.
  { intros u Hu Hid. apply list_elem_of_lookup in Hu as [j Hj].
    assert (_pos q !! task_id task = Some j) by (apply Hwf; eauto).
    congruence. }
  split.
  - intros Hnil. apply peek_max_root, root_unique; [done| |].
    + rewrite Hperm. apply list_elem_of_here.
    + intros u Hu Hne. rewrite Hperm, Hnil in Hu.
      apply list_elem_of_singleton in Hu. done.
  - intros old Hpeek.
    destruct (_heap q) as [|top rest] eqn:Eh.
    { rewrite peek_max_raise in Hpeek by done. done. }
    rewrite (peek_max_spec q top rest Eh) in Hpeek.
    assert (top = old) as -> by congruence.
    assert (∀ u, u ∈ rest → _higher_priority old u = true) as Hold.
    { intros u Hu. apply list_elem_of_lookup in Hu as [j Hj].
      destruct Hwf as [_ Hord]. rewrite Eh in Hord.
      by apply (root_max (old :: rest) old Hord eq_refl (S j) u). }
    apply peek_max_root, root_unique; [done| |].
    + rewrite Hperm. destruct (_higher_priority task old).
      * apply list_elem_of_here.
      * apply list_elem_of_further, list_elem_of_here.
    + intros u Hu Hne. rewrite Hperm in Hu.
      destruct (_higher_priority task old) eqn:Hto.
      * apply elem_of_cons in Hu as [->|Hu]; [done|].
        apply elem_of_cons in Hu as [->|Hu]; [done|].
        eapply hp_trans; [exact Hto|]. by apply Hold.
      * apply elem_of_cons in Hu as [->|Hu].
        -- apply hp_not; [|done]. intros Hid.
           apply (Hfresh old); [apply list_elem_of_here|done].
        -- apply elem_of_cons in Hu as [->|Hu]; [done|]. by apply Hold.
Qed.

Lemma peek_max_after_insert_witness :
  peek_max (snd (insert (mkTask "F" 12 4 None "") demo_queue)) =
    (Ok (mkTask "F" 12 4 None ""),
     snd (insert (mkTask "F" 12 4 None "") demo_queue)).
Proof.
  destruct (peek_max_after_insert demo_queue
              (snd (insert (mkTask "F" 12 4 None "") demo_queue))
              (mkTask "F" 12 4 None "") demo_queue_reachable) as [_ H].
  - vm_compute. reflexivity.
  - apply (H (mkTask "B" 10 1 (Some 3) "")). vm_compute. reflexivity.
Defined.

(** X3. A successful [increase_key] changes the priority of the named task
    and nothing else: the other resident tasks, the ids of the index and
    the size are as before. *)
Theorem increase_key_changes_one_priority (q : Queue) (id : string) (np : Z)
    (t : Task) :
  reachable q → resident q id t → priority t ≤ np →
  ∃ q' rest,
    increase_key id np q = (Ok tt, q') ∧
    _heap q ≡ₚ t :: rest ∧
    _heap q' ≡ₚ set_priority t np :: rest ∧
    dom (_pos q') = dom (_pos q) ∧
    length (_heap q') = length (_heap q).
Proof.
  intros Hq Hres Hle. pose proof (reachable_wf q Hq) as Hwf.
  destruct (resident_slot q id t (proj1 Hwf) Hres) as (i & Hp & Hi).
  destruct (increase_key_spec q id np i t Hwf Hp Hi Hle)
    as (q' & k & Hrun & Hwf' & Hperm & _).
  destruct (lookup_split_insert (_heap q) i t Hi) as (rest & Hsplit & Hins).
  exists q', rest. split_and!; try done.
  - by rewrite Hperm, Hins.
  - rewrite (pos_ok_dom q') by apply Hwf'.
    rewrite (pos_ok_dom q) by apply Hwf.
    apply set_eq. intros x. rewrite !elem_of_list_to_set.
    by rewrite Hperm, Hins, Hsplit.
  - by rewrite Hperm, length_insert.
Qed.

Lemma demo_queue_resident_C :
  resident demo_queue "C" (mkTask "C" 5 1 (Some 8) "").
Proof.
  split; [|reflexivity]. rewrite demo_queue_heap.
  do 2 apply list_elem_of_further. apply list_elem_of_here.
Qed.

Lemma increase_key_changes_one_priority_witness :
  ∃ q' rest,
    increase_key "C" 11 demo_queue = (Ok tt, q') ∧
    _heap demo_queue ≡ₚ mkTask "C" 5 1 (Some 8) "" :: rest ∧
    _heap q' ≡ₚ set_priority (mkTask "C" 5 1 (Some 8) "") 11 :: rest ∧
    dom (_pos q') = dom (_pos demo_queue) ∧
    length (_heap q') = length (_heap demo_queue).
Proof.
  apply (increase_key_changes_one_priority demo_queue "C" 11 _
           demo_queue_reachable demo_queue_resident_C).
  simpl. lia.
Defined.

(** X4. A successful [decrease_key] changes the priority of the named task
    and nothing else: the other resident tasks, the ids of the index and
    the size are as before. *)
Theorem decrease_key_changes_one_priority (q : Queue) (id : string) (np : Z)
    (t : Task) :
  reachable q → resident q id t → np ≤ priority t →
  ∃ q' rest,
    decrease_key id np q = (Ok tt, q') ∧
    _heap q ≡ₚ t :: rest ∧
    _heap q' ≡ₚ set_priority t np :: rest ∧
    dom (_pos q') = dom (_pos q) ∧
    length (_heap q') = length (_heap q).
Proof.
  intros Hq Hres Hle. pose proof (reachable_wf q Hq) as Hwf.
  destruct (resident_slot q id t (proj1 Hwf) Hres) as (i & Hp & Hi).
  destruct (decrease_key_spec q id np i t Hwf Hp Hi Hle)
    as (q' & k & Hrun & Hwf' & Hperm & _).
  destruct (lookup_split_insert (_heap q) i t Hi) as (rest & Hsplit & Hins).
  exists q', rest. split_and!; try done.
  - by rewrite Hperm, Hins.
  - rewrite (pos_ok_dom q') by apply Hwf'.
    rewrite (pos_ok_dom q) by apply Hwf.
    apply set_eq. intros x. rewrite !elem_of_list_to_set.
    by rewrite Hperm, Hins, Hsplit.
  - by rewrite Hperm, length_insert.
Qed.

Lemma decrease_key_changes_one_priority_witness :
  ∃ q' rest,
    decrease_key "C" 0 demo_queue = (Ok tt, q') ∧
    _heap demo_queue ≡ₚ mkTask "C" 5 1 (Some 8) "" :: rest ∧
    _heap q' ≡ₚ set_priority (mkTask "C" 5 1 (Some 8) "") 0 :: rest ∧
    dom (_pos q') = dom (_pos demo_queue) ∧
    length (_heap q') = length (_heap demo_queue).
Proof.
  apply (decrease_key_changes_one_priority demo_queue "C" 0 _
           demo_queue_reachable demo_queue_resident_C).
  simpl. lia.
Defined.

(** X5. Calling [increase_key] or [decrease_key] with the priority the task
    already has succeeds and leaves the heap store and the index exactly as
    they were. *)
Theorem key_mutation_same_priority_noop (q : Queue) (id : string) (t : Task) :
  reachable q → resident q id t →
  increase_key id (priority t) q = (Ok tt, q) ∧
  decrease_key id (priority t) q = (Ok tt, q).
Proof.
  intros Hq Hres. pose proof (reachable_wf q Hq) as Hwf.
  destruct (resident_slot q id t (proj1 Hwf) Hres) as (i & Hp & Hi).
  destruct q as [h p]. cbn [_heap _pos] in *.
  pose proof (lookup_lt_Some _ _ _ Hi) as Hlt.
  assert (heap_set i (set_priority t (priority t))
            {| _heap := h; _pos := p |} =
          (Ok tt, {| _heap := h; _pos := p |})) as Hset.
  { unfold heap_set. cbn [_heap _pos].
    destruct (Nat.ltb_spec i (length h)); [|lia].
    by rewrite set_priority_same, list_insert_id. }
  split.
  - unfold increase_key, bind at 1, pos_mem. cbn [_pos].
    rewrite bool_decide_eq_true_2 by (rewrite Hp; eauto). cbn [negb].
    unfold bind at 1, pos_get. cbn [_pos]. rewrite Hp.
    rewrite (bind_run _ _ _ _ _ (heap_get_run h p i t Hi)).
    rewrite Z.ltb_irrefl.
    rewrite (bind_run _ _ _ _ _ (heap_get_run h p i t Hi)).
    rewrite (bind_run _ _ _ _ _ Hset).
    by apply sift_up_noop.
  - unfold decrease_key, bind at 1, pos_mem. cbn [_pos].
    rewrite bool_decide_eq_true_2 by (rewrite Hp; eauto). cbn [negb].
    unfold bind at 1, pos_get. cbn [_pos]. rewrite Hp.
    rewrite (bind_run _ _ _ _ _ (heap_get_run h p i t Hi)).
    rewrite Z.gtb_ltb, Z.ltb_irrefl.
    rewrite (bind_run _ _ _ _ _ (heap_get_run h p i t Hi)).
    rewrite (bind_run _ _ _ _ _ Hset).
    by apply sift_down_noop.
Qed.

Lemma key_mutation_same_priority_noop_witness :
  increase_key "C" 5 demo_queue = (Ok tt, demo_queue) ∧
  decrease_key "C" 5 demo_queue = (Ok tt, demo_queue).
Proof.
  exact (key_mutation_same_priority_noop demo_queue "C" _
           demo_queue_reachable demo_queue_resident_C).
Defined.

(** X6. Raising a resident task's priority above the priority of every
    resident task makes it the maximum: after the [increase_key],
    [peek_max] returns that task with its new priority. *)
Theorem increase_key_to_top (q : Queue) (id : string) (np : Z) (t : Task) :
  reachable q → resident q id t →
  (∀ u, u ∈ _heap q → priority u < np) →
  ∃ q', increase_key id np q = (Ok tt, q') ∧
        peek_max q' = (Ok (set_priority t np), q').
Proof.
  intros Hq Hres Hall. pose proof (reachable_wf q Hq) as Hwf.
  destruct (resident_slot q id t (proj1 Hwf) Hres) as (i & Hp & Hi).
  assert (priority t ≤ np) as Hle.
  { specialize (Hall t (proj1 Hres)). lia. }
  destruct (increase_key_spec q id np i t Hwf Hp Hi Hle)
    as (q' & k & Hrun & Hwf' & Hperm & _).
  destruct (lookup_split_insert (_heap q) i t Hi) as (rest & Hsplit & Hins).
  exists q'. split; [done|].
  apply peek_max_root, root_unique; [done| |].
  - rewrite Hperm, Hins. apply list_elem_of_here.
  - intros u Hu Hne. rewrite Hperm, Hins in Hu.
    apply elem_of_cons in Hu as [->|Hu]; [done|].
    apply hp_unfold. left. simpl. apply Hall.
    rewrite Hsplit. by apply list_elem_of_further.
Qed.

Lemma increase_key_to_top_witness :
  ∃ q', increase_key "C" 11 demo_queue = (Ok tt, q') ∧
        peek_max q' = (Ok (set_priority (mkTask "C" 5 1 (Some 8) "") 11), q').
Proof.
  apply (increase_key_to_top demo_queue "C" 11 _
           demo_queue_reachable demo_queue_resident_C).
  intros u Hu. rewrite demo_queue_heap in Hu.
  repeat (apply elem_of_cons in Hu as [->|Hu]; [simpl; lia|]).
  by apply elem_of_nil in Hu.
Defined.

(** X7. In every reachable state the index has exactly as many entries as
    the heap store has tasks: [__len__] is the number of indexed ids, and
    [is_empty] holds exactly when no id is indexed. *)
Theorem len_counts_index (q : Queue) :
  reachable q →
  len q = (Ok (size (_pos q)), q) ∧
  is_empty q = (Ok (bool_decide (_pos q = ∅)), q).
Proof.
  intros Hq. pose proof (reachable_wf q Hq) as [Hok _].
  pose proof (pos_ok_size q Hok) as Hsize. split.
  - unfold len, heap_len. by rewrite Hsize.
  - unfold is_empty, bind, heap_len, ret. do 2 f_equal.
    rewrite <- Hsize. destruct (decide (_pos q = ∅)) as [E|E].
    + rewrite bool_decide_eq_true_2 by done. by rewrite E, map_size_empty.
    + rewrite bool_decide_eq_false_2 by done.
      apply Nat.eqb_neq. by rewrite map_size_empty_iff.
Qed.

Lemma len_counts_index_witness :
  len demo_queue = (Ok (size (_pos demo_queue)), demo_queue) ∧
  is_empty demo_queue = (Ok (bool_decide (_pos demo_queue = ∅)), demo_queue).
Proof. exact (len_counts_index demo_queue demo_queue_reachable). Defined.

(** * Further properties of the driver *)

Lemma in_horizon_all (tasks : list Task) (max_time : Z) :
  Forall (λ x, 0 ≤ arrival_time x ≤ max_time) tasks →
  in_horizon tasks max_time = tasks.
Proof.
  unfold in_horizon. induction 1 as [|x l Hx _ IH]; [done|].
  rewrite filter_cons_True by done. by rewrite IH.
Qed.

(** X8. The driver never idles while a task is pending: when
    [simulate_scheduler] returns a timeline with no entry for a time [t] of
    the horizon, every input task that has arrived by [t] (from time 0 on)
    was executed at an earlier time. *)
Theorem simulate_work_conserving (tasks : list Task) (max_time : Z)
    (tl : list (Z * Task)) :
  simulate_scheduler tasks max_time = Ok tl →
  ∀ t x, 0 ≤ t ≤ max_time → t ∉ tl.*1 →
         x ∈ tasks → 0 ≤ arrival_time x ≤ t →
         ∃ s, (s, x) ∈ tl ∧ s < t.
Proof.
  unfold simulate_scheduler. intros Hrun t x Ht Hnin Hx Hat.
  destruct (simulate_run tasks max_time) as [r q'] eqn:E.
  simpl in Hrun. subst r.
  apply (simulate_work tasks max_time tl q' E t x); [lia|done|].
  apply arrivals_elem. split; [done|lia].
Qed.

Lemma simulate_work_conserving_witness :
  ∃ s, (s, mkTask "E" 1 3 (Some 12) "") ∈
         [ (0, mkTask "A" 3 0 (Some 10) ""); (1, mkTask "B" 10 1 (Some 3) "");
           (2, mkTask "D" 10 2 (Some 5) ""); (3, mkTask "C" 5 1 (Some 8) "");
           (4, mkTask "E" 1 3 (Some 12) "") ] ∧ s < 5.
Proof.
  apply (simulate_work_conserving demo_tasks 6 _ demo_run 5).
  - lia.
  - simpl. intros Hin.
    repeat (apply elem_of_cons in Hin as [Hin|Hin]; [discriminate Hin|]).
    by apply elem_of_nil in Hin.
  - do 4 apply list_elem_of_further. apply list_elem_of_here.
  - simpl. lia.
Defined.

(** X9. With a long enough horizon every task is executed: if the ids are
    pairwise distinct and every task arrives at a time [a >= 0] with
    [a + n - 1 <= max_time], where [n] is the number of tasks, then the
    tasks of the returned timeline are exactly the input tasks. *)
Theorem simulate_executes_all (tasks : list Task) (max_time : Z) :
  NoDup (task_id <$> tasks) →
  Forall (λ x, 0 ≤ arrival_time x ∧
               arrival_time x + Z.of_nat (length tasks) ≤ max_time + 1) tasks →
  ∃ tl, simulate_scheduler tasks max_time = Ok tl ∧ tl.*2 ≡ₚ tasks.
Proof.
  intros Hnd Hall. rewrite Forall_forall in Hall.
  destruct (simulate_cases tasks max_time)
    as [(tl & q' & Hrun & _ & Hcont & Hok & Htimes & _)|(_ & _ & Hdup)];
    [|done].
  exists tl. split; [unfold simulate_scheduler; by rewrite Hrun|].
  assert (in_horizon tasks max_time = tasks) as Hhor.
  { apply in_horizon_all, Forall_forall. intros x Hx.
    specialize (Hall x Hx). simpl in Hall.
    assert (0 < length tasks)%nat
      by (destruct tasks; [by apply elem_of_nil in Hx|simpl; lia]).
    lia. }
  rewrite Hhor in Hcont.
  set (n := length tasks) in *.
  set (A := max_time + 1 - Z.of_nat n).
  pose proof (simulate_work tasks max_time tl q' Hrun) as Hwork.
  pose proof (timeline_ok_sorted tasks tl Hok) as Hsorted.
  destruct (decide (Forall (λ t, t ∈ tl.*1) (seqZ A (Z.of_nat n))))
    as [Hfull|Hidle].
  - (* an entry at each of the last [n] rounds *)
    assert (n ≤ length tl)%nat as Hlen.
    { rewrite Forall_forall in Hfull.
      pose proof (NoDup_submseteq _ (tl.*1) (NoDup_seqZ A (Z.of_nat n)) Hfull)
        as Hsub.
      apply submseteq_length in Hsub.
      rewrite length_seqZ, length_fmap in Hsub. lia. }
    assert (length (_heap q') + length tl = n)%nat as Hsum.
    { unfold n. rewrite <- Hcont, length_app, length_fmap. done. }
    assert (_heap q' = []) as Hnil
      by (destruct (_heap q'); [done|simpl in Hsum; lia]).
    by rewrite Hnil in Hcont.
  - (* an idle round among them: nothing was pending *)
    apply not_Forall_Exists in Hidle; [|apply _].
    apply Exists_exists in Hidle as (t & Ht & Hnin).
    apply elem_of_seqZ in Ht.
    apply (anti_symm submseteq).
    + rewrite <- Hcont. apply submseteq_inserts_l. done.
    + apply NoDup_submseteq; [by eapply NoDup_fmap_1|].
      intros x Hx. specialize (Hall x Hx). simpl in Hall.
      destruct (Hwork t x) as (s & Hin & _); [unfold A in Ht; lia|done| |].
      * apply arrivals_elem. split; [done|]. unfold A in Ht. lia.
      * apply list_elem_of_fmap. by exists (s, x).
Qed.

Lemma simulate_executes_all_witness :
  ∃ tl, simulate_scheduler demo_tasks 7 = Ok tl ∧ tl.*2 ≡ₚ demo_tasks.
Proof.
  apply (simulate_executes_all demo_tasks 7).
  - compute_done.
  - repeat constructor; simpl; lia.
Defined.

(** The bound is the one the code needs: three tasks arriving together are
    not all executed when the horizon is one round short. *)
Example simulate_horizon_too_short :
  simulate_scheduler
    [ mkTask "a" 1 0 None ""; mkTask "b" 2 0 None ""; mkTask "c" 3 0 None "" ]
    1 = Ok [ (0, mkTask "c" 3 0 None ""); (1, mkTask "b" 2 0 None "") ].
Proof. vm_compute. reflexivity. Qed.

(** * [heapsort.py] *)

(** ** Running the array primitives *)

Lemma sbind_run {S A B} (m : SM S A) (k : A → SM S B) (s s' : S) (a : A) :
  m s = (Ok a, s') → sbind m k s = k a s'.
Proof. unfold sbind. by intros ->. Qed.

Lemma sbind_raise {S A B} (m : SM S A) (k : A → SM S B) (s s' : S) (e : exn) :
  m s = (Raise e, s') → sbind m k s = (Raise e, s').
Proof. unfold sbind. by intros ->. Qed.

Lemma a_get_run (a : list Z) (i : nat) (v : Z) :
  a !! i = Some v → a_get i a = (Ok v, a).
Proof. unfold a_get. by intros ->. Qed.

Lemma a_set_run (a : list Z) (i : nat) (v : Z) :
  (i < length a)%nat → a_set i v a = (Ok tt, <[i:=v]> a).
Proof.
  intros Hi. unfold a_set. by destruct (Nat.ltb_spec i (length a)); [|lia].
Qed.

Section list_swap.

Local Open Scope nat_scope.
Context {A : Type}.
Implicit Types (l : list A) (x y : A).

Lemma list_swap_lookup l i j x y k :
  l !! i = Some x → l !! j = Some y → i ≠ j →
  list_swap l i j x y !! k =
    if decide (k = j) then Some x
    else if decide (k = i) then Some y else l !! k.
Proof.
  intros Hi Hj Hne. unfold list_swap.
  apply lookup_lt_Some in Hi, Hj.
  destruct (decide (k = j)) as [->|Hkj].
  - rewrite list_lookup_insert_eq; [done|]. by rewrite length_insert.
  - rewrite list_lookup_insert_ne by done.
    destruct (decide (k = i)) as [->|Hki].
    + by rewrite list_lookup_insert_eq.
    + by rewrite list_lookup_insert_ne.
Qed.

Lemma list_swap_length l i j x y : length (list_swap l i j x y) = length l.
Proof. unfold list_swap. by rewrite !length_insert. Qed.

Lemma list_swap_perm l i j x y :
  l !! i = Some x → l !! j = Some y → i ≠ j → list_swap l i j x y ≡ₚ l.
Proof.
  intros Hi Hj Hne.
  pose proof (lookup_lt_Some _ _ _ Hi) as Hil.
  pose proof (lookup_lt_Some _ _ _ Hj) as Hjl.
  unfold list_swap.
  (* take out slot [i], then slot [j]: the same rest either way *)
  destruct (lookup_split_insert l i x Hi) as (r1 & Hl & Hins).
  assert (<[i:=y]> l !! j = Some y) as Hj' by by rewrite list_lookup_insert_ne.
  destruct (lookup_split_insert (<[i:=y]> l) j y Hj') as (r2 & Hl2 & Hins2).
  rewrite (Hins2 x), Hl. constructor.
  apply (Permutation_cons_inv (a := y)).
  by rewrite <- Hl2, Hins.
Qed.

End list_swap.

Lemma a_swap_run (a : list Z) (i j : nat) (x y : Z) :
  a !! i = Some x → a !! j = Some y →
  a_swap i j a = (Ok tt, list_swap a i j x y).
Proof.
  intros Hi Hj. unfold a_swap.
  rewrite (sbind_run _ _ _ _ _ (a_get_run a j y Hj)).
  rewrite (sbind_run _ _ _ _ _ (a_get_run a i x Hi)).
  rewrite (sbind_run _ _ _ _ _
             (a_set_run a i y (lookup_lt_Some _ _ _ Hi))).
  apply a_set_run. rewrite length_insert. by eapply lookup_lt_Some.
Qed.

(** ** [_sift_down] *)

Section hs_sift_down.

Local Open Scope nat_scope.
Implicit Types (a : list Z).

Lemma hs_sift_down_loop_fuel (fuel fuel' root end_ : nat) a :
  end_ - root ≤ fuel → end_ - root ≤ fuel' →
  Heapsort.sift_down_loop fuel root end_ a =
  Heapsort.sift_down_loop fuel' root end_ a.
Proof.
  revert fuel' root a.
  induction fuel as [|fuel IH]; intros [|fuel'] root a Hf Hf';
    cbn [Heapsort.sift_down_loop]; try done.
  - destruct (Nat.ltb_spec end_ (2 * root + 1)); [done|lia].
  - destruct (Nat.ltb_spec end_ (2 * root + 1)); [done|lia].
  - destruct (Nat.ltb_spec end_ (2 * root + 1)) as [|Hn]; [done|].
    unfold sbind.
    destruct (2 * root + 1 + 1 <=? end_).
    + destruct (a_get (2 * root + 1 + 1) a) as [[r|e] a1]; [|done].
      destruct (a_get (2 * root + 1) a1) as [[l|e] a2]; [|done].
      unfold sret. destruct (r >? l)%Z.
      * destruct (a_get (2 * root + 1 + 1) a2) as [[c|e] a3]; [|done].
        destruct (a_get root a3) as [[v|e] a4]; [|done].
        destruct (c >? v)%Z; [|done].
        destruct (a_swap root (2 * root + 1 + 1) a4) as [[[]|e] a5]; [|done].
        apply IH; lia.
      * destruct (a_get (2 * root + 1) a2) as [[c|e] a3]; [|done].
        destruct (a_get root a3) as [[v|e] a4]; [|done].
        destruct (c >? v)%Z; [|done].
        destruct (a_swap root (2 * root + 1) a4) as [[[]|e] a5]; [|done].
        apply IH; lia.
    + unfold sret.
      destruct (a_get (2 * root + 1) a) as [[c|e] a3]; [|done].
      destruct (a_get root a3) as [[v|e] a4]; [|done].
      destruct (c >? v)%Z; [|done].
      destruct (a_swap root (2 * root + 1) a4) as [[[]|e] a5]; [|done].
      apply IH; lia.
Qed.

(** The loop equation of the source's [while True]. *)
Lemma hs_sift_down_eq (root end_ : nat) a :
  Heapsort._sift_down root end_ a =
    (let left := 2 * root + 1 in
     if end_ <? left then sret tt
     else
       let right := left + 1 in
       child <~ (if right <=? end_
                 then (r <~ a_get right ;;
                       l <~ a_get left ;;
                       sret (if (r >? l)%Z then right else left))
                 else sret left) ;;
       c <~ a_get child ;;
       r <~ a_get root ;;
       if (c >? r)%Z
       then (a_swap root child ;;~ Heapsort._sift_down child end_)
       else sret tt) a.
Proof.
  unfold Heapsort._sift_down. cbn zeta.
  destruct (Nat.ltb_spec end_ (2 * root + 1)) as [Hn|Hn].
  { destruct (end_ - root); cbn [Heapsort.sift_down_loop]; [done|].
    destruct (Nat.ltb_spec end_ (2 * root + 1)); [done|lia]. }
  destruct (end_ - root) as [|fuel] eqn:Hfuel; [lia|].
  cbn [Heapsort.sift_down_loop].
  destruct (Nat.ltb_spec end_ (2 * root + 1)) as [|_]; [lia|].
  unfold sbind.
  destruct (2 * root + 1 + 1 <=? end_).
  - destruct (a_get (2 * root + 1 + 1) a) as [[r|e] a1]; [|done].
    destruct (a_get (2 * root + 1) a1) as [[l|e] a2]; [|done].
    unfold sret. destruct (r >? l)%Z.
    + destruct (a_get (2 * root + 1 + 1) a2) as [[c|e] a3]; [|done].
      destruct (a_get root a3) as [[v|e] a4]; [|done].
      destruct (c >? v)%Z; [|done].
      destruct (a_swap root (2 * root + 1 + 1) a4) as [[[]|e] a5]; [|done].
      apply hs_sift_down_loop_fuel; lia.
    + destruct (a_get (2 * root + 1) a2) as [[c|e] a3]; [|done].
      destruct (a_get root a3) as [[v|e] a4]; [|done].
      destruct (c >? v)%Z; [|done].
      destruct (a_swap root (2 * root + 1) a4) as [[[]|e] a5]; [|done].
      apply hs_sift_down_loop_fuel; lia.
  - unfold sret.
    destruct (a_get (2 * root + 1) a) as [[c|e] a3]; [|done].
    destruct (a_get root a3) as [[v|e] a4]; [|done].
    destruct (c >? v)%Z; [|done].
    destruct (a_swap root (2 * root + 1) a4) as [[[]|e] a5]; [|done].
    apply hs_sift_down_loop_fuel; lia.
Qed.

(** The child the round selects is in range and at least its sibling. *)
Lemma hs_select a root hi :
  hi < length a → 2 * root + 1 ≤ hi →
  ∃ child vc,
    (if 2 * root + 1 + 1 <=? hi
     then (r <~ a_get (2 * root + 1 + 1) ;;
           l <~ a_get (2 * root + 1) ;;
           sret (if (r >? l)%Z then 2 * root + 1 + 1 else 2 * root + 1))
     else sret (2 * root + 1)) a = (Ok child, a) ∧
    is_child root child ∧ child ≤ hi ∧ a !! child = Some vc ∧
    ∀ c y, is_child root c → c ≤ hi → a !! c = Some y → (y ≤ vc)%Z.
Proof.
  intros Hhi Hleft.
  destruct (lookup_lt_is_Some_2 a (2 * root + 1)) as [l Hl]; [lia|].
  destruct (Nat.leb_spec (2 * root + 1 + 1) hi) as [Hr|Hr].
  - destruct (lookup_lt_is_Some_2 a (2 * root + 1 + 1)) as [r Hrr]; [lia|].
    rewrite (sbind_run _ _ _ _ _ (a_get_run a _ r Hrr)).
    rewrite (sbind_run _ _ _ _ _ (a_get_run a _ l Hl)). unfold sret.
    destruct (Z.gtb_spec r l) as [Hgt|Hle].
    + exists (2 * root + 1 + 1), r. split_and!; try done; [right; lia|].
      intros c y [->| ->] _ Hy.
      * assert (y = l) by congruence. lia.
      * replace (2 * root + 2) with (2 * root + 1 + 1) in Hy by lia.
        assert (y = r) by congruence. lia.
    + exists (2 * root + 1), l. split_and!; try done; [by left|].
      intros c y [->| ->] _ Hy.
      * assert (y = l) by congruence. lia.
      * replace (2 * root + 2) with (2 * root + 1 + 1) in Hy by lia.
        assert (y = r) by congruence. lia.
  - exists (2 * root + 1), l. split_and!; try done; [by left|].
    intros c y [->| ->] Hc Hy; [|lia].
    assert (y = l) by congruence. lia.
Qed.

Lemma heap_between_sd_inv a lo hi :
  heap_between a (S lo) hi → sd_inv a lo hi lo.
Proof.
  intros Hh. split.
  - intros i c x y Hi Hne. apply Hh. lia.
  - intros c x y Hpos Hpar. pose proof (parent_lt lo Hpos). lia.
Qed.

Lemma sd_inv_leaf a lo hi root :
  hi < 2 * root + 1 → sd_inv a lo hi root → heap_between a lo hi.
Proof.
  intros Hleaf [Ha _] i c x y Hi Hc Hhi.
  apply (Ha i c x y); try done. intros ->. unfold is_child in Hc. lia.
Qed.

Lemma sd_inv_done a lo hi root child vc vr :
  sd_inv a lo hi root →
  a !! child = Some vc → a !! root = Some vr →
  (∀ c y, is_child root c → c ≤ hi → a !! c = Some y → (y ≤ vc)%Z) →
  (vc ≤ vr)%Z → heap_between a lo hi.
Proof.
  intros [Ha _] Hvc Hvr Hbest Hle i c x y Hi Hc Hhi Hx Hy.
  destruct (decide (i = root)) as [->|Hne]; [|by eapply Ha].
  assert (x = vr) by congruence. subst x.
  specialize (Hbest c y Hc Hhi Hy). lia.
Qed.

Lemma sd_inv_swap a lo hi root child vc vr :
  lo ≤ root → sd_inv a lo hi root →
  is_child root child → child ≤ hi →
  a !! child = Some vc → a !! root = Some vr →
  (∀ c y, is_child root c → c ≤ hi → a !! c = Some y → (y ≤ vc)%Z) →
  (vr < vc)%Z →
  sd_inv (list_swap a root child vr vc) lo hi child.
Proof.
  intros Hlo [Ha Hb] Hch Hchi Hvc Hvr Hbest Hlt.
  destruct (is_child_parent _ _ Hch) as [Hpc Hrc].
  split.
  - intros i c x y Hi Hne Hc Hhi.
    rewrite !list_swap_lookup by (done || lia).
    destruct (is_child_parent _ _ Hc) as [Hpi Hic].
    rewrite (decide_False (P := i = child)) by done.
    destruct (decide (i = root)) as [->|Hir].
    + intros [= <-]. destruct (decide (c = child)) as [->|Hcc].
      * intros [= <-]. lia.
      * rewrite decide_False by lia. intros Hy. by eapply Hbest.
    + intros Hx. destruct (decide (c = child)) as [->|Hcc]; [lia|].
      destruct (decide (c = root)) as [->|Hcr].
      * intros [= <-]. eapply (Hb child x vc); eauto; try lia.
        congruence.
      * intros Hy. by eapply (Ha i c x y).
  - intros c x y _ _ Hc Hhi.
    rewrite !list_swap_lookup by (done || lia).
    destruct (is_child_parent _ _ Hc) as [Hpi Hic].
    rewrite Hpc.
    rewrite (decide_False (P := root = child)) by lia.
    rewrite (decide_True (P := root = root)) by done.
    rewrite (decide_False (P := c = child)) by lia.
    rewrite (decide_False (P := c = root)) by lia.
    intros [= <-] Hy. eapply (Ha child c vc y); eauto; lia.
Qed.

Lemma hs_sift_down_loop_spec (fuel : nat) : ∀ root a lo hi,
  hi - root ≤ fuel → lo ≤ root → root ≤ hi → hi < length a →
  sd_inv a lo hi root →
  ∃ a', Heapsort.sift_down_loop fuel root hi a = (Ok tt, a') ∧
        heap_between a' lo hi ∧ a' ≡ₚ a ∧ length a' = length a ∧
        ∀ k, k < lo ∨ hi < k → a' !! k = a !! k.
Proof.
  induction fuel as [|fuel IH]; intros root a lo hi Hf Hlo Hroot Hhi Hinv;
    cbn [Heapsort.sift_down_loop]; cbn zeta.
  { exists a. split_and!; try done. eapply sd_inv_leaf; [|done]. lia. }
  destruct (Nat.ltb_spec hi (2 * root + 1)) as [Hleaf|Hleft].
  { exists a. split_and!; try done. by eapply sd_inv_leaf. }
  destruct (hs_select a root hi Hhi Hleft)
    as (child & vc & Hsel & Hch & Hchi & Hvc & Hbest).
  rewrite (sbind_run _ _ _ _ _ Hsel).
  destruct (lookup_lt_is_Some_2 a root) as [vr Hvr]; [lia|].
  rewrite (sbind_run _ _ _ _ _ (a_get_run a child vc Hvc)).
  rewrite (sbind_run _ _ _ _ _ (a_get_run a root vr Hvr)).
  destruct (is_child_parent _ _ Hch) as [Hpc Hrc].
  destruct (Z.gtb_spec vc vr) as [Hgt|Hle].
  - rewrite (sbind_run _ _ _ _ _ (a_swap_run a root child vr vc Hvr Hvc)).
    destruct (IH child (list_swap a root child vr vc) lo hi)
      as (a' & Hrun & Hheap & Hperm & Hlen & Hout).
    + lia.
    + lia.
    + done.
    + by rewrite list_swap_length.
    + eapply sd_inv_swap; eauto; lia.
    + exists a'. split_and!; try done.
      * rewrite Hperm. apply list_swap_perm; (done || lia).
      * by rewrite Hlen, list_swap_length.
      * intros k Hk. rewrite (Hout k Hk).
        rewrite list_swap_lookup by (done || lia).
        rewrite !decide_False by lia. done.
  - exists a. split_and!; try done.
    by eapply (sd_inv_done a lo hi root child vc vr).
Qed.

Lemma hs_sift_down_spec start end_ a :
  start ≤ end_ → end_ < length a →
  heap_between a (S start) end_ →
  ∃ a', Heapsort._sift_down start end_ a = (Ok tt, a') ∧
        heap_between a' start end_ ∧ a' ≡ₚ a ∧ length a' = length a ∧
        ∀ k, k < start ∨ end_ < k → a' !! k = a !! k.
Proof.
  intros Hse Hend Hh. apply hs_sift_down_loop_spec; try done.
  by apply heap_between_sd_inv.
Qed.

End hs_sift_down.

(** ** [_build_max_heap] and [heapsort] *)

Section hs_sort.

Local Open Scope nat_scope.
Implicit Types (a : list Z).

(** In a heap on [0..hi] slot 0 holds a maximum of the slots [0..hi]. *)
Lemma hs_root_max a hi x0 :
  heap_between a 0 hi → a !! 0 = Some x0 →
  ∀ k y, k ≤ hi → a !! k = Some y → (y ≤ x0)%Z.
Proof.
  intros Hh H0 k. induction (lt_wf k) as [k _ IH]. intros y Hk Hy.
  destruct (decide (k = 0)) as [->|Hne].
  { assert (y = x0) by congruence. lia. }
  assert (is_child (parent k) k) as Hc by (apply parent_spec; [lia|done]).
  destruct (is_child_parent _ _ Hc) as [_ Hlt].
  destruct (lookup_lt_is_Some_2 a (parent k)) as [v Hv].
  { apply lookup_lt_Some in Hy. lia. }
  pose proof (Hh (parent k) k v y ltac:(lia) Hc Hk Hv Hy).
  pose proof (IH (parent k) Hlt v ltac:(lia) Hv). lia.
Qed.

Lemma hs_build_loop (hi k : nat) : ∀ a,
  k ≤ S hi → hi < length a → heap_between a k hi →
  ∃ a', sfor (rev (seq 0 k)) (λ i, Heapsort._sift_down i hi) a = (Ok tt, a') ∧
        heap_between a' 0 hi ∧ a' ≡ₚ a ∧ length a' = length a ∧
        ∀ j, hi < j → a' !! j = a !! j.
Proof.
  induction k as [|k IH]; intros a Hk Hhi Hh.
  - exists a. by split_and!.
  - rewrite seq_S, rev_unit. cbn [sfor plus].
    destruct (hs_sift_down_spec k hi a) as (a1 & Hrun1 & Hh1 & Hp1 & Hl1 & Ho1);
      [lia|done|done|].
    rewrite (sbind_run _ _ _ _ _ Hrun1).
    destruct (IH a1) as (a' & Hrun & Hh' & Hp & Hl & Ho); [lia|lia|done|].
    exists a'. split_and!; try done.
    + by rewrite Hp.
    + lia.
    + intros j Hj. rewrite (Ho j Hj). apply Ho1. by right.
Qed.

Lemma hs_build_spec a :
  ∃ a', Heapsort._build_max_heap a = (Ok tt, a') ∧
        heap_between a' 0 (length a - 1) ∧ a' ≡ₚ a ∧ length a' = length a.
Proof.
  unfold Heapsort._build_max_heap, sbind at 1, a_len.
  destruct a as [|x a].
  { exists []. by split_and!. }
  set (n := length (x :: a)).
  assert (0 < n) as Hn by (unfold n; simpl; lia).
  pose proof (Nat.div_mod_eq n 2) as Hdm.
  pose proof (Nat.mod_upper_bound n 2) as Hub.
  destruct (hs_build_loop (n - 1) (n / 2) (x :: a))
    as (a' & Hrun & Hh & Hp & Hl & _).
  - lia.
  - fold n. lia.
  - intros i c u v Hi Hc Hhi. unfold is_child in Hc. lia.
  - exists a'. by split_and!.
Qed.

(** What is left of the prefix [0..m] when the slots after [m] are kept. *)
Lemma prefix_elem a1 a2 m i x :
  a2 ≡ₚ a1 → (∀ k, m < k → a2 !! k = a1 !! k) →
  i ≤ m → a2 !! i = Some x → ∃ k, k ≤ m ∧ a1 !! k = Some x.
Proof.
  intros Hperm Hout Hi Hx.
  assert (drop (S m) a2 = drop (S m) a1) as Hdrop.
  { apply list_eq. intros k. rewrite !lookup_drop. apply Hout. lia. }
  assert (take (S m) a2 ≡ₚ take (S m) a1) as Htake.
  { apply (Permutation_app_inv_r (drop (S m) a1)).
    rewrite <- Hdrop at 1. by rewrite !take_drop. }
  assert (x ∈ take (S m) a1) as Hin.
  { rewrite <- Htake. apply list_elem_of_lookup. exists i.
    rewrite lookup_take_lt by lia. done. }
  apply list_elem_of_lookup in Hin as [k Hk].
  apply lookup_take_Some in Hk as [Hk Hlt]. exists k. split; [lia|done].
Qed.

Lemma hs_sort_loop (m : nat) : ∀ a,
  m < length a → heap_between a 0 m → suffix_ok a m →
  ∃ a', sfor (rev (seq 1 m))
          (λ end_, a_swap 0 end_ ;;~ Heapsort._sift_down 0 (end_ - 1)) a
        = (Ok tt, a') ∧
        a' ≡ₚ a ∧ length a' = length a ∧ suffix_ok a' 0.
Proof.
  induction m as [|m IH]; intros a Hm Hh [Hs1 Hs2].
  - exists a. by split_and!.
  - rewrite seq_S, rev_unit. cbn [sfor plus].
    replace (S m - 1) with m by lia.
    destruct (lookup_lt_is_Some_2 a 0) as [x0 H0]; [lia|].
    destruct (lookup_lt_is_Some_2 a (S m) Hm) as [xe He].
    set (a1 := list_swap a 0 (S m) x0 xe).
    assert (∀ k, a1 !! k = if decide (k = S m) then Some x0
                           else if decide (k = 0) then Some xe else a !! k)
      as Hlk by (intros k; by apply list_swap_lookup).
    pose proof (hs_root_max a (S m) x0 Hh H0) as Hmax.
    destruct (hs_sift_down_spec 0 m a1) as (a2 & Hrun2 & Hh2 & Hp2 & Hl2 & Ho2).
    { lia. }
    { unfold a1. rewrite list_swap_length. lia. }
    { intros i c u v Hi Hc Hcm. rewrite !Hlk.
      destruct (is_child_parent _ _ Hc) as [_ Hic].
      rewrite !decide_False by lia. apply Hh; (done || lia). }
    assert ((a_swap 0 (S m) ;;~ Heapsort._sift_down 0 m) a = (Ok tt, a2))
      as Hbody.
    { by rewrite (sbind_run _ _ _ _ _ (a_swap_run a 0 (S m) x0 xe H0 He)). }
    rewrite (sbind_run _ _ _ _ _ Hbody).
    assert (∀ k y, k ≤ m → a1 !! k = Some y →
                   ∃ k', k' ≤ S m ∧ a !! k' = Some y) as Hpre.
    { intros k y Hk. rewrite Hlk. rewrite decide_False by lia.
      destruct (decide (k = 0)) as [->|Hk0].
      - intros [= <-]. exists (S m). by split.
      - intros Hy. exists k. split; [lia|done]. }
    destruct (IH a2) as (a' & Hrun & Hp & Hl & Hsuf).
    + rewrite Hl2. unfold a1. rewrite list_swap_length. lia.
    + done.
    + split.
      * intros i j x y Hi Hij.
        rewrite (Ho2 i) by (right; lia). rewrite (Ho2 j) by (right; lia).
        rewrite !Hlk. rewrite (decide_False (P := j = 0)) by lia.
        rewrite (decide_False (P := i = 0)) by lia.
        destruct (decide (i = S m)) as [->|Hne].
        -- intros [= <-]. destruct (decide (j = S m)) as [->|Hnj].
           ++ intros [= <-]. lia.
           ++ intros Hy. apply (Hs2 0 j x0 y); (done || lia).
        -- rewrite decide_False by lia. intros Hx Hy.
           apply (Hs1 i j x y); (done || lia).
      * intros i j x y Hi Hj Hx.
        rewrite (Ho2 j) by (right; lia). rewrite Hlk.
        rewrite (decide_False (P := j = 0)) by lia.
        destruct (prefix_elem a1 a2 m i x Hp2 ltac:(intros; apply Ho2; by right)
                    Hi Hx) as (k & Hk & Hak).
        destruct (Hpre k x Hk Hak) as (k' & Hk' & Hak').
        destruct (decide (j = S m)) as [->|Hnj].
        -- intros [= <-]. by apply (Hmax k' x).
        -- intros Hy. apply (Hs2 k' j x y); (done || lia).
    + exists a'. split_and!; try done.
      * rewrite Hp, Hp2. unfold a1. apply list_swap_perm; (done || lia).
      * rewrite Hl, Hl2. unfold a1. by rewrite list_swap_length.
Qed.

Lemma sorted_of_lookup (l : list Z) :
  (∀ i j x y, i ≤ j → l !! i = Some x → l !! j = Some y → (x ≤ y)%Z) →
  StronglySorted Z.le l.
Proof.
  induction l as [|x l IH]; intros H; [constructor|].
  constructor.
  - apply IH. intros i j u v Hij Hu Hv. apply (H (S i) (S j) u v); (done || lia).
  - apply Forall_forall. intros y Hy.
    apply list_elem_of_lookup in Hy as [k Hk].
    apply (H 0 (S k) x y); (done || lia).
Qed.

Lemma hs_heapsort_spec a :
  ∃ l, Heapsort.heapsort a = Ok l ∧ l ≡ₚ a ∧ StronglySorted Z.le l.
Proof.
  unfold Heapsort.heapsort, Heapsort.heapsort_body, sbind at 1, a_len.
  destruct (Nat.leb_spec (length a) 1) as [Hn|Hn].
  { exists a. split_and!; try done.
    destruct a as [|x [|y a]]; [constructor|repeat constructor|simpl in Hn; lia]. }
  destruct (hs_build_spec a) as (a1 & Hrun1 & Hh1 & Hp1 & Hl1).
  rewrite (sbind_run _ _ _ _ _ Hrun1).
  destruct (hs_sort_loop (length a - 1) a1) as (a' & Hrun & Hp & Hl & Hs1 & Hs2).
  - lia.
  - done.
  - split; intros i j x y Hi Hj Hx Hy.
    + apply lookup_lt_Some in Hx. lia.
    + apply lookup_lt_Some in Hy. lia.
  - rewrite Hrun. exists a'. split_and!; [done|by rewrite Hp|].
    apply sorted_of_lookup. intros i j x y Hij Hx Hy.
    destruct (decide (i = 0)) as [->|Hi].
    + destruct (decide (j = 0)) as [->|Hj].
      * assert (x = y) by congruence. lia.
      * apply (Hs2 0 j x y); (done || lia).
    + apply (Hs1 i j x y); (done || lia).
Qed.

End hs_sort.



(** X11. [_build_max_heap] raises nothing on any list and turns it, by
    permuting it, into a max-heap: every slot is at least each of its
    children, so slot 0 holds a maximum of the list. *)
Theorem build_max_heap_builds_heap (a : list Z) :
  ∃ a', Heapsort._build_max_heap a = (Ok tt, a') ∧ a' ≡ₚ a ∧
        (∀ i c x y, is_child i c → a' !! i = Some x → a' !! c = Some y →
                    y ≤ x) ∧
        (∀ x0 y, a' !! 0%nat = Some x0 → y ∈ a → y ≤ x0).
Proof.
  destruct (hs_build_spec a) as (a' & Hrun & Hh & Hp & Hl).
  exists a'. split_and!; try done.
  - intros i c x y Hc Hx Hy. apply (Hh i c x y); try done; [lia|].
    apply lookup_lt_Some in Hy. lia.
  - intros x0 y H0 Hy. rewrite <- Hp in Hy.
    apply list_elem_of_lookup in Hy as [k Hk].
    apply (hs_root_max a' (length a - 1) x0 Hh H0 k y); [|done].
    apply lookup_lt_Some in Hk. lia.
Qed.

(** X12. [heapsort] raises nothing on any list of integers and returns its
    elements in ascending order: the result is a permutation of the input
    in which every element is at most all later ones. *)
Theorem heapsort_sorts (a : list Z) :
  ∃ l, Heapsort.heapsort a = Ok l ∧ l ≡ₚ a ∧ StronglySorted Z.le l.
Proof. apply hs_heapsort_spec. Qed.

(** X13. The result of [heapsort] depends only on which integers the input
    holds and how often, not on their order, and sorting a sorted result
    again returns it unchanged. *)
Theorem heapsort_canonical (a b : list Z) :
  a ≡ₚ b →
  Heapsort.heapsort a = Heapsort.heapsort b ∧
  ∀ l, Heapsort.heapsort a = Ok l → Heapsort.heapsort l = Ok l.
Proof.
  intros Hab.
  destruct (hs_heapsort_spec a) as (la & Ha & Hpa & Hsa).
  destruct (hs_heapsort_spec b) as (lb & Hb & Hpb & Hsb).
  split.
  - rewrite Ha, Hb. f_equal.
    apply (StronglySorted_unique Z.le); [done|done|].
    by rewrite Hpa, Hpb.
  - intros l Hl. assert (l = la) as -> by congruence.
    destruct (hs_heapsort_spec la) as (l2 & H2 & Hp2 & Hs2).
    rewrite H2. f_equal.
    by apply (StronglySorted_unique Z.le).
Qed.

Lemma heapsort_canonical_witness :
  Heapsort.heapsort [3; 1; 2; 3] = Heapsort.heapsort [3; 3; 2; 1] ∧
  ∀ l, Heapsort.heapsort [3; 1; 2; 3] = Ok l → Heapsort.heapsort l = Ok l.
Proof.
  apply (heapsort_canonical [3; 1; 2; 3] [3; 3; 2; 1]). compute_done.
Defined.

(** The demo of the [__main__] block of [heapsort.py]. *)
Example heapsort_demo :
  Heapsort.heapsort [5; 1; 8; 3; 2; 9; 4] = Ok [1; 2; 3; 4; 5; 8; 9].
Proof. vm_compute. reflexivity. Qed.

(** * [mergesort] of [comparision.py] *)

(** ** Slices *)

Section slices.

Local Open Scope nat_scope.
Context {A : Type}.
Implicit Types (l : list A).

Lemma slice_lookup l a b p :
  slice l a b !! p = if decide (p < b - a) then l !! (a + p) else None.
Proof. unfold slice. rewrite lookup_take. by rewrite lookup_drop. Qed.

Lemma slice_nil l a b : b ≤ a → slice l a b = [].
Proof. intros H. unfold slice. by replace (b - a) with 0 by lia. Qed.

Lemma slice_cons l a b x :
  l !! a = Some x → a < b → slice l a b = x :: slice l (S a) b.
Proof.
  intros Hx Hab. apply list_eq. intros [|p]; cbn [lookup list_lookup].
  - rewrite slice_lookup. rewrite decide_True by lia.
    by rewrite Nat.add_0_r.
  - change ((x :: slice l (S a) b) !! S p) with (slice l (S a) b !! p).
    rewrite !slice_lookup.
    destruct (decide (S p < b - a)), (decide (p < b - S a)); try lia; [|done].
    f_equal. lia.
Qed.

Lemma slice_ext l l' a b :
  (∀ p, a ≤ p < b → l !! p = l' !! p) → slice l a b = slice l' a b.
Proof.
  intros H. apply list_eq. intros p. rewrite !slice_lookup.
  case_decide; [|done]. apply H. lia.
Qed.

Lemma length_slice l a b : b ≤ length l → length (slice l a b) = b - a.
Proof. intros H. unfold slice. rewrite length_take, length_drop. lia. Qed.

Lemma slice_app l a m b :
  a ≤ m → m ≤ b → b ≤ length l →
  slice l a b = slice l a m ++ slice l m b.
Proof.
  intros Ham Hmb Hb. apply list_eq. intros p.
  destruct (decide (p < m - a)) as [Hp|Hp].
  - rewrite lookup_app_l by (rewrite length_slice; lia).
    rewrite !slice_lookup. by rewrite !decide_True by lia.
  - rewrite lookup_app_r by (rewrite length_slice; lia).
    rewrite length_slice by lia. rewrite !slice_lookup.
    destruct (decide (p < b - a)), (decide (p - (m - a) < b - m)); try lia;
      [|done].
    f_equal. lia.
Qed.

Lemma slice_all l : slice l 0 (length l) = l.
Proof. unfold slice. by rewrite drop_0, Nat.sub_0_r, firstn_all. Qed.

Lemma slice_min l a b : slice l a b = slice l a (b `min` length l).
Proof.
  apply list_eq. intros p. rewrite !slice_lookup.
  destruct (decide (p < b - a)), (decide (p < b `min` length l - a));
    try done; try lia.
  apply lookup_ge_None. lia.
Qed.

End slices.

(** ** The inner loops *)

Section merge_loops.

Local Open Scope nat_scope.
Import Comparision.
Implicit Types (s d : list Z).

Lemma src_get_run s d i v :
  s !! i = Some v → src_get i (mkBufs s d) = (Ok v, mkBufs s d).
Proof. unfold src_get. cbn [src]. by intros ->. Qed.

Lemma dst_set_run s d k v :
  k < length d → dst_set k v (mkBufs s d) = (Ok tt, mkBufs s (<[k:=v]> d)).
Proof.
  intros Hk. unfold dst_set. cbn [src dst].
  by destruct (Nat.ltb_spec k (length d)); [|lia].
Qed.

Lemma copy_loop_spec (fuel : nat) : ∀ i k stop s d,
  stop - i ≤ fuel → i ≤ stop → stop ≤ length s →
  k + (stop - i) ≤ length d →
  ∃ d', copy_loop fuel i k stop (mkBufs s d) =
          (Ok (k + (stop - i)), mkBufs s d') ∧
        length d' = length d ∧
        (∀ p, p < k ∨ k + (stop - i) ≤ p → d' !! p = d !! p) ∧
        slice d' k (k + (stop - i)) = slice s i stop.
Proof.
  induction fuel as [|fuel IH]; intros i k stop s d Hf Hi Hstop Hk;
    cbn [copy_loop].
  { exists d. replace (stop - i) with 0 by lia. rewrite Nat.add_0_r.
    split_and!; try done. by rewrite !slice_nil by lia. }
  destruct (Nat.ltb_spec i stop) as [Hlt|Hge].
  2:{ exists d. replace (stop - i) with 0 by lia. rewrite Nat.add_0_r.
      split_and!; try done. by rewrite !slice_nil by lia. }
  destruct (lookup_lt_is_Some_2 s i) as [v Hv]; [lia|].
  rewrite (sbind_run _ _ _ _ _ (src_get_run s d i v Hv)).
  rewrite (sbind_run _ _ _ _ _ (dst_set_run s d k v ltac:(lia))).
  destruct (IH (i + 1) (k + 1) stop s (<[k:=v]> d))
    as (d' & Hrun & Hlen & Hout & Hsl); [lia|lia|lia| |].
  { rewrite length_insert. lia. }
  rewrite length_insert in Hlen.
  replace (k + 1 + (stop - (i + 1))) with (k + (stop - i)) in * by lia.
  exists d'. split_and!; try done.
  - intros p Hp. rewrite Hout by lia. apply list_lookup_insert_ne. lia.
  - assert (d' !! k = Some v) as Hk'.
    { rewrite Hout by lia. apply list_lookup_insert_eq. lia. }
    rewrite (slice_cons d' k _ v Hk') by lia.
    rewrite (slice_cons s i _ v Hv) by lia.
    replace (S k) with (k + 1) by lia. replace (S i) with (i + 1) by lia.
    by rewrite Hsl.
Qed.

Lemma merge_loop_spec (mid right fuel : nat) : ∀ i j k s d,
  (mid - i) + (right - j) ≤ fuel →
  i ≤ mid → j ≤ right → mid ≤ length s → right ≤ length s →
  k + (mid - i) + (right - j) ≤ length d →
  ∃ i' j' k' d',
    merge_loop fuel i j k mid right (mkBufs s d) =
      (Ok (i', j', k'), mkBufs s d') ∧
    i ≤ i' ≤ mid ∧ j ≤ j' ≤ right ∧ (i' = mid ∨ j' = right) ∧
    k' = k + (i' - i) + (j' - j) ∧
    length d' = length d ∧
    (∀ p, p < k ∨ k' ≤ p → d' !! p = d !! p) ∧
    slice d' k k' ++ list_merge Z.le (slice s i' mid) (slice s j' right) =
      list_merge Z.le (slice s i mid) (slice s j right).
Proof.
  induction fuel as [|fuel IH]; intros i j k s d Hf Hi Hj Hmid Hright Hk;
    cbn [merge_loop].
  { exists i, j, k, d. split_and!; try done; try lia.
    by rewrite slice_nil by lia. }
  destruct (Nat.ltb_spec i mid) as [Hlt|Hge]; cbn [andb].
  2:{ exists i, j, k, d. split_and!; try done; try lia.
      by rewrite slice_nil by lia. }
  destruct (Nat.ltb_spec j right) as [Hlt2|Hge].
  2:{ exists i, j, k, d. split_and!; try done; try lia.
      by rewrite slice_nil by lia. }
  destruct (lookup_lt_is_Some_2 s i) as [x Hx]; [lia|].
  destruct (lookup_lt_is_Some_2 s j) as [y Hy]; [lia|].
  rewrite (sbind_run _ _ _ _ _ (src_get_run s d i x Hx)).
  rewrite (sbind_run _ _ _ _ _ (src_get_run s d j y Hy)).
  rewrite (slice_cons s i mid x Hx) by lia.
  rewrite (slice_cons s j right y Hy) by lia.
  rewrite list_merge_cons.
  destruct (Z.leb_spec x y) as [Hle|Hgt].
  - rewrite decide_True by done.
    rewrite (sbind_run _ _ _ _ _ (src_get_run s d i x Hx)).
    rewrite (sbind_run _ _ _ _ _ (dst_set_run s d k x ltac:(lia))).
    destruct (IH (i + 1) j (k + 1) s (<[k:=x]> d))
      as (i' & j' & k' & d' & Hrun & Hi' & Hj' & Hend & Hk' & Hlen & Hout & Hsl);
      [lia|lia|lia|lia|lia| |].
    { rewrite length_insert. lia. }
    rewrite length_insert in Hlen.
    exists i', j', k', d'. split_and!; try done; try lia.
    + intros p Hp. rewrite Hout by lia. apply list_lookup_insert_ne. lia.
    + assert (d' !! k = Some x) as Hdk.
      { rewrite Hout by lia. apply list_lookup_insert_eq. lia. }
      rewrite (slice_cons d' k k' x Hdk) by lia.
      replace (S k) with (k + 1) by lia. cbn [app]. rewrite Hsl.
      replace (i + 1) with (S i) by lia.
      by rewrite <- (slice_cons s j right y Hy) by lia.
  - rewrite decide_False by lia.
    rewrite (sbind_run _ _ _ _ _ (src_get_run s d j y Hy)).
    rewrite (sbind_run _ _ _ _ _ (dst_set_run s d k y ltac:(lia))).
    destruct (IH i (j + 1) (k + 1) s (<[k:=y]> d))
      as (i' & j' & k' & d' & Hrun & Hi' & Hj' & Hend & Hk' & Hlen & Hout & Hsl);
      [lia|lia|lia|lia|lia| |].
    { rewrite length_insert. lia. }
    rewrite length_insert in Hlen.
    exists i', j', k', d'. split_and!; try done; try lia.
    + intros p Hp. rewrite Hout by lia. apply list_lookup_insert_ne. lia.
    + assert (d' !! k = Some y) as Hdk.
      { rewrite Hout by lia. apply list_lookup_insert_eq. lia. }
      rewrite (slice_cons d' k k' y Hdk) by lia.
      replace (S k) with (k + 1) by lia. cbn [app]. rewrite Hsl.
      replace (j + 1) with (S j) by lia.
      by rewrite <- (slice_cons s i mid x Hx) by lia.
Qed.

Lemma merge_block_spec (n width left : nat) s d :
  length s = n → length d = n → left < n → 0 < width →
  ∃ d', merge_block n width left (mkBufs s d) = (Ok tt, mkBufs s d') ∧
        length d' = n ∧
        (∀ p, p < left ∨ (left + 2 * width) `min` n ≤ p → d' !! p = d !! p) ∧
        slice d' left ((left + 2 * width) `min` n) =
          list_merge Z.le
            (slice s left ((left + width) `min` n))
            (slice s ((left + width) `min` n) ((left + 2 * width) `min` n)).
Proof.
  intros Hs Hd Hleft Hw. unfold merge_block.
  set (mid := (left + width) `min` n).
  set (right := (left + 2 * width) `min` n).
  assert (left ≤ mid ∧ mid ≤ right ∧ right ≤ n) as (Hlm & Hmr & Hrn)
    by (unfold mid, right; lia).
  destruct (merge_loop_spec mid right (right - left) left mid left s d)
    as (i & j & k & d1 & Hrun1 & Hi & Hj & Hend & Hk & Hlen1 & Hout1 & Hsl1);
    try lia.
  rewrite (sbind_run _ _ _ _ _ Hrun1). cbn beta iota.
  destruct (copy_loop_spec (mid - i) i k mid s d1)
    as (d2 & Hrun2 & Hlen2 & Hout2 & Hsl2); try lia.
  rewrite (sbind_run _ _ _ _ _ Hrun2).
  destruct (copy_loop_spec (right - j) j (k + (mid - i)) right s d2)
    as (d3 & Hrun3 & Hlen3 & Hout3 & Hsl3); try lia.
  rewrite (sbind_run _ _ _ _ _ Hrun3). unfold sret.
  set (k2 := k + (mid - i)) in *.
  assert (k2 + (right - j) = right) as Hk3 by (unfold k2; lia).
  rewrite Hk3 in *.
  exists d3. split_and!; try done; try lia.
  - intros p Hp. rewrite Hout3 by lia. rewrite Hout2 by (unfold k2; lia).
    apply Hout1. lia.
  - rewrite <- Hsl1.
    assert (list_merge Z.le (slice s i mid) (slice s j right) =
            slice s i mid ++ slice s j right) as ->.
    { destruct Hend as [->| ->].
      - rewrite (slice_nil s mid mid) by lia. by rewrite list_merge_nil_l.
      - rewrite (slice_nil s right right) by lia.
        by rewrite list_merge_nil_r, app_nil_r. }
    rewrite (slice_app d3 left k right) by lia.
    rewrite (slice_app d3 k k2 right) by (unfold k2; lia).
    rewrite <- Hsl2, <- Hsl3. fold k2. f_equal; [|f_equal].
    + apply slice_ext. intros p Hp.
      rewrite Hout3 by lia. apply Hout2. lia.
    + apply slice_ext. intros p Hp. apply Hout3. lia.
Qed.

End merge_loops.

(** ** One pass, and the passes *)

Section merge_pass.

Local Open Scope nat_scope.
Import Comparision.
Implicit Types (s d : list Z).

Lemma mul_succ_le (c b k : nat) : c < b → c * k + k ≤ b * k.
Proof.
  intros H. replace (c * k + k) with (S c * k) by lia.
  apply Nat.mul_le_mono_r. lia.
Qed.

Lemma slice_beyond {A} (l : list A) a b : length l ≤ a → slice l a b = [].
Proof. intros H. unfold slice. rewrite drop_ge by done. by rewrite take_nil. Qed.

Lemma slice_take {A} (l : list A) k : take k l = slice l 0 k.
Proof. unfold slice. by rewrite drop_0, Nat.sub_0_r. Qed.

Lemma short_sorted (l : list Z) : length l ≤ 1 → StronglySorted Z.le l.
Proof.
  destruct l as [|x [|y l]]; simpl; intros H;
    [constructor|repeat constructor|lia].
Qed.

Lemma pass_blocks (n w : nat) s (cnt : nat) : ∀ b0 d,
  0 < w → length s = n → length d = n →
  (∀ b, b0 ≤ b < b0 + cnt → b * (2 * w) < n) →
  blocks_merged n w s d b0 →
  ∃ d', sfor ((λ b, b * (2 * w)) <$> seq b0 cnt) (merge_block n w)
          (mkBufs s d) = (Ok tt, mkBufs s d') ∧
        length d' = n ∧ blocks_merged n w s d' (b0 + cnt).
Proof.
  induction cnt as [|cnt IH]; intros b0 d Hw Hs Hd Hin HQ.
  - exists d. rewrite Nat.add_0_r. by split_and!.
  - cbn [seq fmap list_fmap sfor].
    destruct (merge_block_spec n w (b0 * (2 * w)) s d Hs Hd)
      as (d1 & Hrun1 & Hlen1 & Hout1 & Hsl1); [apply Hin; lia|done|].
    rewrite (sbind_run _ _ _ _ _ Hrun1).
    destruct (IH (S b0) d1 Hw Hs Hlen1) as (d' & Hrun & Hlen & HQ').
    + intros b Hb. apply Hin. lia.
    + intros c Hc. destruct (decide (c = b0)) as [->|Hne]; [done|].
      rewrite <- (HQ c) by lia. apply slice_ext. intros p Hp.
      apply Hout1. left.
      pose proof (mul_succ_le c b0 (2 * w) ltac:(lia)). lia.
    + exists d'. split_and!; try done.
      by replace (b0 + S cnt) with (S b0 + cnt) by lia.
Qed.

Lemma range_step_bounds (n step : nat) :
  0 < step →
  (∀ b, b < (n + step - 1) / step → b * step < n) ∧
  n ≤ (n + step - 1) / step * step.
Proof.
  intros Hstep.
  pose proof (Nat.div_mod_eq (n + step - 1) step) as Hdm.
  pose proof (Nat.mod_upper_bound (n + step - 1) step ltac:(lia)) as Hub.
  split; [|lia].
  intros b Hb. pose proof (mul_succ_le b _ step Hb). lia.
Qed.

Lemma blocks_merged_perm (n w : nat) s d (B : nat) :
  0 < w → length s = n → length d = n →
  (∀ b, b < B → b * (2 * w) < n) →
  blocks_merged n w s d B →
  ∀ b, b ≤ B →
    take ((b * (2 * w)) `min` n) d ≡ₚ take ((b * (2 * w)) `min` n) s.
Proof.
  intros Hw Hs Hd Hin HQ b. induction b as [|b IH]; intros Hb.
  - by rewrite Nat.mul_0_l, Nat.min_0_l.
  - specialize (IH ltac:(lia)). specialize (Hin b ltac:(lia)).
    replace ((b * (2 * w)) `min` n) with (b * (2 * w)) in IH by lia.
    replace (S b * (2 * w)) with (b * (2 * w) + 2 * w) by lia.
    set (e := (b * (2 * w) + 2 * w) `min` n).
    set (m := (b * (2 * w) + w) `min` n).
    rewrite !slice_take in *.
    rewrite (slice_app d 0 (b * (2 * w)) e) by (unfold e; lia).
    rewrite (slice_app s 0 (b * (2 * w)) e) by (unfold e; lia).
    rewrite IH. apply Permutation_app_head.
    unfold e. rewrite (HQ b) by lia. rewrite merge_Permutation.
    fold m e. by rewrite <- slice_app by (unfold m, e; lia).
Qed.

Lemma blocks_merged_sorted (n w : nat) s d (B : nat) :
  0 < w → length s = n → length d = n →
  n ≤ B * (2 * w) →
  block_sorted w s → blocks_merged n w s d B →
  block_sorted (2 * w) d.
Proof.
  intros Hw Hs Hd Hcover Hsorted HQ b.
  destruct (decide (b < B)) as [Hb|Hb].
  - rewrite slice_min, Hd.
    replace ((b + 1) * (2 * w)) with (b * (2 * w) + 2 * w) by lia.
    rewrite (HQ b Hb).
    apply Sorted_StronglySorted; [apply _|].
    apply Sorted_list_merge; [apply _| |].
    + apply StronglySorted_Sorted.
      rewrite <- Hs, <- slice_min.
      replace (b * (2 * w)) with (2 * b * w) by lia.
      replace (2 * b * w + w) with ((2 * b + 1) * w) by lia.
      apply Hsorted.
    + apply StronglySorted_Sorted.
      destruct (decide (n ≤ b * (2 * w) + w)) as [Hn|Hn].
      * rewrite slice_nil by lia. constructor.
      * replace ((b * (2 * w) + w) `min` n) with (b * (2 * w) + w) by lia.
        rewrite <- Hs, <- slice_min.
        replace (b * (2 * w) + w) with ((2 * b + 1) * w) by lia.
        replace (b * (2 * w) + 2 * w) with ((2 * b + 1 + 1) * w) by lia.
        apply Hsorted.
  - rewrite slice_beyond; [constructor|].
    assert (B * (2 * w) ≤ b * (2 * w)) by (apply Nat.mul_le_mono_r; lia).
    lia.
Qed.

Lemma pass_spec (n w : nat) s d :
  0 < w → length s = n → length d = n → block_sorted w s →
  ∃ d', sfor (range_step n (2 * w)) (merge_block n w) (mkBufs s d) =
          (Ok tt, mkBufs s d') ∧
        length d' = n ∧ d' ≡ₚ s ∧ block_sorted (2 * w) d'.
Proof.
  intros Hw Hs Hd Hsorted. unfold range_step.
  set (B := (n + 2 * w - 1) / (2 * w)).
  destruct (range_step_bounds n (2 * w) ltac:(lia)) as [Hin Hcover].
  fold B in Hin, Hcover.
  destruct (pass_blocks n w s B 0 d Hw Hs Hd) as (d' & Hrun & Hlen & HQ).
  { intros b Hb. apply Hin. lia. }
  { intros c Hc. lia. }
  exists d'. split_and!; try done.
  - pose proof (blocks_merged_perm n w s d' B Hw Hs Hlen Hin HQ B
                  ltac:(done)) as Hp.
    replace ((B * (2 * w)) `min` n) with n in Hp by lia.
    rewrite <- (firstn_all d'), <- (firstn_all s). by rewrite Hlen, Hs.
  - by apply (blocks_merged_sorted n w s d' B).
Qed.

Lemma pass_loop_spec (n fuel : nat) : ∀ w s d,
  n ≤ fuel + w → 0 < w → length s = n → length d = n →
  block_sorted w s →
  ∃ s' d', pass_loop fuel n w (mkBufs s d) = (Ok tt, mkBufs s' d') ∧
           s' ≡ₚ s ∧ StronglySorted Z.le s'.
Proof.
  assert (∀ w s, n ≤ w → length s = n → block_sorted w s →
                 StronglySorted Z.le s) as Hdone.
  { intros w s Hw Hs Hsorted. specialize (Hsorted 0).
    rewrite slice_min in Hsorted.
    replace (((0 + 1) * w) `min` length s) with (length s) in Hsorted by lia.
    by rewrite Nat.mul_0_l, slice_all in Hsorted. }
  induction fuel as [|fuel IH]; intros w s d Hf Hw Hs Hd Hsorted;
    cbn [pass_loop].
  { exists s, d. split_and!; try done. apply (Hdone w); (done || lia). }
  destruct (Nat.ltb_spec w n) as [Hlt|Hge].
  2:{ exists s, d. split_and!; try done. by apply (Hdone w). }
  destruct (pass_spec n w s d Hw Hs Hd Hsorted)
    as (d1 & Hrun1 & Hlen1 & Hp1 & Hsorted1).
  rewrite (sbind_run _ _ _ _ _ Hrun1).
  unfold sbind at 1, swap_bufs. cbn [src dst].
  destruct (IH (2 * w) d1 s) as (s' & d' & Hrun & Hp & Hs');
    [lia|lia|done|done|done|].
  exists s', d'. split_and!; try done. by rewrite Hp.
Qed.

Lemma mergesort_spec (a : list Z) :
  ∃ l, mergesort a = Ok l ∧ l ≡ₚ a ∧ StronglySorted Z.le l.
Proof.
  unfold mergesort. cbn zeta.
  destruct (Nat.leb_spec (length a) 1) as [Hn|Hn].
  { exists a. split_and!; try done. by apply short_sorted. }
  destruct (pass_loop_spec (length a) (length a) 1 a
              (replicate (length a) 0%Z))
    as (s' & d' & Hrun & Hp & Hs'); [lia|lia|done|by rewrite length_replicate| |].
  - intros b. apply short_sorted. unfold slice.
    rewrite length_take. lia.
  - rewrite Hrun. exists s'. by split_and!.
Qed.

End merge_pass.

(** X14. [mergesort] raises nothing on any list of integers and returns
    its elements in ascending order: the result is a permutation of the
    input in which every element is at most all later ones. *)
Theorem mergesort_sorts (a : list Z) :
  ∃ l, Comparision.mergesort a = Ok l ∧ l ≡ₚ a ∧ StronglySorted Z.le l.
Proof. apply mergesort_spec. Qed.

(** X15. [mergesort] and [heapsort] return the same list on every input. *)
Theorem mergesort_agrees_with_heapsort (a : list Z) :
  Comparision.mergesort a = Heapsort.heapsort a.
Proof.
  destruct (mergesort_spec a) as (l1 & -> & Hp1 & Hs1).
  destruct (hs_heapsort_spec a) as (l2 & -> & Hp2 & Hs2).
  f_equal. apply (StronglySorted_unique Z.le); [done|done|].
  by rewrite Hp1, Hp2.
Qed.

Example mergesort_demo :
  Comparision.mergesort [5; 1; 8; 3; 2; 9; 4; 1] = Ok [1; 1; 2; 3; 4; 5; 8; 9].
Proof. vm_compute. reflexivity. Qed.

(** * [quicksort] of [comparision.py] *)

(** ** Subscripts *)

Section zget.

Implicit Types (a : list Z) (i j k : Z).

Lemma zget_lt a i v : zget a i = Some v → 0 ≤ i < Z.of_nat (length a).
Proof.
  unfold zget. case_decide; [|done]. intros Hv.
  apply lookup_lt_Some in Hv. lia.
Qed.

Lemma zget_is_Some a i : 0 ≤ i < Z.of_nat (length a) → ∃ v, zget a i = Some v.
Proof.
  intros Hi. unfold zget. rewrite decide_True by lia.
  apply lookup_lt_is_Some_2. lia.
Qed.

Lemma zget_lookup a (n : nat) : zget a (Z.of_nat n) = a !! n.
Proof. unfold zget. rewrite decide_True by lia. by rewrite Nat2Z.id. Qed.

Lemma zget_insert_eq a i v :
  0 ≤ i < Z.of_nat (length a) → zget (<[Z.to_nat i:=v]> a) i = Some v.
Proof.
  intros Hi. unfold zget. rewrite decide_True by lia.
  apply list_lookup_insert_eq. lia.
Qed.

Lemma zget_insert_ne a i k v :
  0 ≤ i → i ≠ k → zget (<[Z.to_nat i:=v]> a) k = zget a k.
Proof.
  intros Hi Hne. unfold zget. case_decide; [|done].
  apply list_lookup_insert_ne. lia.
Qed.

Lemma py_index_in (n : nat) i :
  0 ≤ i < Z.of_nat n → Comparision.py_index n i = Some (Z.to_nat i).
Proof.
  intros Hi. unfold Comparision.py_index.
  destruct (Z.leb_spec 0 i); [|lia]. by destruct (Z.ltb_spec i (Z.of_nat n)); [|lia].
Qed.

End zget.

Section q_prims.

Import Comparision.
Implicit Types (a : list Z) (i j k : Z) (d : nat).

Lemma q_get_run a d i v :
  zget a i = Some v → q_get i (mkQS a d) = (Ok v, mkQS a d).
Proof.
  intros Hv. pose proof (zget_lt a i v Hv) as Hi.
  unfold q_get. cbn [arr]. rewrite py_index_in by done.
  unfold zget in Hv. rewrite decide_True in Hv by lia. by rewrite Hv.
Qed.

Lemma q_set_run a d i v :
  0 ≤ i < Z.of_nat (length a) →
  q_set i v (mkQS a d) = (Ok tt, mkQS (<[Z.to_nat i:=v]> a) d).
Proof. intros Hi. unfold q_set. cbn [arr]. by rewrite py_index_in. Qed.

(** The list after [a[i], a[j] = a[j], a[i]]. *)
Lemma q_swap_run a d i j x y :
  zget a i = Some x → zget a j = Some y →
  ∃ a', q_swap i j (mkQS a d) = (Ok tt, mkQS a' d) ∧
        length a' = length a ∧ a' ≡ₚ a ∧
        zget a' i = Some y ∧ zget a' j = Some x ∧
        ∀ k, k ≠ i → k ≠ j → zget a' k = zget a k.
Proof.
  intros Hx Hy.
  pose proof (zget_lt a i x Hx) as Hi. pose proof (zget_lt a j y Hy) as Hj.
  exists (<[Z.to_nat j:=x]> (<[Z.to_nat i:=y]> a)).
  split.
  { unfold q_swap.
    rewrite (sbind_run _ _ _ _ _ (q_get_run a d j y Hy)).
    rewrite (sbind_run _ _ _ _ _ (q_get_run a d i x Hx)).
    rewrite (sbind_run _ _ _ _ _ (q_set_run a d i y Hi)).
    apply q_set_run. rewrite length_insert. lia. }
  split; [by rewrite !length_insert|].
  assert (a !! Z.to_nat i = Some x) as Hx'
    by (unfold zget in Hx; by rewrite decide_True in Hx by lia).
  assert (a !! Z.to_nat j = Some y) as Hy'
    by (unfold zget in Hy; by rewrite decide_True in Hy by lia).
  destruct (decide (i = j)) as [->|Hne].
  - assert (x = y) as -> by congruence.
    rewrite !list_insert_id; [|done|by rewrite list_insert_id].
    by split_and!.
  - split_and!.
    + apply (list_swap_perm a (Z.to_nat i) (Z.to_nat j) x y); (done || lia).
    + rewrite zget_insert_ne by lia. apply zget_insert_eq. lia.
    + apply zget_insert_eq. rewrite length_insert. lia.
    + intros k Hki Hkj. by rewrite !zget_insert_ne by lia.
Qed.

End q_prims.

(** ** The partition loop *)

Section partition.

Import Comparision.
Implicit Types (a : list Z) (d : nat).

Lemma part_loop_spec (fuel : nat) : ∀ a0 a d pivot lo hi lt i gt,
  gt - i + 1 ≤ Z.of_nat fuel →
  0 ≤ lo → hi < Z.of_nat (length a0) →
  part_inv a0 a pivot lo hi lt i gt →
  ∃ lt' gt' a',
    part_loop fuel pivot lt i gt (mkQS a d) = (Ok (lt', gt'), mkQS a' d) ∧
    part_inv a0 a' pivot lo hi lt' (gt' + 1) gt'.
Proof.
  induction fuel as [|fuel IH];
    intros a0 a d pivot lo hi lt i gt Hf Hlo Hhi Hinv; cbn [part_loop].
  { exists lt, gt, a. split; [done|].
    destruct Hinv as (? & ? & ? & ? & ?).
    by replace (gt + 1) with i by lia. }
  destruct (Z.leb_spec i gt) as [Hle|Hgt].
  2:{ exists lt, gt, a. split; [done|].
      destruct Hinv as (? & ? & ? & ? & ?).
      by replace (gt + 1) with i by lia. }
  destruct Hinv as (H1 & H2 & H3 & H4 & Hlen & Hperm & Hout & Hlow & Hmid
                    & Hhigh & p & Hp & Hpv).
  destruct (zget_is_Some a i) as [x Hx]; [lia|].
  rewrite (sbind_run _ _ _ _ _ (q_get_run a d i x Hx)).
  destruct (Z.ltb_spec x pivot) as [Hxlt|Hxge].
  - (* a[i] < pivot *)
    destruct (zget_is_Some a lt) as [z Hz]; [lia|].
    destruct (q_swap_run a d lt i z x Hz Hx)
      as (a' & Hrun & Hlen' & Hperm' & Hlt' & Hi' & Hoth).
    rewrite (sbind_run _ _ _ _ _ Hrun).
    apply (IH a0 a' d pivot lo hi); [lia|done|done|].
    split_and!; try lia.
    + by rewrite Hperm'.
    + intros k Hk. rewrite Hoth by lia. by apply Hout.
    + intros k v Hk. destruct (decide (k = lt)) as [->|Hne].
      * rewrite Hlt'. intros [= <-]. done.
      * rewrite Hoth by lia. apply Hlow. lia.
    + intros k v Hk. destruct (decide (k = i)) as [->|Hne].
      * rewrite Hi'. intros [= <-]. apply (Hmid lt); [lia|done].
      * rewrite Hoth by lia. apply Hmid. lia.
    + intros k v Hk. rewrite Hoth by lia. by apply Hhigh.
    + assert (p ≠ i) as Hpi by (intros ->; rewrite Hx in Hpv; injection Hpv; lia).
      destruct (decide (p = lt)) as [->|Hplt].
      * exists i. split; [lia|]. rewrite Hi'. congruence.
      * exists p. split; [lia|]. by rewrite Hoth.
  - rewrite (sbind_run _ _ _ _ _ (q_get_run a d i x Hx)).
    destruct (Z.gtb_spec x pivot) as [Hxgt|Hxle].
    + (* a[i] > pivot *)
      destruct (zget_is_Some a gt) as [z Hz]; [lia|].
      destruct (q_swap_run a d i gt x z Hx Hz)
        as (a' & Hrun & Hlen' & Hperm' & Hi' & Hgt' & Hoth).
      rewrite (sbind_run _ _ _ _ _ Hrun).
      assert (p ≠ i) as Hpi
        by (intros ->; rewrite Hx in Hpv; injection Hpv; lia).
      destruct (IH a0 a' d pivot lo hi lt i (gt - 1))
        as (lt' & gt' & a2 & Hrun2 & Hinv2); [lia|done|done| |by eauto].
      split_and!; try lia.
      * by rewrite Hperm'.
      * intros k Hk. rewrite Hoth by lia. by apply Hout.
      * intros k v Hk. rewrite Hoth by lia. by apply Hlow.
      * intros k v Hk. rewrite Hoth by lia. by apply Hmid.
      * intros k v Hk. destruct (decide (k = gt)) as [->|Hne].
        -- rewrite Hgt'. intros [= <-]. done.
        -- rewrite Hoth by lia. apply Hhigh. lia.
      * destruct (decide (p = gt)) as [->|Hpgt].
        -- exists i. split; [lia|]. rewrite Hi'. congruence.
        -- exists p. split; [lia|]. by rewrite Hoth.
    + (* a[i] = pivot *)
      apply (IH a0 a d pivot lo hi); [lia|done|done|].
      split_and!; try done; try lia.
      * intros k v Hk. destruct (decide (k = i)) as [->|Hne].
        -- rewrite Hx. intros [= <-]. lia.
        -- apply Hmid. lia.
      * by exists p.
Qed.

End partition.

(** ** The recursion *)

Section qs_ranges.

Implicit Types (a : list Z).

(** When only the slots [l..h] change, what they hold afterwards they held
    before. *)
Lemma range_elem a a' l h k v :
  a' ≡ₚ a → 0 ≤ l →
  (∀ k, k < l ∨ h < k → zget a' k = zget a k) →
  l ≤ k ≤ h → zget a' k = Some v →
  ∃ k', l ≤ k' ≤ h ∧ zget a k' = Some v.
Proof.
  intros Hperm Hl Hout Hk Hv.
  set (L := Z.to_nat l). set (H1 := Z.to_nat (h + 1)).
  assert (take L a' = take L a) as Htake.
  { apply list_eq. intros n. rewrite !lookup_take.
    case_decide; [|done]. rewrite <- !zget_lookup. apply Hout. lia. }
  assert (drop H1 a' = drop H1 a) as Hdrop.
  { apply list_eq. intros n. rewrite !lookup_drop.
    rewrite <- !zget_lookup. apply Hout. lia. }
  assert (∀ b : list Z, b = take L b ++ slice b L H1 ++ drop H1 b) as Hsplit.
  { intros b. unfold slice.
    rewrite <- (take_drop L b) at 1. f_equal.
    rewrite <- (take_drop (H1 - L) (drop L b)) at 1. f_equal.
    rewrite drop_drop. f_equal. lia. }
  assert (slice a' L H1 ≡ₚ slice a L H1) as Hmid.
  { rewrite (Hsplit a'), (Hsplit a), Htake, Hdrop in Hperm.
    apply Permutation_app_inv_l in Hperm.
    by apply Permutation_app_inv_r in Hperm. }
  assert (v ∈ slice a L H1) as Hin.
  { rewrite <- Hmid. apply list_elem_of_lookup. exists (Z.to_nat k - L)%nat.
    rewrite slice_lookup. rewrite decide_True by lia.
    rewrite <- zget_lookup. rewrite <- Hv. f_equal. lia. }
  apply list_elem_of_lookup in Hin as [n Hn].
  rewrite slice_lookup in Hn. case_decide; [|done].
  exists (Z.of_nat (L + n)). split; [lia|]. by rewrite zget_lookup.
Qed.

Lemma sorted_range_small a lo hi : hi ≤ lo → sorted_range a lo hi.
Proof.
  intros Hle i j x y Hi Hij Hj Hx Hy.
  assert (i = j) as -> by lia. assert (x = y) by congruence. lia.
Qed.

(** Two sorts of disjoint ranges, one after the other. *)
Lemma two_sorts a1 a2 a3 l1 h1 l2 h2 :
  0 ≤ l1 → 0 ≤ l2 → (h1 < l2 ∨ h2 < l1) →
  length a2 = length a1 → a2 ≡ₚ a1 →
  (∀ k, k < l1 ∨ h1 < k → zget a2 k = zget a1 k) →
  sorted_range a2 l1 h1 →
  length a3 = length a2 → a3 ≡ₚ a2 →
  (∀ k, k < l2 ∨ h2 < k → zget a3 k = zget a2 k) →
  sorted_range a3 l2 h2 →
  length a3 = length a1 ∧ a3 ≡ₚ a1 ∧
  (∀ k, (k < l1 ∨ h1 < k) → (k < l2 ∨ h2 < k) → zget a3 k = zget a1 k) ∧
  sorted_range a3 l1 h1 ∧ sorted_range a3 l2 h2 ∧
  (∀ k v, l1 ≤ k ≤ h1 → zget a3 k = Some v →
          ∃ k', l1 ≤ k' ≤ h1 ∧ zget a1 k' = Some v) ∧
  (∀ k v, l2 ≤ k ≤ h2 → zget a3 k = Some v →
          ∃ k', l2 ≤ k' ≤ h2 ∧ zget a1 k' = Some v).
Proof.
  intros Hl1 Hl2 Hdisj Hlen2 Hp2 Ho2 Hs2 Hlen3 Hp3 Ho3 Hs3.
  split_and!.
  - congruence.
  - by rewrite Hp3.
  - intros k Hk1 Hk2. rewrite Ho3 by done. by apply Ho2.
  - intros i j x y Hi Hij Hj. rewrite !Ho3 by lia. by apply Hs2.
  - done.
  - intros k v Hk. rewrite Ho3 by lia. intros Hv.
    by apply (range_elem a1 a2 l1 h1 k v).
  - intros k v Hk Hv.
    destruct (range_elem a2 a3 l2 h2 k v Hp3 Hl2 Ho3 Hk Hv) as (k' & Hk' & Hv').
    exists k'. split; [done|]. rewrite <- Hv'. symmetry. apply Ho2. lia.
Qed.

(** A partitioned range whose outer parts are sorted is sorted. *)
Lemma qs_combine a0 a1 a3 pivot lo hi lt gt :
  0 ≤ lo →
  part_inv a0 a1 pivot lo hi lt (gt + 1) gt →
  length a3 = length a1 → a3 ≡ₚ a1 →
  (∀ k, (k < lo ∨ lt - 1 < k) → (k < gt + 1 ∨ hi < k) →
        zget a3 k = zget a1 k) →
  sorted_range a3 lo (lt - 1) → sorted_range a3 (gt + 1) hi →
  (∀ k v, lo ≤ k ≤ lt - 1 → zget a3 k = Some v →
          ∃ k', lo ≤ k' ≤ lt - 1 ∧ zget a1 k' = Some v) →
  (∀ k v, gt + 1 ≤ k ≤ hi → zget a3 k = Some v →
          ∃ k', gt + 1 ≤ k' ≤ hi ∧ zget a1 k' = Some v) →
  length a3 = length a0 ∧ a3 ≡ₚ a0 ∧
  (∀ k, k < lo ∨ hi < k → zget a3 k = zget a0 k) ∧
  sorted_range a3 lo hi.
Proof.
  intros Hlo (H1 & H2 & H3 & H4 & Hlen & Hperm & Hout & Hlow & Hmid
              & Hhigh & p & Hp & Hpv) Hlen3 Hp3 Ho3 HsL HsR HpL HpR.
  assert (∀ k v, lo ≤ k < lt → zget a3 k = Some v → v < pivot) as HL.
  { intros k v Hk Hv. destruct (HpL k v) as (k' & Hk' & Hv'); [lia|done|].
    apply (Hlow k'); [lia|done]. }
  assert (∀ k v, lt ≤ k ≤ gt → zget a3 k = Some v → v = pivot) as HM.
  { intros k v Hk. rewrite Ho3 by lia. apply Hmid. lia. }
  assert (∀ k v, gt < k ≤ hi → zget a3 k = Some v → pivot < v) as HR.
  { intros k v Hk Hv. destruct (HpR k v) as (k' & Hk' & Hv'); [lia|done|].
    apply (Hhigh k'); [lia|done]. }
  split_and!.
  - congruence.
  - by rewrite Hp3.
  - intros k Hk. rewrite Ho3 by lia. by apply Hout.
  - intros i j x y Hi Hij Hj Hx Hy.
    destruct (decide (i < lt)) as [Hil|Hil].
    + destruct (decide (j < lt)) as [Hjl|Hjl].
      * apply (HsL i j x y); (done || lia).
      * pose proof (HL i x ltac:(lia) Hx).
        destruct (decide (j ≤ gt)).
        -- pose proof (HM j y ltac:(lia) Hy). lia.
        -- pose proof (HR j y ltac:(lia) Hy). lia.
    + destruct (decide (i ≤ gt)) as [Hig|Hig].
      * pose proof (HM i x ltac:(lia) Hx).
        destruct (decide (j ≤ gt)).
        -- pose proof (HM j y ltac:(lia) Hy). lia.
        -- pose proof (HR j y ltac:(lia) Hy). lia.
      * apply (HsR i j x y); (done || lia).
Qed.

End qs_ranges.

Section qs_main.

Import Comparision.
Variable rnd : nat → nat.
Implicit Types (a : list Z) (d : nat).

Lemma randint_run a d lo hi :
  lo ≤ hi →
  ∃ pi, randint rnd lo hi (mkQS a d) = (Ok pi, mkQS a (S d)) ∧ lo ≤ pi ≤ hi.
Proof.
  intros Hle. unfold randint. cbn [arr draws].
  destruct (Z.ltb_spec hi lo); [lia|].
  eexists. split; [done|].
  pose proof (Z.mod_pos_bound (Z.of_nat (rnd d)) (hi - lo + 1) ltac:(lia)).
  lia.
Qed.

Lemma qs_loop_spec (fuel : nat) : ∀ lo hi a d,
  hi - lo + 1 ≤ Z.of_nat fuel → 0 ≤ lo → hi < Z.of_nat (length a) →
  ∃ a' d', qs_loop rnd fuel lo hi (mkQS a d) = (Ok tt, mkQS a' d') ∧
           length a' = length a ∧ a' ≡ₚ a ∧
           (∀ k, k < lo ∨ hi < k → zget a' k = zget a k) ∧
           sorted_range a' lo hi.
Proof.
  induction fuel as [|fuel IH]; intros lo hi a d Hf Hlo Hhi; cbn [qs_loop].
  { exists a, d. split_and!; try done. apply sorted_range_small. lia. }
  destruct (Z.ltb_spec lo hi) as [Hlt|Hge].
  2:{ exists a, d. split_and!; try done. by apply sorted_range_small. }
  destruct (randint_run a d lo hi ltac:(lia)) as (pi & Hrand & Hpi).
  rewrite (sbind_run _ _ _ _ _ Hrand).
  destruct (zget_is_Some a pi) as [pivot Hpivot]; [lia|].
  rewrite (sbind_run _ _ _ _ _ (q_get_run a (S d) pi pivot Hpivot)).
  destruct (part_loop_spec (Z.to_nat (hi - lo + 1)) a a (S d) pivot lo hi
              lo lo hi) as (lt & gt & a1 & Hpart & Hinv); [lia|done|done| |].
  { split_and!; try done; try lia. by exists pi. }
  rewrite (sbind_run _ _ _ _ _ Hpart). cbn beta iota zeta.
  pose proof Hinv as (H1 & H2 & H3 & H4 & Hlen1 & Hperm1 & Hout1 & _ & _ & _
                      & p & Hp & _).
  destruct (Z.ltb_spec (lt - lo) (hi - gt)) as [Hsmall|Hbig].
  - (* the left side first *)
    destruct (IH lo (lt - 1) a1 (S d)) as (a2 & d2 & Hrun2 & Hlen2 & Hp2 & Ho2 & Hs2);
      [lia|lia|lia|].
    rewrite (sbind_run _ _ _ _ _ Hrun2).
    destruct (IH (gt + 1) hi a2 d2) as (a3 & d3 & Hrun3 & Hlen3 & Hp3 & Ho3 & Hs3);
      [lia|lia|lia|].
    rewrite Hrun3. exists a3, d3. split; [done|].
    destruct (two_sorts a1 a2 a3 lo (lt - 1) (gt + 1) hi)
      as (Hl & Hp' & Ho & HsL & HsR & HpL & HpR); try done; try lia.
    by eapply (qs_combine a a1 a3 pivot lo hi lt gt).
  - (* the right side first *)
    destruct (IH (gt + 1) hi a1 (S d)) as (a2 & d2 & Hrun2 & Hlen2 & Hp2 & Ho2 & Hs2);
      [lia|lia|lia|].
    rewrite (sbind_run _ _ _ _ _ Hrun2).
    destruct (IH lo (lt - 1) a2 d2) as (a3 & d3 & Hrun3 & Hlen3 & Hp3 & Ho3 & Hs3);
      [lia|lia|lia|].
    rewrite Hrun3. exists a3, d3. split; [done|].
    destruct (two_sorts a1 a2 a3 (gt + 1) hi lo (lt - 1))
      as (Hl & Hp' & Ho & HsR & HsL & HpR & HpL); try done; try lia.
    apply (qs_combine a a1 a3 pivot lo hi lt gt); try done.
    intros k Hk1 Hk2. by apply Ho.
Qed.

Lemma sorted_range_all a :
  sorted_range a 0 (Z.of_nat (length a) - 1) → StronglySorted Z.le a.
Proof.
  intros Hs. apply sorted_of_lookup. intros i j x y Hij Hx Hy.
  apply (Hs (Z.of_nat i) (Z.of_nat j) x y); try lia.
  - apply lookup_lt_Some in Hy. lia.
  - by rewrite zget_lookup.
  - by rewrite zget_lookup.
Qed.

Lemma quicksort_spec a :
  ∃ l, quicksort rnd a = Ok l ∧ l ≡ₚ a ∧ StronglySorted Z.le l.
Proof.
  unfold quicksort, _quicksort_3way.
  destruct (qs_loop_spec (Z.to_nat (Z.of_nat (length a) - 1 - 0 + 1)) 0
              (Z.of_nat (length a) - 1) a 0)
    as (a' & d' & Hrun & Hlen & Hp & _ & Hs); [lia|lia|lia|].
  rewrite Hrun. exists a'. split_and!; try done.
  apply sorted_range_all. by rewrite Hlen.
Qed.

End qs_main.

(** X16. [_quicksort_3way(a, lo, hi)] with [0 <= lo] and [hi < len(a)]
    raises nothing whatever the random pivots are, puts the slots [lo..hi]
    in ascending order, only permutes the list, and leaves every slot
    outside [lo..hi] untouched. *)
Theorem quicksort_3way_sorts_range (rnd : nat → nat) (lo hi : Z)
    (a : list Z) (d : nat) :
  0 ≤ lo → hi < Z.of_nat (length a) →
  ∃ a' d', Comparision._quicksort_3way rnd lo hi (Comparision.mkQS a d) =
             (Ok tt, Comparision.mkQS a' d') ∧
           a' ≡ₚ a ∧
           (∀ k, k < lo ∨ hi < k → zget a' k = zget a k) ∧
           sorted_range a' lo hi.
Proof.
  intros Hlo Hhi. unfold Comparision._quicksort_3way.
  destruct (qs_loop_spec rnd (Z.to_nat (hi - lo + 1)) lo hi a d)
    as (a' & d' & Hrun & _ & Hp & Ho & Hs); [lia|done|done|].
  exists a', d'. by split_and!.
Qed.

Lemma quicksort_3way_sorts_range_witness :
  ∃ a' d', Comparision._quicksort_3way (λ n, n) 1 3
             (Comparision.mkQS [9; 4; 2; 3; 0] 0) =
             (Ok tt, Comparision.mkQS a' d') ∧
           a' ≡ₚ [9; 4; 2; 3; 0] ∧
           (∀ k, k < 1 ∨ 3 < k → zget a' k = zget [9; 4; 2; 3; 0] k) ∧
           sorted_range a' 1 3.
Proof.
  apply (quicksort_3way_sorts_range (λ n, n) 1 3 [9; 4; 2; 3; 0] 0).
  - lia.
  - simpl. lia.
Defined.

(** X17. [quicksort] raises nothing on any list of integers, whatever the
    random pivots are, and returns a permutation of the input in ascending
    order. *)
Theorem quicksort_sorts (rnd : nat → nat) (a : list Z) :
  ∃ l, Comparision.quicksort rnd a = Ok l ∧ l ≡ₚ a ∧ StronglySorted Z.le l.
Proof. apply quicksort_spec. Qed.

(** X18. The result of [quicksort] does not depend on the random pivots: it
    is the list [heapsort] and [mergesort] return. *)
Theorem quicksort_agrees_with_heapsort (rnd : nat → nat) (a : list Z) :
  Comparision.quicksort rnd a = Heapsort.heapsort a ∧
  Comparision.quicksort rnd a = Comparision.mergesort a.
Proof.
  destruct (quicksort_spec rnd a) as (l1 & -> & Hp1 & Hs1).
  destruct (hs_heapsort_spec a) as (l2 & -> & Hp2 & Hs2).
  destruct (mergesort_spec a) as (l3 & -> & Hp3 & Hs3).
  split; f_equal; apply (StronglySorted_unique Z.le); try done.
  - by rewrite Hp1, Hp2.
  - by rewrite Hp1, Hp3.
Qed.

Example quicksort_demo :
  Comparision.quicksort (λ n, (n * n + 3)%nat) [2; 2; 2; 1; 1; 3; 3; 0] =
  Ok [0; 1; 1; 2; 2; 2; 3; 3].
Proof. vm_compute. reflexivity. Qed.

(** * [gen_data] of [comparision.py] *)

Lemma seqZ_sorted (m n : Z) : StronglySorted Z.le (seqZ m n).
Proof.
  apply sorted_of_lookup. intros i j x y Hij Hx Hy.
  apply lookup_seqZ in Hx as [-> _]. apply lookup_seqZ in Hy as [-> _]. lia.
Qed.

(** X19. [gen_data(n, kind)] returns a list of [n] integers ([0] for a
    negative [n]) for the kinds "random", "sorted", "reverse" and
    "few_unique", and raises [ValueError] for every other kind.  The random
    kinds stay within [0..n] and [0..10]; the "sorted" list is already what
    [heapsort] returns for it, and sorting the "reverse" list gives
    [1, ..., n]. *)
Theorem gen_data_kinds (rnd : nat → nat) (n : Z) (kind : string) :
  (kind ∉ ["random"; "sorted"; "reverse"; "few_unique"] →
   Comparision.gen_data rnd n kind = Raise ValueError) ∧
  (∀ l, Comparision.gen_data rnd n kind = Ok l → length l = Z.to_nat n) ∧
  (∀ l, Comparision.gen_data rnd n "random" = Ok l →
        Forall (λ x, 0 ≤ x ≤ n) l) ∧
  (∀ l, Comparision.gen_data rnd n "few_unique" = Ok l →
        Forall (λ x, 0 ≤ x ≤ 10) l) ∧
  (∃ l, Comparision.gen_data rnd n "sorted" = Ok l ∧
        Heapsort.heapsort l = Ok l) ∧
  (∃ l, Comparision.gen_data rnd n "reverse" = Ok l ∧
        Heapsort.heapsort l = Ok (seqZ 1 n)).
Proof.
  split_and!.
  - intros Hnin. unfold Comparision.gen_data.
    destruct (String.eqb_spec kind "random") as [->|_].
    { destruct Hnin. apply list_elem_of_here. }
    destruct (String.eqb_spec kind "sorted") as [->|_].
    { destruct Hnin. apply list_elem_of_further, list_elem_of_here. }
    destruct (String.eqb_spec kind "reverse") as [->|_].
    { destruct Hnin. do 2 apply list_elem_of_further. apply list_elem_of_here. }
    destruct (String.eqb_spec kind "few_unique") as [->|_]; [|done].
    destruct Hnin. do 3 apply list_elem_of_further. apply list_elem_of_here.
  - intros l. unfold Comparision.gen_data.
    destruct (String.eqb kind "random").
    { intros [= <-]. by rewrite length_fmap, length_seq. }
    destruct (String.eqb kind "sorted").
    { intros [= <-]. by rewrite length_seqZ. }
    destruct (String.eqb kind "reverse").
    { intros [= <-]. by rewrite length_reverse, length_seqZ. }
    destruct (String.eqb kind "few_unique"); [|done].
    intros [= <-]. by rewrite length_fmap, length_seq.
  - intros l. unfold Comparision.gen_data. cbn [String.eqb Ascii.eqb].
    intros [= <-]. apply Forall_fmap, Forall_forall. intros k Hk.
    apply elem_of_seq in Hk. unfold compose.
    pose proof (Z.mod_pos_bound (Z.of_nat (rnd k)) (n - 0 + 1) ltac:(lia)).
    lia.
  - intros l. unfold Comparision.gen_data. cbn [String.eqb Ascii.eqb].
    intros [= <-]. apply Forall_fmap, Forall_forall. intros k Hk.
    unfold compose.
    pose proof (Z.mod_pos_bound (Z.of_nat (rnd k)) (10 - 0 + 1) ltac:(lia)).
    lia.
  - exists (seqZ 0 n). split; [done|].
    destruct (hs_heapsort_spec (seqZ 0 n)) as (l & -> & Hp & Hs).
    f_equal. apply (StronglySorted_unique Z.le); [done|apply seqZ_sorted|done].
  - exists (reverse (seqZ 1 n)). split; [done|].
    destruct (hs_heapsort_spec (reverse (seqZ 1 n))) as (l & -> & Hp & Hs).
    f_equal. apply (StronglySorted_unique Z.le); [done|apply seqZ_sorted|].
    by rewrite Hp, reverse_Permutation.
Qed.

Example gen_data_reverse_4 :
  Comparision.gen_data (λ k, k) 4 "reverse" = Ok [4; 3; 2; 1].
Proof. vm_compute. reflexivity. Qed.
